(** * WallWand endpoint discovery and state synchronisation engine

    A shallow embedding of the device driver of the TouchWand WallWand
    Homey app (two revisions of [device.js]) and the properties of its
    registry, capability projection, state synchroniser, root-report
    debouncer, command queue and health monitor.

    Conventions of the embedding.
    - JavaScript numbers are modelled as exact rationals extended with
      [NaN] and the two infinities; rounding of IEEE doubles is not
      modelled.
    - Asynchronous methods that run to completion between two external
      events are state-passing functions on [device]; the debouncer and
      the command queue, whose behaviour depends on the interleaving of
      timers and callers, are labelled transition systems.
    - The host (Homey) is modelled by the capability set, the capability
      values and the logs of the calls the driver makes on it. *)

From Stdlib Require Import QArith Qminmax Qabs Lqa.
From stdpp Require Import gmap strings list pretty sorting.

Local Open Scope string_scope.
Local Open Scope list_scope.
Set Warnings "-clear-no-such-hyp".
Set Warnings "-notation-overridden".

(** ** JavaScript values *)

Module JS.

(** Numbers: rationals, NaN and the infinities. *)
Inductive num := NaN | NegInf | Fin (q : Q) | PosInf.

Inductive jsval :=
| VUndefined
| VNull
| VBool (b : bool)
| VNum (x : num)
| VStr (s : string).

(** [a > b] on numbers; any comparison with NaN is false. *)
Definition num_gt (a b : num) : bool :=
  match a, b with
  | NaN, _ | _, NaN => false
  | NegInf, _ => false
  | _, PosInf => false
  | Fin _, NegInf => true
  | PosInf, _ => true
  | Fin p, Fin q => negb (Qle_bool p q)
  end.

Definition num_lt (a b : num) : bool := num_gt b a.

(** Strict equality [===] on numbers. *)
Definition num_eqb (a b : num) : bool :=
  match a, b with
  | Fin p, Fin q => Qeq_bool p q
  | NegInf, NegInf | PosInf, PosInf => true
  | _, _ => false
  end.

(** [a / b] for a finite non-zero divisor [b]. *)
Definition num_div_fin (a : num) (b : Q) : num :=
  match a with
  | NaN => NaN
  | Fin p => Fin (p / b)
  | PosInf => if Qle_bool 0 b then PosInf else NegInf
  | NegInf => if Qle_bool 0 b then NegInf else PosInf
  end.

Definition num_sub (a b : num) : num :=
  match a, b with
  | NaN, _ | _, NaN => NaN
  | Fin p, Fin q => Fin (p - q)
  | PosInf, PosInf | NegInf, NegInf => NaN
  | PosInf, _ | _, NegInf => PosInf
  | NegInf, _ | _, PosInf => NegInf
  end.

(** [Math.abs], [Math.min], [Math.max]. *)
Definition Math_abs (a : num) : num :=
  match a with
  | NaN => NaN
  | Fin p => Fin (Qabs p)
  | _ => PosInf
  end.

Definition Math_min (a b : num) : num :=
  match a, b with
  | NaN, _ | _, NaN => NaN
  | NegInf, _ | _, NegInf => NegInf
  | PosInf, x | x, PosInf => x
  | Fin p, Fin q => Fin (Qmin p q)
  end.

Definition Math_max (a b : num) : num :=
  match a, b with
  | NaN, _ | _, NaN => NaN
  | PosInf, _ | _, PosInf => PosInf
  | NegInf, x | x, NegInf => x
  | Fin p, Fin q => Fin (Qmax p q)
  end.

(** Truthiness, as tested by [if], [!], [&&] and [||]. *)
Definition num_truthy (a : num) : bool :=
  match a with
  | NaN => false
  | Fin p => negb (Qeq_bool p 0)
  | _ => true
  end.

Definition truthy (v : jsval) : bool :=
  match v with
  | VUndefined | VNull => false
  | VBool b => b
  | VNum x => num_truthy x
  | VStr s => negb (String.eqb s "")
  end.

Definition js_typeof (v : jsval) : string :=
  match v with
  | VUndefined => "undefined"
  | VNull => "object"
  | VBool _ => "boolean"
  | VNum _ => "number"
  | VStr _ => "string"
  end.

(** Strict equality [===] on values. *)
Definition strict_eqb (a b : jsval) : bool :=
  match a, b with
  | VUndefined, VUndefined | VNull, VNull => true
  | VBool x, VBool y => Bool.eqb x y
  | VNum x, VNum y => num_eqb x y
  | VStr x, VStr y => String.eqb x y
  | _, _ => false
  end.

(** [s.includes(needle)]. *)
Fixpoint includes (s needle : string) : bool :=
  String.prefix needle s ||
  match s with
  | EmptyString => false
  | String _ s' => includes s' needle
  end.

(** [s.startsWith(p)]. *)
Definition startsWith (s p : string) : bool := String.prefix p s.

Section ToNumber.
(** The numeric value of a string literal ([StringToNumber] of the
    language specification) is left abstract. *)
Variable StringToNumber : string -> num.

Definition ToNumber (v : jsval) : num :=
  match v with
  | VUndefined => NaN
  | VNull => Fin 0
  | VBool b => Fin (if b then 1 else 0)
  | VNum x => x
  | VStr s => StringToNumber s
  end.
End ToNumber.

(** The result of a call that may throw; an error is represented by
    [error.message || error.toString()]. *)
Inductive completion (A : Type) :=
| Returns (a : A)
| Throws (msg : string).
Arguments Returns {A} a.
Arguments Throws {A} msg.

End JS.
Import JS.

(** ** The device: registry, projected capabilities, host logs *)

(** [WallWandDevice.DEVICE_TYPES]. *)
Inductive DeviceType := DIMMER | SWITCH.

Global Instance DeviceType_eq_dec : EqDecision DeviceType.
Proof. solve_decision. Defined.

(** The registry [this._endpointTypes]: an absent key reads [undefined],
    a key bound to [None] reads [null]. *)
Abbreviation registry := (gmap N (option DeviceType)).

(** The trigger cards fired through [_triggerEndpoint]; the label tokens
    are resolved from the settings and are not part of the model. *)
Inductive flow_event :=
| endpoint_turned_on (endpointNum : N)
| endpoint_turned_off (endpointNum : N)
| endpoint_dim_changed (endpointNum : N) (dim_value : num)
| endpoint_state_changed (endpointNum : N) (state : bool).

Record device := Device {
  _endpointTypes : registry;
  (** the host's capability list and capability values *)
  capabilities : gset string;
  capabilityValues : gmap string jsval;
  (** every [setStoreValue('endpointTypes', _)], oldest first *)
  storeWrites : list registry;
  (** every [setCapabilityValue(cap, v)], oldest first *)
  valueWrites : list (string * jsval);
  (** every trigger card fired, oldest first *)
  triggers : list flow_event;
}.

Definition Z_WAVE_MAX_DIM_VALUE : Q := 99.

(** [`onoff.ep${endpointNum}`] and [`dim.ep${endpointNum}`]. The
    template literal prints the decimal numeral of a number below
    10^21 (exponent notation from there on), so the ids below are those
    of the source for endpoint numbers in that range. *)
Definition onoffCap (endpointNum : N) : string := "onoff.ep" +:+ pretty endpointNum.
Definition dimCap (endpointNum : N) : string := "dim.ep" +:+ pretty endpointNum.

(** *** Host operations (Homey device API)

    The host calls are taken to succeed and to take effect at once; the
    driver itself discards their failures ([.catch] on every call).
    Removing a capability forgets its value. *)

Definition hasCapability (d : device) (cap : string) : bool :=
  bool_decide (cap ∈ capabilities d).

Definition addCapability (d : device) (cap : string) : device :=
  Device (_endpointTypes d) ({[cap]} ∪ capabilities d) (capabilityValues d)
         (storeWrites d) (valueWrites d) (triggers d).

Definition removeCapability (d : device) (cap : string) : device :=
  Device (_endpointTypes d) (capabilities d ∖ {[cap]}) (delete cap (capabilityValues d))
         (storeWrites d) (valueWrites d) (triggers d).

(** An unset capability value reads [null]. *)
Definition getCapabilityValue (d : device) (cap : string) : jsval :=
  default VNull (capabilityValues d !! cap).

Definition setCapabilityValue (d : device) (cap : string) (v : jsval) : device :=
  Device (_endpointTypes d) (capabilities d) (<[cap := v]> (capabilityValues d))
         (storeWrites d) (valueWrites d ++ [(cap, v)]) (triggers d).

(** [this.setStoreValue('endpointTypes', this._endpointTypes)]. *)
Definition setStoreValue (d : device) : device :=
  Device (_endpointTypes d) (capabilities d) (capabilityValues d)
         (storeWrites d ++ [_endpointTypes d]) (valueWrites d) (triggers d).

Definition set_endpointTypes (d : device) (r : registry) : device :=
  Device r (capabilities d) (capabilityValues d)
         (storeWrites d) (valueWrites d) (triggers d).

Definition _triggerEndpoint (d : device) (e : flow_event) : device :=
  Device (_endpointTypes d) (capabilities d) (capabilityValues d)
         (storeWrites d) (valueWrites d) (triggers d ++ [e]).

(** *** Capability helpers *)

Definition _ensureCapability (d : device) (cap : string) : device :=
  if negb (hasCapability d cap) then addCapability d cap else d.

Definition _removeIfPresent (d : device) (cap : string) : device :=
  if hasCapability d cap then removeCapability d cap else d.

Definition _removeEndpointCapabilities (d : device) (endpointNum : N) : device :=
  let d := _removeIfPresent d (dimCap endpointNum) in
  _removeIfPresent d (onoffCap endpointNum).

(** *** Applying values *)

Definition _setOnOff (d : device) (cap : string) (value : jsval) (endpointNum : N) : device :=
  if negb (truthy (VStr cap)) then d
  else if negb (hasCapability d cap) then d
  else
    let oldValue := getCapabilityValue d cap in
    let newValue := truthy value in
    let d := setCapabilityValue d cap (VBool newValue) in
    if strict_eqb oldValue (VBool newValue) then d
    else
      let d :=
        if newValue then _triggerEndpoint d (endpoint_turned_on endpointNum)
        else _triggerEndpoint d (endpoint_turned_off endpointNum) in
      _triggerEndpoint d (endpoint_state_changed endpointNum newValue).

Definition _setDim (d : device) (cap : string) (value01 : num) (endpointNum : N) : device :=
  if negb (truthy (VStr cap)) then d
  else if (endpointNum <? 1)%N then d
  else
    let normalizedValue :=
      Math_max (Fin 0) (Math_min (Fin 1) (if num_truthy value01 then value01 else Fin 0)) in
    if negb (hasCapability d cap) then d
    else
      let oldValue := getCapabilityValue d cap in
      let d := setCapabilityValue d cap (VNum normalizedValue) in
      if strict_eqb oldValue (VNum normalizedValue) then d
      else _triggerEndpoint d (endpoint_dim_changed endpointNum normalizedValue).

(** ** The protocol adapter: node, endpoints, command classes *)

(** A report returned by a [GET]: an object with named fields, or any
    other value (a missing report is [undefined] or [null]). *)
Inductive report :=
| RObject (fields : gmap string jsval)
| RValue (v : jsval).

(** A command class with its [GET]; [None] when the member is not a
    function. *)
Record multilevel_cc := { SWITCH_MULTILEVEL_GET : option (completion report) }.
Record binary_cc := { SWITCH_BINARY_GET : option (completion report) }.

Record command_classes := {
  COMMAND_CLASS_SWITCH_MULTILEVEL : option multilevel_cc;
  COMMAND_CLASS_SWITCH_BINARY : option binary_cc;
}.

Record endpoint := {
  deviceClassGeneric : string;
  CommandClass : option command_classes;
}.

(** [endpoint.CommandClass || {}]. *)
Definition CommandClass_or_empty (e : endpoint) : command_classes :=
  default {| COMMAND_CLASS_SWITCH_MULTILEVEL := None;
             COMMAND_CLASS_SWITCH_BINARY := None |} (CommandClass e).

(** What the driver is given besides its own state: the node's
    multi-channel endpoints, the outcome of [registerCapability] of the
    Z-Wave driver base class for each capability id (the message it
    throws, if it throws; it registers handlers and leaves the
    capability list alone), and the capability ids of the driver
    manifest. *)
Record environment := {
  MultiChannelNodes : gmap N endpoint;
  registerCapability : string -> option string;
  manifest_capabilities : list string;
}.

(** [Object.keys] of an object whose keys are numerals of integers:
    ascending order. That is the order of the source for keys below
    2^32 - 1 (array indices); larger keys come after them in insertion
    order, which a map does not record. *)
Definition Object_keys {A} (m : gmap N A) : list N :=
  merge_sort N.le (elements (dom m)).

(** ** State synchroniser *)

Definition report_truthy (r : report) : bool :=
  match r with
  | RObject _ => true
  | RValue v => truthy v
  end.

Definition report_typeof (r : report) : string :=
  match r with
  | RObject _ => "object"
  | RValue v => js_typeof v
  end.

Definition report_has (r : report) (field : string) : bool :=
  match r with
  | RObject fields => bool_decide (is_Some (fields !! field))
  | RValue _ => false
  end.

(** [report[field]]. *)
Definition report_get (r : report) (field : string) : jsval :=
  match r with
  | RObject fields => default VUndefined (fields !! field)
  | RValue _ => VUndefined
  end.

Definition _isValidReport (r : report) (requiredField : string) : bool :=
  report_truthy r && String.eqb (report_typeof r) "object" && report_has r requiredField.

Class StringSemantics := StringToNumber : string -> num.

Section Synchroniser.
Context `{StringSemantics}.

Definition _syncDimmerState (d : device) (endpointNum : N) (commandClass : command_classes)
    (onoffCap dimCap : string) : completion bool * device :=
  let d := _ensureCapability d onoffCap in
  let d := _ensureCapability d dimCap in
  match COMMAND_CLASS_SWITCH_MULTILEVEL commandClass with
  | None => (Returns false, d)
  | Some cc =>
    match SWITCH_MULTILEVEL_GET cc with
    | None => (Returns false, d)
    | Some (Throws msg) => (Throws msg, d)
    | Some (Returns report) =>
      if _isValidReport report "Current Value" then
        let dimValue := ToNumber StringToNumber (report_get report "Current Value") in
        let d := _setOnOff d onoffCap (VBool (num_gt dimValue (Fin 0))) endpointNum in
        let d := _setDim d dimCap (num_div_fin dimValue Z_WAVE_MAX_DIM_VALUE) endpointNum in
        (Returns true, d)
      else (Returns false, d)
    end
  end.

Definition _syncSwitchState (d : device) (endpointNum : N) (commandClass : command_classes)
    (onoffCap dimCap : string) : completion bool * device :=
  let d := _removeIfPresent d dimCap in
  let d := _ensureCapability d onoffCap in
  match COMMAND_CLASS_SWITCH_BINARY commandClass with
  | None => (Returns false, d)
  | Some cc =>
    match SWITCH_BINARY_GET cc with
    | None => (Returns false, d)
    | Some (Throws msg) => (Throws msg, d)
    | Some (Returns report) =>
      if _isValidReport report "Value" then
        let Value := report_get report "Value" in
        let isOn := strict_eqb Value (VStr "on/enable") || strict_eqb Value (VNum (Fin 1)) in
        let d := _setOnOff d onoffCap (VBool isOn) endpointNum in
        (Returns true, d)
      else (Returns false, d)
    end
  end.

(** The type-specific read in the [try] block of
    [_syncOneEndpointState]: the message of the error it raises, if
    any. *)
Definition sync_attempt (d : device) (endpointNum : N) (deviceType : DeviceType)
    (commandClass : command_classes) : option string * device :=
  let '(syncSuccess, d) :=
    match deviceType with
    | DIMMER => _syncDimmerState d endpointNum commandClass (onoffCap endpointNum) (dimCap endpointNum)
    | SWITCH => _syncSwitchState d endpointNum commandClass (onoffCap endpointNum) (dimCap endpointNum)
    end in
  match syncSuccess with
  | Returns true => (None, d)
  | Returns false => (Some "Invalid or missing report during sync", d)
  | Throws msg => (Some msg, d)
  end.

Definition _syncOneEndpointState (d : device) (endpointNum : N) (endpoint : option endpoint)
    : device :=
  let deviceType := _endpointTypes d !! endpointNum in
  match endpoint with
  | None => _removeEndpointCapabilities d endpointNum
  | Some endpoint =>
    match deviceType with
    | None | Some None => d
    | Some (Some deviceType) =>
      match sync_attempt d endpointNum deviceType (CommandClass_or_empty endpoint) with
      | (None, d) => d
      | (Some errorMsg, d) =>
        if includes errorMsg "timeout" then d
        else
          let d := set_endpointTypes d (<[endpointNum := None]> (_endpointTypes d)) in
          let d := _removeEndpointCapabilities d endpointNum in
          setStoreValue d
      end
    end
  end.

Definition _syncAllEndpointStates (d : device) (node : environment) : device :=
  foldl (fun d id => _syncOneEndpointState d id (MultiChannelNodes node !! id))
        d (Object_keys (_endpointTypes d)).

Definition _syncEndpointsByType (d : device) (node : environment) (deviceType : DeviceType)
    : device :=
  let endpointsToSync :=
    filter (fun id => _endpointTypes d !! id = Some (Some deviceType))
           (Object_keys (_endpointTypes d)) in
  foldl (fun d id => _syncOneEndpointState d id (MultiChannelNodes node !! id))
        d endpointsToSync.

End Synchroniser.

(** ** Discovery engine and capability projector *)

(** The driver exists in two revisions: [src/device.js] and the revision
    that adds the command queue. They differ in discovery and in
    [_registerEndpointCapabilities]. *)
Inductive revision := device_js | queue_revision.

Definition _detectEndpointType (endpoint : endpoint) (commandClass : command_classes)
    : option DeviceType :=
  let isDimmer :=
    String.eqb (deviceClassGeneric endpoint) "GENERIC_TYPE_SWITCH_MULTILEVEL" &&
    bool_decide (is_Some (COMMAND_CLASS_SWITCH_MULTILEVEL commandClass)) in
  let isSwitch :=
    String.eqb (deviceClassGeneric endpoint) "GENERIC_TYPE_SWITCH_BINARY" &&
    bool_decide (is_Some (COMMAND_CLASS_SWITCH_BINARY commandClass)) in
  if isDimmer then Some DIMMER
  else if isSwitch then Some SWITCH
  else None.

(** One [try { this.registerCapability(cap, ...) } catch ...] block: the
    message it rethrows, if any. *)
Definition register_handler (rev : revision) (node : environment) (cap : string)
    : option string :=
  match registerCapability node cap with
  | None => None
  | Some errorMsg =>
    match rev with
    | device_js =>
      if includes errorMsg "timeout" || includes errorMsg "capability get command failed"
      then None else Some errorMsg
    | queue_revision =>
      if includes errorMsg "timeout" || includes errorMsg "did not respond"
         || includes errorMsg "NO_ACK"
      then None else Some ("Failed to register " +:+ cap +:+ ": " +:+ errorMsg)
    end
  end.

Definition _registerEndpointCapabilities (rev : revision) (node : environment)
    (d : device) (endpointNum : N) (deviceType : DeviceType) : option string * device :=
  match deviceType with
  | DIMMER =>
    let d := match rev with
             | device_js => d
             | queue_revision =>
               _ensureCapability (_ensureCapability d (onoffCap endpointNum)) (dimCap endpointNum)
             end in
    match register_handler rev node (onoffCap endpointNum) with
    | Some msg => (Some msg, d)
    | None => (register_handler rev node (dimCap endpointNum), d)
    end
  | SWITCH =>
    let d := match rev with
             | device_js => d
             | queue_revision => _ensureCapability d (onoffCap endpointNum)
             end in
    (register_handler rev node (onoffCap endpointNum), d)
  end.

(** [this._endpointTypes[endpointNum]] is truthy. *)
Definition known (d : device) (endpointNum : N) : bool :=
  match _endpointTypes d !! endpointNum with
  | Some (Some _) => true
  | _ => false
  end.

Definition commit_type (d : device) (endpointNum : N) (deviceType : DeviceType) : device :=
  setStoreValue (set_endpointTypes d (<[endpointNum := Some deviceType]> (_endpointTypes d))).

Definition mark_unsupported (d : device) (endpointNum : N) : device :=
  _removeEndpointCapabilities
    (set_endpointTypes d (<[endpointNum := None]> (_endpointTypes d))) endpointNum.

Definition _discoverOneEndpoint (rev : revision) (node : environment) (d : device)
    (endpointNum : N) (endpoint : option endpoint) : device :=
  match endpoint with
  | None => d
  | Some endpoint =>
    match rev with
    | device_js =>
      if known d endpointNum then d
      else
        match _detectEndpointType endpoint (CommandClass_or_empty endpoint) with
        | None => mark_unsupported d endpointNum
        | Some deviceType =>
          match _registerEndpointCapabilities rev node d endpointNum deviceType with
          | (None, d) => commit_type d endpointNum deviceType
          | (Some msg, d) =>
            if includes msg "timeout" then commit_type d endpointNum deviceType else d
          end
        end
    | queue_revision =>
      match _detectEndpointType endpoint (CommandClass_or_empty endpoint) with
      | None => mark_unsupported d endpointNum
      | Some deviceType =>
        if known d endpointNum
        then snd (_registerEndpointCapabilities rev node d endpointNum deviceType)
        else
          match _registerEndpointCapabilities rev node d endpointNum deviceType with
          | (None, d) => commit_type d endpointNum deviceType
          | (Some errorMsg, d) =>
            if includes errorMsg "timeout" || includes errorMsg "capability get command failed"
            then commit_type d endpointNum deviceType else d
          end
      end
    end
  end.

(** The capability ids matched by [/\.ep(\d+)$/], with the captured
    endpoint number. *)
Definition is_digit (c : Ascii.ascii) : bool :=
  let n := Ascii.nat_of_ascii c in (48 <=? n)%nat && (n <=? 57)%nat.

Fixpoint span_digits (s : string) : string * string :=
  match s with
  | String c s' =>
    if is_digit c then let '(ds, rest) := span_digits s' in (String c ds, rest)
    else (EmptyString, s)
  | EmptyString => (EmptyString, EmptyString)
  end.

(** [parseInt(ds, 10)] of a string of decimal digits. The value is
    exact; that of the source is the nearest double, which is the same
    number below 2^53. *)
Definition parseInt_digits (ds : string) : N :=
  foldl (fun acc c => (10 * acc + N.of_nat (Ascii.nat_of_ascii c - 48))%N) 0%N
        (String.list_ascii_of_string ds).

Definition match_endpoint_cap (capId : string) : option N :=
  let '(ds, rest) := span_digits (String.rev capId) in
  if negb (String.eqb ds "") && String.prefix "pe." rest
  then Some (parseInt_digits (String.rev ds)) else None.

(** The labels that [_cleanupAllEndpoints] blanks through [setSettings]
    belong to the label resolver and are not part of the model. *)
Definition _cleanupAllEndpoints (node : environment) (d : device) : device :=
  let d := set_endpointTypes d ∅ in
  let d := setStoreValue d in
  let endpointCapabilities :=
    filter (fun id => is_Some (match_endpoint_cap id)) (manifest_capabilities node) in
  foldl _removeIfPresent d endpointCapabilities.

Definition _discoverAllEndpoints (rev : revision) (node : environment) (d : device) : device :=
  let endpointIds := Object_keys (MultiChannelNodes node) in
  if (length endpointIds =? 0)%nat then _cleanupAllEndpoints node d
  else
    foldl (fun d endpointNum =>
             if (endpointNum <? 1)%N then d
             else _discoverOneEndpoint rev node d endpointNum
                    (MultiChannelNodes node !! endpointNum))
          d endpointIds.

Definition _cleanupOrphanedEndpoints (node : environment) (d : device) : device :=
  let maxManifestEndpoint :=
    foldl (fun m capId =>
             match match_endpoint_cap capId with
             | Some endpointNum => if (m <? endpointNum)%N then endpointNum else m
             | None => m
             end) 0%N (manifest_capabilities node) in
  if (maxManifestEndpoint =? 0)%N then d
  else
    foldl (fun d i =>
             if bool_decide (_endpointTypes d !! i = None \/ _endpointTypes d !! i = Some None)
             then
               if hasCapability d (onoffCap i) || hasCapability d (dimCap i)
               then _removeEndpointCapabilities d i else d
             else d)
          d (N.of_nat <$> seq 1 (N.to_nat maxManifestEndpoint)).

(** ** Health monitor *)

Definition discoveredCount (d : device) : nat := length (Object_keys (_endpointTypes d)).

Definition capabilityCount (d : device) : nat :=
  length (filter (fun c => startsWith c "onoff.ep" || startsWith c "dim.ep")
                 (elements (capabilities d))).

(** [this.warning(..)]. Neither revision defines a method [warning],
    and the classes they extend offer [log] and [error] only, so the
    call is a [TypeError]. *)
Definition warning (message : string) : completion unit :=
  Throws "this.warning is not a function".

(** The call of [warning] comes before the [try], so what it throws
    leaves the function; nothing has been changed by then. *)
Definition _checkDeviceHealth (rev : revision) (node : environment) (d : device)
    : completion device :=
  if (discoveredCount d =? 0)%nat && (0 <? capabilityCount d)%nat
  then
    match warning "[HEALTH] Endpoint types lost, attempting rediscovery" with
    | Throws e => Throws e
    | Returns _ => Returns (setStoreValue (_discoverAllEndpoints rev node d))
    end
  else Returns d.

(** ** Flow condition handlers *)

(** The argument object built by the condition cards:
    [{ endpoint, comparison, level }]. [endpoint_id] is [None] when
    [args.endpoint] is [undefined] or [null], and otherwise the value of
    its [id] member ([VUndefined] when it has none). *)
Record condition_args := {
  endpoint_id : option jsval;
  comparison : jsval;
  level : jsval;
}.

(** [args.endpoint?.id]. *)
Definition optional_id (args : condition_args) : jsval :=
  default VUndefined (endpoint_id args).

(** The registry key a value denotes when used in
    [this._endpointTypes[v]] or interpolated in a capability id: the
    keys of the registry are the decimal numerals of endpoint numbers,
    so only an integral number below 10^21 or a canonical numeral
    string denotes one. *)
Definition property_index (v : jsval) : option N :=
  match v with
  | VNum (Fin q) =>
    let n := (Qnum q / Zpos (Qden q))%Z in
    if bool_decide (Qnum q mod Zpos (Qden q) = 0 /\ 0 <= n < 10 ^ 21)%Z
    then Some (Z.to_N n) else None
  | VStr s =>
    let '(ds, rest) := span_digits s in
    if String.eqb rest "" && String.eqb (pretty (parseInt_digits ds)) s
    then Some (parseInt_digits ds) else None
  | _ => None
  end.

(** The subtraction of two doubles rounds; it is left to the host. *)
Class FloatSemantics := float_sub : num -> num -> num.

(** The literal [0.01]: the double nearest to it. *)
Definition double_0_01 : Q := 5764607523034235 # 576460752303423488.

(** The message of the [TypeError] raised by [this._endpointTypes[..]]
    while the field is [undefined]. *)
Definition registry_undefined : string := "Cannot read properties of undefined".

Section Conditions.
Context `{StringSemantics} `{FloatSemantics}.

(** The handlers read [this._endpointTypes] without a guard. The field
    is assigned by [onNodeInit]; [initialised] tells whether that has
    happened when the card runs. The cards are registered when the app
    starts, and [onNodeInit] returns before the assignment when the
    node is missing, so a card can run on an instance whose registry
    is still [undefined]. *)
Definition _handleEndpointIsOn (initialised : bool) (d : device) (args : condition_args)
    : completion bool :=
  if negb (truthy (optional_id args)) then Returns false
  else if negb initialised then Throws registry_undefined
  else
    match property_index (optional_id args) with
    | None => Returns false
    | Some endpointNum =>
      if negb (known d endpointNum) then Returns false
      else
        let cap := onoffCap endpointNum in
        if negb (hasCapability d cap) then Returns false
        else Returns (truthy (getCapabilityValue d cap))
    end.

Definition _handleEndpointDimCompare (initialised : bool) (d : device)
    (args : condition_args) : completion bool :=
  if negb (truthy (optional_id args)) then Returns false
  else if negb initialised then Throws registry_undefined
  else
    match property_index (optional_id args) with
    | None => Returns false
    | Some endpointNum =>
      if negb (known d endpointNum) then Returns false
      else
        let cap := dimCap endpointNum in
        if negb (hasCapability d cap) then Returns false
        else
          let current :=
            let v := getCapabilityValue d cap in
            ToNumber StringToNumber (if truthy v then v else VNum (Fin 0)) in
          let target :=
            let t := ToNumber StringToNumber (level args) in
            if num_truthy t then t else Fin 0 in
          (* [switch (args.comparison)]: the cases are tried in order with [===] *)
          if strict_eqb (comparison args) (VStr "greater_than")
          then Returns (num_gt current target)
          else if strict_eqb (comparison args) (VStr "less_than")
          then Returns (num_lt current target)
          else if strict_eqb (comparison args) (VStr "equal_to")
          then Returns (num_lt (Math_abs (float_sub current target)) (Fin double_0_01))
          else Returns false
    end.

End Conditions.

(** ** Root-report debouncer

    The two listeners registered by [_registerRootDeviceListeners] (for
    a node that has both root command classes) and the host's timer
    table, as a transition system over the events that can occur: an
    endpoint-less report of either command class, the expiry of a
    pending timer, and the passage of time. A timer can fire once it is
    due; clearing a handle that has fired does nothing. *)

Module Debouncer.

Definition SYNC_DEBOUNCE_MS (rev : revision) : N :=
  match rev with device_js => 100 | queue_revision => 200 end.

(** A timer created by [setTimeout]: its handle, the class whose
    endpoints its callback resynchronises, and when it is due. *)
Record timer := Timer {
  handle : nat;
  timer_class : DeviceType;
  due : N;
}.

Record state := State {
  _syncTimeout : option nat;
  (** the host's pending timers *)
  pending : list timer;
  next_handle : nat;
  now : N;
  (** the calls [_syncEndpointsByType(c)] made by fired timers *)
  synced : list DeviceType;
}.

Definition init : state := State None [] 0 0 [].

Inductive event :=
| RootReport (c : DeviceType)   (* multilevel report: DIMMER; binary report: SWITCH *)
| Fire (h : nat)
| Tick (dt : N).

Definition clearTimeout (h : nat) (ts : list timer) : list timer :=
  filter (fun t => handle t ≠ h) ts.

(** [multilevelListener] ([c = DIMMER]) and [binaryListener]
    ([c = SWITCH]). *)
Definition listener (rev : revision) (c : DeviceType) (s : state) : state :=
  let ts :=
    match _syncTimeout s with
    | Some h => clearTimeout h (pending s)
    | None => pending s
    end in
  let h := next_handle s in
  State (Some h) (ts ++ [Timer h c (now s + SYNC_DEBOUNCE_MS rev)]) (S h) (now s) (synced s).

Definition step (rev : revision) (s : state) (e : event) : state :=
  match e with
  | RootReport c => listener rev c s
  | Fire h =>
    match filter (fun t => handle t = h) (pending s) with
    | t :: _ =>
      if (due t <=? now s)%N
      then State (_syncTimeout s) (clearTimeout h (pending s)) (next_handle s) (now s)
                 (synced s ++ [timer_class t])
      else s
    | [] => s
    end
  | Tick dt => State (_syncTimeout s) (pending s) (next_handle s) (now s + dt) (synced s)
  end.

Definition run (rev : revision) (es : list event) : state := foldl (step rev) init es.

End Debouncer.

(** ** Command queue

    [queueCapabilityCommand] and [_processCommandQueue] of the revision
    with the queue, as a transition system. An activation of
    [_processCommandQueue] is suspended either at
    [await this.triggerCapabilityListener(..)] or at
    [await this._delay(..)]; callers may enqueue in between. *)

Module CommandQueue.

Definition COMMAND_DELAY_MS : N := 250.

(** A queue entry; [future] identifies the [resolve]/[reject] pair of
    the promise returned to the caller. *)
Record command := Command {
  capabilityId : string;
  value : jsval;
  future : nat;
  timestamp : N;
}.

Inductive settlement := Resolved | Rejected (error : string).

(** Where an activation of [_processCommandQueue] is suspended. *)
Inductive activation :=
| AwaitTrigger (c : command)
| AwaitDelay (due : N).

(** One call of [triggerCapabilityListener]: the command, when the
    call started, and once it has completed, when it completed and
    how many commands were waiting in the queue at that moment. *)
Record application := Application {
  applied_command : command;
  started : N;
  finished : option (N * nat);
}.

Record state := State {
  _commandQueue : list command;
  _isProcessingQueue : bool;
  (** the suspended activations of [_processCommandQueue] *)
  activations : list activation;
  now : N;
  next_future : nat;
  (** every command ever pushed, oldest first *)
  enqueued : list command;
  (** every call of [triggerCapabilityListener], oldest first *)
  applications : list application;
  (** every [resolve()] and [reject(error)], oldest first *)
  settled : list (nat * settlement);
}.

Definition init : state := State [] false [] 0 0 [] [] [].

Inductive event :=
| Enqueue (capabilityId : string) (value : jsval)
| TriggerSettles (i : nat) (outcome : completion unit)
| DelayElapses (i : nat)
| Tick (dt : N).

Definition set_activations (s : state) (l : list activation) : state :=
  State (_commandQueue s) (_isProcessingQueue s) l (now s) (next_future s)
        (enqueued s) (applications s) (settled s).

(** The head of the [while] loop, run for a new activation ([i] past
    the end of the list) or for the resumed activation [i]: either
    shift a command and suspend on its application, or leave the loop
    and clear the flag. *)
Definition loop_head (s : state) (i : nat) : state :=
  match _commandQueue s with
  | c :: q =>
    State q (_isProcessingQueue s)
          (if bool_decide (i < length (activations s))
           then <[i := AwaitTrigger c]> (activations s)
           else activations s ++ [AwaitTrigger c])
          (now s) (next_future s) (enqueued s)
          (applications s ++ [Application c (now s) None]) (settled s)
  | [] =>
    State [] false (delete i (activations s)) (now s) (next_future s)
          (enqueued s) (applications s) (settled s)
  end.

Definition _processCommandQueue (s : state) : state :=
  if _isProcessingQueue s then s
  else
    let s := State (_commandQueue s) true (activations s) (now s) (next_future s)
                   (enqueued s) (applications s) (settled s) in
    loop_head s (length (activations s)).

Definition queueCapabilityCommand (s : state) (capabilityId : string) (value : jsval)
    : state :=
  let c := Command capabilityId value (next_future s) (now s) in
  let s := State (_commandQueue s ++ [c]) (_isProcessingQueue s) (activations s) (now s)
                 (S (next_future s)) (enqueued s ++ [c]) (applications s) (settled s) in
  if negb (_isProcessingQueue s) then _processCommandQueue s else s.

(** Record the completion of the application of [c] in the log. *)
Definition finish (s : state) (c : command) : list application :=
  (fun a =>
     if bool_decide (future (applied_command a) = future c /\ finished a = None)
     then Application (applied_command a) (started a)
                      (Some (now s, length (_commandQueue s)))
     else a) <$> applications s.

(** The continuation of [await this.triggerCapabilityListener(..)]. *)
Definition after_trigger (s : state) (i : nat) (c : command) (outcome : completion unit)
    : state :=
  let verdict := match outcome with
                 | Returns _ => Resolved
                 | Throws error => Rejected error
                 end in
  let s := State (_commandQueue s) (_isProcessingQueue s) (activations s) (now s)
                 (next_future s) (enqueued s) (finish s c)
                 (settled s ++ [(future c, verdict)]) in
  if (0 <? length (_commandQueue s))%nat
  then set_activations s (<[i := AwaitDelay (now s + COMMAND_DELAY_MS)]> (activations s))
  else loop_head s i.

Definition step (s : state) (e : event) : state :=
  match e with
  | Enqueue capabilityId value => queueCapabilityCommand s capabilityId value
  | TriggerSettles i outcome =>
    match activations s !! i with
    | Some (AwaitTrigger c) => after_trigger s i c outcome
    | _ => s
    end
  | DelayElapses i =>
    match activations s !! i with
    | Some (AwaitDelay due) => if (due <=? now s)%N then loop_head s i else s
    | _ => s
    end
  | Tick dt =>
    State (_commandQueue s) (_isProcessingQueue s) (activations s) (now s + dt)
          (next_future s) (enqueued s) (applications s) (settled s)
  end.

Definition run (es : list event) : state := foldl step init es.

End CommandQueue.


(** ** Specification vocabulary *)

(** The fields an operation leaves alone. *)
Definition same_registry (d d' : device) : Prop :=
  _endpointTypes d' = _endpointTypes d /\ storeWrites d' = storeWrites d.

Definition same_logs (d d' : device) : Prop :=
  valueWrites d' = valueWrites d /\ triggers d' = triggers d.

(** The trigger cards [_setOnOff] fires for a change to [newValue]. *)
Definition onoff_transition (endpointNum : N) (newValue : bool) : list flow_event :=
  [if newValue then endpoint_turned_on endpointNum else endpoint_turned_off endpointNum;
   endpoint_state_changed endpointNum newValue].

(** [Math.max(0, Math.min(1, Number(value01) || 0))]. *)
Definition normalize (value01 : num) : num :=
  Math_max (Fin 0) (Math_min (Fin 1) (if num_truthy value01 then value01 else Fin 0)).

(** The controls the type-specific read ensures and removes before it
    asks the device. *)
Definition prepared (d : device) (n : N) (t : DeviceType) : device :=
  match t with
  | DIMMER => _ensureCapability (_ensureCapability d (onoffCap n)) (dimCap n)
  | SWITCH => _ensureCapability (_removeIfPresent d (dimCap n)) (onoffCap n)
  end.

(** The capability set of a type is projected for endpoint [n]: the
    on/off control, and the dim control exactly for a dimmer. *)
Definition projects (d : device) (n : N) (t : DeviceType) : bool :=
  hasCapability d (onoffCap n) &&
  Bool.eqb (hasCapability d (dimCap n)) (bool_decide (t = DIMMER)).

(** The registry/control invariant, at one endpoint id and overall. *)
Definition consistent_at (d : device) (n : N) : Prop :=
  forall t, _endpointTypes d !! n = Some (Some t) -> projects d n t = true.

Definition consistent (d : device) : Prop := forall n, consistent_at d n.

Definition unprojected (d : device) (n : N) : Prop :=
  hasCapability d (onoffCap n) = false /\ hasCapability d (dimCap n) = false.

(** Endpoint [n] is unclassified and has no controls. *)
Definition demoted (d : device) (n : N) : Prop :=
  _endpointTypes d !! n = Some None /\ unprojected d n.

(** The state in which [_syncOneEndpointState] leaves an endpoint it
    demotes. *)
Definition demote (d : device) (n : N) : device :=
  setStoreValue
    (_removeEndpointCapabilities (set_endpointTypes d (<[n := None]> (_endpointTypes d))) n).

(** The driver's operations other than a discovery pass started by
    node initialisation. *)
Inductive operation :=
| SyncOne (endpointNum : N) (endpoint : option endpoint)
| SyncAll (node : environment)
| SyncByType (node : environment) (deviceType : DeviceType)
| CleanupOrphans (node : environment)
| HealthCheck (rev : revision) (node : environment).

Definition perform `{StringSemantics} (d : device) (op : operation) : device :=
  match op with
  | SyncOne endpointNum endpoint => _syncOneEndpointState d endpointNum endpoint
  | SyncAll node => _syncAllEndpointStates d node
  | SyncByType node deviceType => _syncEndpointsByType d node deviceType
  | CleanupOrphans node => _cleanupOrphanedEndpoints node d
  | HealthCheck rev node =>
    match _checkDeviceHealth rev node d with
    | Returns d' => d'
    | Throws _ => d
    end
  end.

(** What the driver can do on [device.js]: one of the operations
    above, or a discovery pass. *)
Inductive action :=
| Perform (op : operation)
| Discover (node : environment).

Definition act `{StringSemantics} (d : device) (a : action) : device :=
  match a with
  | Perform op => perform d op
  | Discover node => _discoverAllEndpoints device_js node d
  end.

(** Endpoint [n] has no type in [d] nor in any state that the actions
    [acts] lead through: no discovery pass has reclassified it. *)
Fixpoint unclassified_throughout `{StringSemantics} (n : N) (d : device)
    (acts : list action) : Prop :=
  known d n = false /\
  match acts with
  | [] => True
  | a :: acts => unclassified_throughout n (act d a) acts
  end.

(** The monotonicity of demotion as the specification states it, for
    one discovery pass of either revision: the controls of a demoted
    endpoint are still absent after the pass unless the pass has
    reclassified the endpoint. *)
Definition absent_until_reclassified : Prop :=
  forall rev node d n, demoted d n ->
    let d' := _discoverAllEndpoints rev node d in
    unprojected d' n \/ exists t, _endpointTypes d' !! n = Some (Some t).

(** A semantics in which no string denotes a number; the concrete runs
    below do not depend on the choice. *)
Definition no_numeric_strings : StringSemantics := fun _ => NaN.

(** The statement that an operation preserves the registry/control
    invariant. *)
Definition preserves_invariant (f : device -> device) : Prop :=
  forall d, consistent d -> consistent (f d).

(** *** Concrete endpoints and nodes used by the examples *)

Definition multilevel_endpoint (g : option (completion report)) : endpoint :=
  {| deviceClassGeneric := "GENERIC_TYPE_SWITCH_MULTILEVEL";
     CommandClass := Some {|
       COMMAND_CLASS_SWITCH_MULTILEVEL := Some {| SWITCH_MULTILEVEL_GET := g |};
       COMMAND_CLASS_SWITCH_BINARY := None |} |}.

Definition binary_endpoint (g : option (completion report)) : endpoint :=
  {| deviceClassGeneric := "GENERIC_TYPE_SWITCH_BINARY";
     CommandClass := Some {|
       COMMAND_CLASS_SWITCH_MULTILEVEL := None;
       COMMAND_CLASS_SWITCH_BINARY := Some {| SWITCH_BINARY_GET := g |} |} |}.

(** A node whose handler registration always succeeds. *)
Definition node_of (endpoints : gmap N endpoint) (manifest : list string) : environment :=
  {| MultiChannelNodes := endpoints;
     registerCapability := fun _ => None;
     manifest_capabilities := manifest |}.

Definition report_of (field : string) (v : jsval) : completion report :=
  Returns (RObject {[field := v]}).

(** What the type-specific read obtains from the device: a failure with
    its message, or the value the controls are to take. *)
Inductive reading :=
| Failed (errorMsg : string)
| DimmerLevel (dimValue : num)
| SwitchState (isOn : bool).

Definition read_endpoint `{StringSemantics} (t : DeviceType) (cc : command_classes)
    : reading :=
  match t with
  | DIMMER =>
    match COMMAND_CLASS_SWITCH_MULTILEVEL cc with
    | Some {| SWITCH_MULTILEVEL_GET := Some (Returns r) |} =>
      if _isValidReport r "Current Value"
      then DimmerLevel (ToNumber StringToNumber (report_get r "Current Value"))
      else Failed "Invalid or missing report during sync"
    | Some {| SWITCH_MULTILEVEL_GET := Some (Throws msg) |} => Failed msg
    | _ => Failed "Invalid or missing report during sync"
    end
  | SWITCH =>
    match COMMAND_CLASS_SWITCH_BINARY cc with
    | Some {| SWITCH_BINARY_GET := Some (Returns r) |} =>
      if _isValidReport r "Value"
      then SwitchState (strict_eqb (report_get r "Value") (VStr "on/enable")
                        || strict_eqb (report_get r "Value") (VNum (Fin 1)))
      else Failed "Invalid or missing report during sync"
    | Some {| SWITCH_BINARY_GET := Some (Throws msg) |} => Failed msg
    | _ => Failed "Invalid or missing report during sync"
    end
  end.

(** Applying a successful reading to the controls of endpoint [n]. *)
Definition apply_reading (d : device) (n : N) (r : reading) : device :=
  match r with
  | Failed _ => d
  | DimmerLevel x =>
    _setDim (_setOnOff d (onoffCap n) (VBool (num_gt x (Fin 0))) n)
            (dimCap n) (num_div_fin x Z_WAVE_MAX_DIM_VALUE) n
  | SwitchState b => _setOnOff d (onoffCap n) (VBool b) n
  end.

(** The desynchronisation the health monitor looks for, in the words of
    the specification: some endpoint control exists on the device while
    the registry has no entry at all. An entry bound to [null] is an
    entry. *)
Definition endpoint_control (c : string) : Prop :=
  startsWith c "onoff.ep" = true \/ startsWith c "dim.ep" = true.

Definition desync_signature (d : device) : Prop :=
  _endpointTypes d = ∅ /\ exists c, c ∈ capabilities d /\ endpoint_control c.

(** The comparison operators the dim condition recognises. *)
Definition recognised_comparison (op : jsval) : Prop :=
  op = VStr "greater_than" \/ op = VStr "less_than" \/ op = VStr "equal_to".

(** The independence of the two debounce timers, in the words of the
    specification: a pending timer of one class survives a root report
    of the other class. *)
Definition timers_independent (rev : revision) : Prop :=
  forall (es : list Debouncer.event) (t : Debouncer.timer) (c : DeviceType),
    t ∈ Debouncer.pending (Debouncer.run rev es) ->
    Debouncer.timer_class t ≠ c ->
    t ∈ Debouncer.pending (Debouncer.step rev (Debouncer.run rev es) (Debouncer.RootReport c)).

(** *** Debouncer *)

Module DebouncerSpec.
Import Debouncer.

(** At most one timer is pending, and the driver holds its handle. *)
Definition single_slot (s : state) : Prop :=
  pending s = [] \/ exists t, pending s = [t] /\ _syncTimeout s = Some (handle t).

End DebouncerSpec.

(** *** Command queue *)

Module QueueSpec.
Import CommandQueue.

(** [b] is applied after [a]: [a] has completed, no later than [b]
    starts, and if commands were waiting when [a] completed, the
    delay lies between them. *)
Definition follows (a b : application) : Prop :=
  exists f w, finished a = Some (f, w) /\ (started a <= f)%N /\ (f <= started b)%N /\
              ((0 < w)%nat -> (f + COMMAND_DELAY_MS <= started b)%N).

Definition spaced (l : list application) : Prop :=
  forall i a b, l !! i = Some a -> l !! S i = Some b -> follows a b.

(** The last application has completed, at or before [t]. *)
Definition settled_by (l : list application) (t : N) (P : nat -> Prop) : Prop :=
  forall a, last l = Some a ->
    exists f w, finished a = Some (f, w) /\ (started a <= f)%N /\ (f <= t)%N /\ P w.

(** How the suspended activations relate to the flag, the queue and
    the log. *)
Definition phase (s : state) : Prop :=
  match activations s with
  | [] =>
    _isProcessingQueue s = false /\ _commandQueue s = [] /\
    settled_by (applications s) (now s) (fun w => w = 0%nat)
  | [AwaitTrigger c] =>
    _isProcessingQueue s = true /\
    exists l st, applications s = l ++ [Application c st None] /\ (st <= now s)%N
  | [AwaitDelay due] =>
    _isProcessingQueue s = true /\ _commandQueue s ≠ [] /\
    exists l a f w, applications s = l ++ [a] /\ finished a = Some (f, w) /\
                    (started a <= f)%N /\ (f <= now s)%N /\ due = (f + COMMAND_DELAY_MS)%N
  | _ => False
  end.

Record invariant (s : state) : Prop := {
  inv_fifo : enqueued s = (applied_command <$> applications s) ++ _commandQueue s;
  inv_spaced : spaced (applications s);
  inv_phase : phase s;
}.

(** What the settlement of an application tells the caller. *)
Definition verdict (outcome : completion unit) : settlement :=
  match outcome with
  | Returns _ => Resolved
  | Throws error => Rejected error
  end.

(** A schedule that lets the drain loop run on without further
    callers: for each waiting command the delay passes, the timer
    fires, and the application completes with the given outcome. *)
Definition drain_schedule (outcomes : list (completion unit)) : list event :=
  outcomes ≫= fun o => [Tick COMMAND_DELAY_MS; DelayElapses 0; TriggerSettles 0 o].

(** A schedule in which no caller enqueues. *)
Definition no_callers (es : list event) : Prop :=
  Forall (fun e => match e with Enqueue _ _ => False | _ => True end) es.


End QueueSpec.

(** * The rest of the driver

    Definitions for the further properties of the driver (X1 onwards):
    what a pass decides for one endpoint, the orphan sweep, device
    removal, the label resolver, the endpoint list offered to the flow
    editor, and node initialisation. *)

(** ** What synchronisation decides for one endpoint *)

(** The type [_syncOneEndpointState] leaves in the registry for an
    endpoint that reads [ot] there and has descriptor [ep]. *)
Definition outcome_type `{StringSemantics} (ot : option (option DeviceType))
    (ep : option endpoint) : option (option DeviceType) :=
  match ep, ot with
  | Some e, Some (Some t) =>
    match read_endpoint t (CommandClass_or_empty e) with
    | Failed errorMsg => if includes errorMsg "timeout" then ot else Some None
    | _ => ot
    end
  | _, _ => ot
  end.

(** The endpoint a trigger card is fired for. *)
Definition event_endpoint (e : flow_event) : N :=
  match e with
  | endpoint_turned_on n | endpoint_turned_off n
  | endpoint_dim_changed n _ | endpoint_state_changed n _ => n
  end.

(** The dim level a trigger card carries lies between 0 and 1. *)
Definition event_in_range (e : flow_event) : Prop :=
  match e with
  | endpoint_dim_changed _ x => exists q, x = Fin q /\ (0 <= q <= 1)%Q
  | _ => True
  end.

(** Everything the driver keeps about endpoint [m] is the same in [d]
    and [d']. *)
Definition untouched (m : N) (d d' : device) : Prop :=
  _endpointTypes d' !! m = _endpointTypes d !! m /\
  hasCapability d' (onoffCap m) = hasCapability d (onoffCap m) /\
  hasCapability d' (dimCap m) = hasCapability d (dimCap m) /\
  getCapabilityValue d' (onoffCap m) = getCapabilityValue d (onoffCap m) /\
  getCapabilityValue d' (dimCap m) = getCapabilityValue d (dimCap m).

(** ** What discovery decides for one endpoint *)

(** The message [_registerEndpointCapabilities] throws for endpoint [n]
    and type [t], if it throws. *)
Definition register_outcome (rev : revision) (node : environment) (n : N) (t : DeviceType)
    : option string :=
  match t with
  | DIMMER =>
    match register_handler rev node (onoffCap n) with
    | Some msg => Some msg
    | None => register_handler rev node (dimCap n)
    end
  | SWITCH => register_handler rev node (onoffCap n)
  end.

(** Whether [_discoverOneEndpoint] commits the detected type: the
    registration went through, or failed in a way the revision counts
    as a timeout. *)
Definition commits (rev : revision) (node : environment) (n : N) (t : DeviceType) : bool :=
  match register_outcome rev node n t with
  | None => true
  | Some msg =>
    match rev with
    | device_js => includes msg "timeout"
    | queue_revision => includes msg "timeout" || includes msg "capability get command failed"
    end
  end.

(** The controls [_registerEndpointCapabilities] ensures: none in
    [device.js], those of the type in the revision with the queue. *)
Definition ensured (rev : revision) (d : device) (n : N) (t : DeviceType) : device :=
  match rev, t with
  | device_js, _ => d
  | queue_revision, DIMMER =>
    _ensureCapability (_ensureCapability d (onoffCap n)) (dimCap n)
  | queue_revision, SWITCH => _ensureCapability d (onoffCap n)
  end.

(** What the driver keeps about one endpoint: its registry entry and
    whether its on/off and dim controls exist. *)
Definition local_state : Type := option (option DeviceType) * bool * bool.

Definition local (d : device) (n : N) : local_state :=
  (_endpointTypes d !! n, hasCapability d (onoffCap n), hasCapability d (dimCap n)).

(** The effect of [_discoverOneEndpoint] on the endpoint it is given. *)
Definition discover_local (rev : revision) (node : environment) (n : N) (e : endpoint)
    (l : local_state) : local_state :=
  let '(ot, onoff, dim) := l in
  let is_known := match ot with Some (Some _) => true | _ => false end in
  match rev with
  | device_js =>
    if is_known then l
    else
      match _detectEndpointType e (CommandClass_or_empty e) with
      | None => (Some None, false, false)
      | Some t => if commits rev node n t then (Some (Some t), onoff, dim) else l
      end
  | queue_revision =>
    match _detectEndpointType e (CommandClass_or_empty e) with
    | None => (Some None, false, false)
    | Some t =>
      let dim' := match t with DIMMER => true | SWITCH => dim end in
      if is_known then (ot, true, dim')
      else if commits rev node n t then (Some (Some t), true, dim')
      else (ot, true, dim')
    end
  end.

(** One step of the loop of [_discoverAllEndpoints]. *)
Definition discover_step (rev : revision) (node : environment) (d : device) (n : N) : device :=
  if (n <? 1)%N then d
  else _discoverOneEndpoint rev node d n (MultiChannelNodes node !! n).

(** The effect of one step of the loop on the endpoint it visits. *)
Definition discover_step_local (rev : revision) (node : environment) (n : N)
    (l : local_state) : local_state :=
  if (n <? 1)%N then l
  else
    match MultiChannelNodes node !! n with
    | Some e => discover_local rev node n e l
    | None => l
    end.

(** [c] is the on/off or dim control of one of the endpoints [l]. *)
Definition control_of (l : list N) (c : string) : Prop :=
  Exists (fun m => c = onoffCap m \/ c = dimCap m) l.

(** The endpoint controls the manifest declares. *)
Definition manifest_endpoint_caps (node : environment) : list string :=
  filter (fun id => is_Some (match_endpoint_cap id)) (manifest_capabilities node).

(** A string of decimal digits. *)
Fixpoint all_digits (s : string) : bool :=
  match s with
  | EmptyString => true
  | String c s => is_digit c && all_digits s
  end.

(** The character [t], with which [timeout] starts. *)
Definition letter_t : Ascii.ascii := Ascii.Ascii false false true false true true true false.

(** The character [c] does not occur in [s]. *)
Fixpoint lacks (c : Ascii.ascii) (s : string) : bool :=
  match s with
  | EmptyString => true
  | String a s => negb (Ascii.eqb a c) && lacks c s
  end.

(** ** The orphan sweep *)

(** The bound of the loop of [_cleanupOrphanedEndpoints]: the largest
    endpoint number among the endpoint controls of the manifest. *)
Definition maxManifestEndpoint (node : environment) : N :=
  foldl (fun m capId =>
           match match_endpoint_cap capId with
           | Some endpointNum => if (m <? endpointNum)%N then endpointNum else m
           | None => m
           end) 0%N (manifest_capabilities node).

(** The registry has no entry for [i], or the entry is [null]. *)
Definition orphaned (d : device) (i : N) : Prop :=
  _endpointTypes d !! i = None \/ _endpointTypes d !! i = Some None.

(** The body of the loop of [_cleanupOrphanedEndpoints]. *)
Definition sweep_step (d : device) (i : N) : device :=
  if bool_decide (_endpointTypes d !! i = None \/ _endpointTypes d !! i = Some None)
  then
    if hasCapability d (onoffCap i) || hasCapability d (dimCap i)
    then _removeEndpointCapabilities d i else d
  else d.

(** ** Device removal and the debouncer *)

Module DebouncerOps.
Import Debouncer.

(** What [onDeleted] does to the debounce timer. *)
Definition onDeleted (s : state) : state :=
  match _syncTimeout s with
  | Some h => State None (clearTimeout h (pending s)) (next_handle s) (now s) (synced s)
  | None => s
  end.

Definition is_report (e : event) : bool :=
  match e with RootReport _ => true | _ => false end.

(** The number of root reports in a schedule, and the time that passes
    in it. *)
Definition reports (es : list event) : nat := length (filter (fun e => is_report e = true) es).

Definition elapsed (es : list event) : N :=
  foldr (fun e t => match e with Tick dt => (dt + t)%N | _ => t end) 0%N es.

(** A schedule in which no root report arrives. *)
Definition quiet (es : list event) : Prop := Forall (fun e => is_report e = false) es.

End DebouncerOps.

(** ** Device removal and the command queue *)

Module QueueLedger.
Import CommandQueue.

(** What [onDeleted] of the revision with the queue does to the
    queue: it installs a new empty array and clears the flag. The
    suspended activations are not touched. *)
Definition onDeleted (s : state) : state :=
  State [] false (activations s) (now s) (next_future s)
        (enqueued s) (applications s) (settled s).

(** The number of applications still awaited. *)
Definition awaited (s : state) : nat :=
  match activations s with
  | [AwaitTrigger _] => 1
  | _ => 0
  end.

(** The ledger of promises: the futures are handed out in order, and
    settled in the same order, one per completed application. *)
Definition ledger (s : state) : Prop :=
  future <$> enqueued s = seq 0 (next_future s) /\
  (settled s).*1 = seq 0 (length (settled s)) /\
  length (applications s) = (length (settled s) + awaited s)%nat.

(** No command with one of the futures [D] is waiting, in flight,
    applied or settled, and no new caller will be handed one. *)
Definition forgotten (D : nat -> Prop) (s : state) : Prop :=
  (forall c, c ∈ _commandQueue s -> ~ D (future c)) /\
  (forall c, AwaitTrigger c ∈ activations s -> ~ D (future c)) /\
  (forall a, a ∈ applications s -> ~ D (future (applied_command a))) /\
  (forall f, f ∈ (settled s).*1 -> ~ D f) /\
  (forall f, D f -> (f < next_future s)%nat).

End QueueLedger.

(** ** Labels

    The label resolver works on user text, so a string is modelled
    here as its sequence of UTF-16 code units. The titles set through
    [setCapabilityOptions] are kept in a map of their own. *)

Module Labels.

Abbreviation text := (list N).

(** The code units of a string of ASCII characters. *)
Definition units (s : string) : text :=
  (fun a => N.of_nat (Ascii.nat_of_ascii a)) <$> String.list_ascii_of_string s.

(** The value of a setting: a string, or a value of another type, of
    which only the truthiness matters. *)
Inductive setting :=
| Text (t : text)
| Other (is_truthy : bool).

Abbreviation titles := (gmap string text).

(** The code units [String.prototype.trim] strips: white space and
    line terminators. *)
Definition white_space : list N :=
  [9; 10; 11; 12; 13; 32; 160; 5760; 8192; 8193; 8194; 8195; 8196; 8197; 8198; 8199;
   8200; 8201; 8202; 8232; 8233; 8239; 8287; 12288; 65279]%N.

Definition is_space (u : N) : bool := bool_decide (u ∈ white_space).

Fixpoint trimStart (t : text) : text :=
  match t with
  | u :: t' => if is_space u then trimStart t' else t
  | [] => []
  end.

Definition trim (t : text) : text := reverse (trimStart (reverse (trimStart t))).

(** [.substring(0, 50).replace(/[<>]/g, '')]. *)
Definition sanitize (t : text) : text :=
  filter (fun u => u ≠ 60%N /\ u ≠ 62%N) (take 50 t).

Definition text_truthy (t : text) : bool :=
  match t with [] => false | _ => true end.

Definition labelKey (endpointNum : N) : string := "label_ep" +:+ pretty endpointNum.

(** [(settings[`label_ep${endpointNum}`] || '').trim()]: a [TypeError]
    when the setting is truthy and not a string. *)
Definition trimmed_label (settings : gmap string setting) (endpointNum : N)
    : completion text :=
  match settings !! labelKey endpointNum with
  | Some (Text t) => Returns (trim t)
  | Some (Other true) => Throws "trim is not a function"
  | Some (Other false) | None => Returns (trim [])
  end.

Section Resolver.
(** [manifest.capabilitiesOptions[capabilityId].title.en], where the
    manifest has one. *)
Variable manifest_titles : gmap string text.

Definition _getDefaultLabel (endpointNum : N) (isDimmer : bool) (capabilityId : string)
    : text :=
  let fallback :=
    units (if isDimmer then "Dimmer" else "Switch") ++ units " " ++ units (pretty endpointNum) in
  match manifest_titles !! capabilityId with
  | Some manifestDefault => if text_truthy manifestDefault then manifestDefault else fallback
  | None => fallback
  end.

Definition _setTitle (ts : titles) (cap : string) (title : text) : titles :=
  <[cap := title]> ts.

Definition _applyLabelToEndpoint (d : device) (settings : gmap string setting) (ts : titles)
    (endpointNum : N) : completion titles :=
  match trimmed_label settings endpointNum with
  | Throws e => Throws e
  | Returns trimmed =>
    let customLabel := sanitize trimmed in
    let isDimmer := hasCapability d (dimCap endpointNum) in
    let capId := if isDimmer then dimCap endpointNum else onoffCap endpointNum in
    let defaultLabel := _getDefaultLabel endpointNum isDimmer capId in
    let finalLabel := if text_truthy customLabel then customLabel else defaultLabel in
    let ts :=
      if hasCapability d (onoffCap endpointNum)
      then _setTitle ts (onoffCap endpointNum) finalLabel else ts in
    let ts :=
      if isDimmer && hasCapability d (dimCap endpointNum)
      then _setTitle ts (dimCap endpointNum) finalLabel else ts in
    Returns ts
  end.

(** The loop of [_applyLabelsFromSettings]; on a throw the titles set
    so far stay. *)
Fixpoint apply_labels (d : device) (settings : gmap string setting) (ts : titles)
    (supportedEndpoints : list N) : titles * option string :=
  match supportedEndpoints with
  | [] => (ts, None)
  | endpointNum :: rest =>
    match _applyLabelToEndpoint d settings ts endpointNum with
    | Returns ts => apply_labels d settings ts rest
    | Throws e => (ts, Some e)
    end
  end.

Definition _applyLabelsFromSettings (d : device) (settings : gmap string setting)
    (ts : titles) : titles * option string :=
  apply_labels d settings ts (filter (fun n => known d n = true) (Object_keys (_endpointTypes d))).

Definition _getEndpointLabel (d : device) (settings : gmap string setting) (endpointNum : N)
    : completion text :=
  match trimmed_label settings endpointNum with
  | Throws e => Throws e
  | Returns customLabel =>
    let isDimmer := bool_decide (_endpointTypes d !! endpointNum = Some (Some DIMMER)) in
    let capId := if isDimmer then dimCap endpointNum else onoffCap endpointNum in
    let defaultLabel := _getDefaultLabel endpointNum isDimmer capId in
    Returns (if text_truthy customLabel then customLabel else defaultLabel)
  end.

(** *** The endpoint list offered to the flow editor *)



(** [String.prototype.toLowerCase] is left to the host. *)
Variable toLowerCase : text -> text.



End Resolver.

End Labels.

(** ** Node initialisation *)

(** [onNodeInit] for a node that is present, on the registry, the
    controls and the titles; [stored] is what
    [getStoreValue('endpointTypes')] returns. The listeners and the
    health timer it installs are the events of the transition systems
    above. The host calls are taken to succeed, as everywhere; the
    result carries the error of the label pass, with which
    [onNodeInit] throws before it persists the registry, and is [None]
    when it returns. *)
Definition onNodeInit `{StringSemantics} (rev : revision) (node : environment)
    (manifest_titles : gmap string Labels.text) (settings : gmap string Labels.setting)
    (stored : option registry) (d : device) (ts : Labels.titles)
    : device * Labels.titles * option string :=
  let d := set_endpointTypes d (default ∅ stored) in
  let d := _discoverAllEndpoints rev node d in
  let d := _syncAllEndpointStates d node in
  let d := _cleanupOrphanedEndpoints node d in
  match Labels._applyLabelsFromSettings manifest_titles d settings ts with
  | (ts, None) => (setStoreValue d, ts, None)
  | (ts, Some e) => (d, ts, Some e)
  end.

(** * Properties *)

Example includes_timeout :
  includes "Request timeout after 10s" "timeout" = true /\
  includes "Invalid or missing report during sync" "timeout" = false.
Proof. split; reflexivity. Qed.

(** ** Capability identifiers *)

Lemma onoffCap_inj n m : onoffCap n = onoffCap m -> n = m.
Proof.
  unfold onoffCap. intros Heq. apply String.app_inj in Heq. by apply (inj pretty) in Heq.
Qed.

Lemma dimCap_inj n m : dimCap n = dimCap m -> n = m.
Proof.
  unfold dimCap. intros Heq. apply String.app_inj in Heq. by apply (inj pretty) in Heq.
Qed.

Lemma onoffCap_dimCap n m : onoffCap n ≠ dimCap m.
Proof. unfold onoffCap, dimCap. simpl. discriminate. Qed.

Lemma onoffCap_truthy n : truthy (VStr (onoffCap n)) = true.
Proof. reflexivity. Qed.

Lemma dimCap_truthy n : truthy (VStr (dimCap n)) = true.
Proof. reflexivity. Qed.

(** ** Host operations and capability helpers *)

Lemma hasCapability_true d c : hasCapability d c = true <-> c ∈ capabilities d.
Proof. unfold hasCapability. by rewrite bool_decide_eq_true. Qed.

Lemma hasCapability_false d c : hasCapability d c = false <-> c ∉ capabilities d.
Proof. unfold hasCapability. by rewrite bool_decide_eq_false. Qed.

Lemma ensure_capabilities d c :
  capabilities (_ensureCapability d c) = {[c]} ∪ capabilities d.
Proof.
  unfold _ensureCapability, hasCapability. case_bool_decide; simpl; [set_solver | done].
Qed.

Lemma removeIfPresent_capabilities d c :
  capabilities (_removeIfPresent d c) = capabilities d ∖ {[c]}.
Proof.
  unfold _removeIfPresent, hasCapability. case_bool_decide; simpl; [done | set_solver].
Qed.

Lemma removeEndpoint_capabilities d n :
  capabilities (_removeEndpointCapabilities d n) = capabilities d ∖ {[dimCap n; onoffCap n]}.
Proof.
  unfold _removeEndpointCapabilities. rewrite !removeIfPresent_capabilities. set_solver.
Qed.

Lemma ensure_same d c :
  same_registry d (_ensureCapability d c) /\ same_logs d (_ensureCapability d c) /\
  capabilityValues (_ensureCapability d c) = capabilityValues d.
Proof. unfold _ensureCapability. by destruct (negb _). Qed.

Lemma removeIfPresent_same d c :
  same_registry d (_removeIfPresent d c) /\ same_logs d (_removeIfPresent d c).
Proof. unfold _removeIfPresent. by destruct (hasCapability _ _). Qed.

Lemma removeEndpoint_same d n :
  same_registry d (_removeEndpointCapabilities d n) /\
  same_logs d (_removeEndpointCapabilities d n).
Proof.
  unfold _removeEndpointCapabilities, _removeIfPresent.
  by repeat destruct (hasCapability _ _).
Qed.

(** ** Applying values: the change gate *)

Lemma _setOnOff_spec d cap value endpointNum :
  truthy (VStr cap) = true -> hasCapability d cap = true ->
  _setOnOff d cap value endpointNum =
  Device (_endpointTypes d) (capabilities d)
         (<[cap := VBool (truthy value)]> (capabilityValues d))
         (storeWrites d) (valueWrites d ++ [(cap, VBool (truthy value))])
         (triggers d ++
          if strict_eqb (getCapabilityValue d cap) (VBool (truthy value)) then []
          else onoff_transition endpointNum (truthy value)).
Proof.
  intros Hcap Hhas. unfold _setOnOff. rewrite Hcap, Hhas. simpl.
  destruct (strict_eqb _ _).
  - unfold setCapabilityValue. simpl. by rewrite app_nil_r.
  - unfold onoff_transition, _triggerEndpoint, setCapabilityValue.
    destruct (truthy value); simpl; by rewrite <- app_assoc.
Qed.

Lemma _setDim_spec d cap value01 endpointNum :
  truthy (VStr cap) = true -> hasCapability d cap = true -> (1 <= endpointNum)%N ->
  _setDim d cap value01 endpointNum =
  Device (_endpointTypes d) (capabilities d)
         (<[cap := VNum (normalize value01)]> (capabilityValues d))
         (storeWrites d) (valueWrites d ++ [(cap, VNum (normalize value01))])
         (triggers d ++
          if strict_eqb (getCapabilityValue d cap) (VNum (normalize value01)) then []
          else [endpoint_dim_changed endpointNum (normalize value01)]).
Proof.
  intros Hcap Hhas Hn. unfold _setDim. rewrite Hcap, Hhas. simpl.
  destruct (N.ltb_spec endpointNum 1) as [Hlt | _]; [lia |].
  fold (normalize value01).
  destruct (strict_eqb _ _); unfold _triggerEndpoint, setCapabilityValue; simpl;
    [by rewrite app_nil_r | done].
Qed.

(** Without the capability, or for an endpoint number below 1 in
    [_setDim], nothing is written and nothing is fired. *)
Lemma _setOnOff_absent d cap value endpointNum :
  hasCapability d cap = false -> _setOnOff d cap value endpointNum = d.
Proof. intros Hhas. unfold _setOnOff. rewrite Hhas. by destruct (negb _). Qed.

Lemma _setDim_skip d cap value01 endpointNum :
  hasCapability d cap = false \/ (endpointNum < 1)%N -> _setDim d cap value01 endpointNum = d.
Proof.
  intros Hskip. unfold _setDim. destruct (negb (truthy _)); [done |].
  destruct (N.ltb_spec endpointNum 1); [done |].
  destruct Hskip as [-> | ?]; [done | lia].
Qed.

Lemma normalize_range value01 :
  exists q, normalize value01 = Fin q /\ (0 <= q <= 1)%Q.
Proof.
  unfold normalize.
  assert (Hcases : forall p : Q, exists q,
    Math_max (Fin 0) (Math_min (Fin 1) (Fin p)) = Fin q /\ (0 <= q <= 1)%Q).
  { intros p. eexists. split; [reflexivity |]. split.
    - apply Q.le_max_l.
    - apply Q.max_lub; [done | apply Q.le_min_l]. }
  destruct value01 as [| | p |]; simpl.
  - apply (Hcases 0%Q).
  - exists 0%Q. split; [reflexivity | done].
  - destruct (negb _); apply Hcases.
  - exists 1%Q. split; [reflexivity | done].
Qed.

Lemma normalize_self_equal value01 :
  strict_eqb (VNum (normalize value01)) (VNum (normalize value01)) = true.
Proof.
  destruct (normalize_range value01) as (q & -> & _). simpl. apply Qeq_bool_iff. reflexivity.
Qed.

Lemma ensure_present d c : hasCapability d c = true -> _ensureCapability d c = d.
Proof. intros Hhas. unfold _ensureCapability. by rewrite Hhas. Qed.

Lemma removeIfPresent_absent d c : hasCapability d c = false -> _removeIfPresent d c = d.
Proof. intros Hhas. unfold _removeIfPresent. by rewrite Hhas. Qed.

Lemma hasCapability_ensure d c c' :
  hasCapability (_ensureCapability d c) c' = bool_decide (c' = c) || hasCapability d c'.
Proof.
  unfold hasCapability at 1. rewrite ensure_capabilities. unfold hasCapability.
  repeat case_bool_decide; simpl; try done; set_solver.
Qed.

Lemma hasCapability_removeIfPresent d c c' :
  hasCapability (_removeIfPresent d c) c' = negb (bool_decide (c' = c)) && hasCapability d c'.
Proof.
  unfold hasCapability at 1. rewrite removeIfPresent_capabilities. unfold hasCapability.
  repeat case_bool_decide; simpl; try done; set_solver.
Qed.

Lemma hasCapability_removeEndpoint d n c :
  hasCapability (_removeEndpointCapabilities d n) c =
  negb (bool_decide (c = dimCap n)) && negb (bool_decide (c = onoffCap n)) && hasCapability d c.
Proof.
  unfold _removeEndpointCapabilities. rewrite !hasCapability_removeIfPresent.
  by destruct (bool_decide (c = dimCap n)), (bool_decide (c = onoffCap n)).
Qed.

(** ** The type-specific read *)

Section SyncAttempt.
Context `{StringSemantics}.

(** Whether the read fails and with which message depends on the
    endpoint's command classes only. *)
Lemma sync_attempt_outcome d d' n t cc :
  fst (sync_attempt d n t cc) = fst (sync_attempt d' n t cc).
Proof.
  unfold sync_attempt, _syncDimmerState, _syncSwitchState.
  destruct t; repeat (case_match; simplify_eq/=; try done).
Qed.

Lemma prepared_has_onoff d n t : hasCapability (prepared d n t) (onoffCap n) = true.
Proof.
  destruct t; simpl; rewrite !hasCapability_ensure;
    rewrite ?(bool_decide_eq_true_2 (onoffCap n = onoffCap n)) by done;
    by rewrite ?orb_true_r.
Qed.

Lemma prepared_has_dim d n t :
  hasCapability (prepared d n t) (dimCap n) = bool_decide (t = DIMMER).
Proof.
  destruct t; simpl; rewrite !hasCapability_ensure, ?hasCapability_removeIfPresent.
  - by rewrite (bool_decide_eq_true_2 (dimCap n = dimCap n)).
  - rewrite (bool_decide_eq_false_2 (dimCap n = onoffCap n)); [| by intros ?%symmetry%onoffCap_dimCap].
    by rewrite (bool_decide_eq_true_2 (dimCap n = dimCap n)).
Qed.

Lemma prepared_other d n t c :
  c ≠ onoffCap n -> c ≠ dimCap n -> hasCapability (prepared d n t) c = hasCapability d c.
Proof.
  intros H1 H2.
  destruct t; simpl; rewrite !hasCapability_ensure, ?hasCapability_removeIfPresent;
    by rewrite ?(bool_decide_eq_false_2 (c = onoffCap n)), ?(bool_decide_eq_false_2 (c = dimCap n)).
Qed.

Lemma prepared_same d n t :
  same_registry d (prepared d n t) /\ same_logs d (prepared d n t).
Proof.
  destruct t; simpl; unfold _ensureCapability, _removeIfPresent;
    by repeat destruct (hasCapability _ _).
Qed.

Lemma prepared_idem d n t :
  hasCapability d (onoffCap n) = true ->
  hasCapability d (dimCap n) = bool_decide (t = DIMMER) ->
  prepared d n t = d.
Proof.
  intros Hon Hdim. destruct t; simpl.
  - rewrite (ensure_present d) by done. by rewrite ensure_present.
  - rewrite (removeIfPresent_absent d) by done. by rewrite ensure_present.
Qed.

(** The read either fails and leaves [prepared d n t], or applies the
    values it derived to it. *)
Lemma sync_attempt_cases d n t cc :
  (exists msg, sync_attempt d n t cc = (Some msg, prepared d n t)) \/
  (exists d', sync_attempt d n t cc = (None, d') /\
     match t with
     | DIMMER => exists x,
         d' = _setDim (_setOnOff (prepared d n t) (onoffCap n) (VBool (num_gt x (Fin 0))) n)
                      (dimCap n) (num_div_fin x Z_WAVE_MAX_DIM_VALUE) n
     | SWITCH => exists b, d' = _setOnOff (prepared d n t) (onoffCap n) (VBool b) n
     end).
Proof.
  unfold sync_attempt, _syncDimmerState, _syncSwitchState.
  destruct t; simpl; repeat (case_match; simplify_eq/=); eauto.
Qed.
End SyncAttempt.

(** ** One endpoint's synchronisation *)

Lemma _setOnOff_frame d cap value n :
  same_registry d (_setOnOff d cap value n) /\
  capabilities (_setOnOff d cap value n) = capabilities d.
Proof.
  unfold _setOnOff, same_registry.
  repeat (case_match; simpl; try done).
Qed.

Lemma _setDim_frame d cap value01 n :
  same_registry d (_setDim d cap value01 n) /\
  capabilities (_setDim d cap value01 n) = capabilities d.
Proof.
  unfold _setDim, same_registry.
  repeat (case_match; simpl; try done).
Qed.

Lemma hasCapability_ext d d' c :
  capabilities d' = capabilities d -> hasCapability d' c = hasCapability d c.
Proof. unfold hasCapability. by intros ->. Qed.

Section SyncOne.
Context `{StringSemantics}.

Lemma sync_attempt_frame d n t cc :
  same_registry d (snd (sync_attempt d n t cc)) /\
  capabilities (snd (sync_attempt d n t cc)) = capabilities (prepared d n t).
Proof.
  pose proof (prepared_same d n t) as [[Hty Hst] _].
  destruct (sync_attempt_cases d n t cc) as [[msg ->] | (d' & -> & Hd')];
    cbn [fst snd]; [done |].
  destruct t.
  - destruct Hd' as [x ->].
    set (d1 := _setOnOff _ _ _ _).
    pose proof (_setDim_frame d1 (dimCap n) (num_div_fin x Z_WAVE_MAX_DIM_VALUE) n)
      as [[Hty2 Hst2] Hcap2].
    pose proof (_setOnOff_frame (prepared d n DIMMER) (onoffCap n)
      (VBool (num_gt x (Fin 0))) n) as [[Hty1 Hst1] Hcap1].
    fold d1 in Hty1, Hst1, Hcap1. unfold same_registry. split_and!; congruence.
  - destruct Hd' as [b ->].
    pose proof (_setOnOff_frame (prepared d n SWITCH) (onoffCap n) (VBool b) n)
      as [[Hty1 Hst1] Hcap1].
    unfold same_registry. split_and!; congruence.
Qed.

Lemma sync_attempt_failure d n t cc msg :
  fst (sync_attempt d n t cc) = Some msg -> snd (sync_attempt d n t cc) = prepared d n t.
Proof.
  destruct (sync_attempt_cases d n t cc) as [[msg' ->] | (d' & -> & _)]; simpl; done.
Qed.

Lemma syncOne_classified d n ep t :
  _endpointTypes d !! n = Some (Some t) ->
  _syncOneEndpointState d n (Some ep) =
  match fst (sync_attempt d n t (CommandClass_or_empty ep)) with
  | None => snd (sync_attempt d n t (CommandClass_or_empty ep))
  | Some errorMsg =>
    if includes errorMsg "timeout" then prepared d n t
    else demote (prepared d n t) n
  end.
Proof.
  intros Hty. unfold _syncOneEndpointState. rewrite Hty.
  pose proof (sync_attempt_failure d n t (CommandClass_or_empty ep)) as Hfail.
  destruct (sync_attempt d n t (CommandClass_or_empty ep)) as [[msg |] d']; simpl in *; [| done].
  rewrite (Hfail msg eq_refl). done.
Qed.

Lemma syncOne_unclassified d n ep :
  _endpointTypes d !! n = None \/ _endpointTypes d !! n = Some None ->
  _syncOneEndpointState d n (Some ep) = d.
Proof. intros [Hty | Hty]; unfold _syncOneEndpointState; by rewrite Hty. Qed.

Lemma demote_spec d n :
  _endpointTypes (demote d n) = <[n := None]> (_endpointTypes d) /\
  capabilities (demote d n) = capabilities d ∖ {[dimCap n; onoffCap n]} /\
  storeWrites (demote d n) = storeWrites d ++ [<[n := None]> (_endpointTypes d)] /\
  same_logs d (demote d n).
Proof.
  unfold demote.
  set (d1 := set_endpointTypes d _).
  destruct (removeEndpoint_same d1 n) as [[Hty Hst] Hlogs].
  unfold setStoreValue; simpl. rewrite Hty, Hst, removeEndpoint_capabilities.
  repeat split; apply Hlogs.
Qed.
End SyncOne.

(** ** Timeouts and demotion *)

Section FailurePolicy.
Context `{StringSemantics}.

(** C3. A timeout-class error during [_syncOneEndpointState] leaves
    the whole registry, and what has been persisted of it, as it was:
    the endpoint keeps its type, the controls of that type are present
    afterwards, and nothing is written to the store. *)
Theorem C3_timeout_keeps_classification d n ep t errorMsg :
  _endpointTypes d !! n = Some (Some t) ->
  fst (sync_attempt d n t (CommandClass_or_empty ep)) = Some errorMsg ->
  includes errorMsg "timeout" = true ->
  let d' := _syncOneEndpointState d n (Some ep) in
  _endpointTypes d' = _endpointTypes d /\
  _endpointTypes d' !! n = Some (Some t) /\
  storeWrites d' = storeWrites d /\
  projects d' n t = true /\
  (forall c, c ≠ dimCap n -> hasCapability d c = true -> hasCapability d' c = true).
Proof.
  intros Hty Hfail Htimeout d'. subst d'.
  rewrite (syncOne_classified d n ep t Hty), Hfail, Htimeout.
  destruct (prepared_same d n t) as [[Hty' Hst'] _].
  split_and!; try done.
  - by rewrite Hty'.
  - unfold projects. rewrite prepared_has_onoff, prepared_has_dim.
    by destruct (bool_decide _).
  - intros c Hc Hhas.
    destruct (decide (c = onoffCap n)) as [-> | Hc']; [apply prepared_has_onoff |].
    by rewrite prepared_other.
Qed.
(** What one endpoint's synchronisation can change: the type of that
    endpoint only, which it can only set to [null], and, as far as it
    adds controls, only controls of that endpoint while it is
    classified. *)
Lemma syncOne_effect d m ep :
  let d' := _syncOneEndpointState d m ep in
  (forall k, k ≠ m -> _endpointTypes d' !! k = _endpointTypes d !! k) /\
  (_endpointTypes d' !! m = _endpointTypes d !! m \/
   (known d m = true /\ _endpointTypes d' !! m = Some None)) /\
  (forall c, hasCapability d' c = true ->
     hasCapability d c = true \/ (known d m = true /\ (c = onoffCap m \/ c = dimCap m))).
Proof.
  intros d'. subst d'. destruct ep as [ep |].
  - destruct (_endpointTypes d !! m) as [[t |] |] eqn:Hty.
    + assert (Hknown : known d m = true) by (unfold known; by rewrite Hty).
      assert (Hprep : forall c, hasCapability (prepared d m t) c = true ->
                hasCapability d c = true \/ (c = onoffCap m \/ c = dimCap m)).
      { intros c Hc. destruct (decide (c = onoffCap m)); [by auto |].
        destruct (decide (c = dimCap m)); [by auto |].
        left. by rewrite <- (prepared_other d m t c). }
      destruct (prepared_same d m t) as [[Hpty _] _].
      rewrite (syncOne_classified d m ep t Hty).
      destruct (sync_attempt_frame d m t (CommandClass_or_empty ep)) as [[Hfty _] Hfcap].
      destruct (fst (sync_attempt d m t (CommandClass_or_empty ep))) as [msg |].
      * destruct (includes msg "timeout").
        -- rewrite Hpty, Hty. split_and!; [done | by left |].
           intros c Hc. destruct (Hprep c Hc); auto.
        -- destruct (demote_spec (prepared d m t) m) as (Hdty & Hdcap & _).
           rewrite Hdty, Hpty. split_and!.
           ++ intros k Hk. by rewrite lookup_insert_ne.
           ++ right. by rewrite lookup_insert_eq.
           ++ intros c Hc. apply hasCapability_true in Hc. rewrite Hdcap in Hc.
              apply elem_of_difference in Hc as [Hc _].
              apply hasCapability_true in Hc. destruct (Hprep c Hc); auto.
      * rewrite Hfty, Hty. split_and!; [done | by left |].
        intros c Hc. rewrite (hasCapability_ext _ _ c Hfcap) in Hc.
        destruct (Hprep c Hc); auto.
    + rewrite syncOne_unclassified by (rewrite Hty; auto). rewrite Hty. auto.
    + rewrite syncOne_unclassified by (rewrite Hty; auto). rewrite Hty. auto.
  - simpl. destruct (removeEndpoint_same d m) as [[Hty _] _]. rewrite Hty.
    split_and!; [done | by left |].
    intros c Hc. rewrite hasCapability_removeEndpoint in Hc.
    left. by apply andb_true_iff in Hc as [_ Hc].
Qed.

Lemma known_demoted d n : demoted d n -> known d n = false.
Proof. intros [Hty _]. unfold known. by rewrite Hty. Qed.

Lemma syncOne_keeps_demoted d n m ep :
  demoted d n -> demoted (_syncOneEndpointState d m ep) n.
Proof.
  intros Hdem. pose proof (known_demoted d n Hdem) as Hunknown.
  destruct Hdem as [Hty [Hon Hdim]].
  destruct (syncOne_effect d m ep) as (Hother & Hsame & Hcaps).
  assert (Hcap : forall c, c = onoffCap n \/ c = dimCap n ->
            hasCapability (_syncOneEndpointState d m ep) c = false).
  { intros c Hc. apply not_true_is_false. intros Hhas.
    destruct (Hcaps c Hhas) as [Hold | [Hknown Hm]].
    - destruct Hc as [-> | ->]; congruence.
    - assert (n = m) as ->; [| congruence].
      destruct Hc as [-> | ->], Hm as [Hm | Hm];
        first [by apply onoffCap_inj | by apply dimCap_inj
              | by apply onoffCap_dimCap in Hm
              | by symmetry in Hm; apply onoffCap_dimCap in Hm]. }
  split; [| split; apply Hcap; auto].
  destruct (decide (n = m)) as [<- | Hne].
  - destruct Hsame as [-> | [Hknown _]]; [done | congruence].
  - by rewrite Hother.
Qed.

Lemma foldl_invariant {A B} (P : A -> Prop) (f : A -> B -> A) (l : list B) (a : A) :
  (forall a b, P a -> P (f a b)) -> P a -> P (foldl f a l).
Proof. intros Hstep. revert a. induction l as [| b l IH]; simpl; auto. Qed.

Lemma syncAll_keeps_demoted d n node :
  demoted d n -> demoted (_syncAllEndpointStates d node) n.
Proof.
  intros Hdem. unfold _syncAllEndpointStates.
  apply (foldl_invariant (fun d => demoted d n)); [| done].
  intros. by apply syncOne_keeps_demoted.
Qed.

Lemma syncByType_keeps_demoted d n node t :
  demoted d n -> demoted (_syncEndpointsByType d node t) n.
Proof.
  intros Hdem. unfold _syncEndpointsByType.
  apply (foldl_invariant (fun d => demoted d n)); [| done].
  intros. by apply syncOne_keeps_demoted.
Qed.

Lemma removeEndpoint_keeps_demoted d n m :
  demoted d n -> demoted (_removeEndpointCapabilities d m) n.
Proof.
  intros (Hty & Hon & Hdim). destruct (removeEndpoint_same d m) as [[Hty' _] _].
  unfold demoted, unprojected. rewrite Hty', !hasCapability_removeEndpoint, Hon, Hdim.
  by rewrite !andb_false_r.
Qed.

Lemma cleanupOrphans_keeps_demoted d n node :
  demoted d n -> demoted (_cleanupOrphanedEndpoints node d) n.
Proof.
  intros Hdem. unfold _cleanupOrphanedEndpoints. destruct (_ =? _)%N; [done |].
  apply (foldl_invariant (fun d => demoted d n)); [| done].
  intros d' i Hdem'.
  repeat case_match; try done. by apply removeEndpoint_keeps_demoted.
Qed.

Lemma discoveredCount_zero d : discoveredCount d = 0%nat <-> _endpointTypes d = ∅.
Proof.
  unfold discoveredCount, Object_keys. rewrite merge_sort_Permutation.
  rewrite <- dom_empty_iff_L. split.
  - intros Hlen. apply nil_length_inv, elements_empty_iff in Hlen.
    by apply leibniz_equiv.
  - intros ->. by rewrite elements_empty.
Qed.

Lemma healthCheck_keeps_demoted d n rev node :
  demoted d n -> _checkDeviceHealth rev node d = Returns d.
Proof.
  intros [Hty _]. unfold _checkDeviceHealth.
  destruct (Nat.eqb_spec (discoveredCount d) 0) as [Hzero | _]; [| done].
  apply discoveredCount_zero in Hzero. by rewrite Hzero, lookup_empty in Hty.
Qed.

Lemma perform_keeps_demoted d n op : demoted d n -> demoted (perform d op) n.
Proof.
  intros Hdem. destruct op; simpl.
  - by apply syncOne_keeps_demoted.
  - by apply syncAll_keeps_demoted.
  - by apply syncByType_keeps_demoted.
  - by apply cleanupOrphans_keeps_demoted.
  - by rewrite (healthCheck_keeps_demoted d n).
Qed.

Lemma non_timeout_failure d n ep t errorMsg :
  _endpointTypes d !! n = Some (Some t) ->
  fst (sync_attempt d n t (CommandClass_or_empty ep)) = Some errorMsg ->
  includes errorMsg "timeout" = false ->
  _syncOneEndpointState d n (Some ep) = demote (prepared d n t) n /\
  demoted (_syncOneEndpointState d n (Some ep)) n.
Proof.
  intros Hty Hfail Htimeout.
  assert (Hd' : _syncOneEndpointState d n (Some ep) = demote (prepared d n t) n).
  { by rewrite (syncOne_classified d n ep t Hty), Hfail, Htimeout. }
  split; [done |]. rewrite Hd'.
  destruct (demote_spec (prepared d n t) n) as (Hdty & Hdcap & _).
  unfold demoted, unprojected. rewrite Hdty, lookup_insert_eq. split; [done |].
  split; apply hasCapability_false; rewrite Hdcap; set_solver.
Qed.

End FailurePolicy.

(** ** The registry/control invariant *)

(** Distinctness of two capability ids of distinct endpoints or kinds. *)
Ltac cap_neq :=
  let Hx := fresh in
  first [ apply onoffCap_dimCap
        | intros Hx; symmetry in Hx; by apply onoffCap_dimCap in Hx
        | intros Hx; apply onoffCap_inj in Hx; congruence
        | intros Hx; apply dimCap_inj in Hx; congruence ].

Section Invariant.
Context `{StringSemantics}.

Lemma syncOne_other_capabilities d n ep c :
  c ≠ onoffCap n -> c ≠ dimCap n ->
  hasCapability (_syncOneEndpointState d n ep) c = hasCapability d c.
Proof.
  intros Hon Hdim.
  assert (Hrem : forall d0, hasCapability (_removeEndpointCapabilities d0 n) c
                            = hasCapability d0 c).
  { intros d0. rewrite hasCapability_removeEndpoint.
    by rewrite (bool_decide_eq_false_2 (c = dimCap n)),
               (bool_decide_eq_false_2 (c = onoffCap n)). }
  destruct ep as [ep |]; [| apply Hrem].
  destruct (_endpointTypes d !! n) as [[t |] |] eqn:Hty;
    [| by rewrite syncOne_unclassified by auto ..].
  rewrite (syncOne_classified d n ep t Hty).
  destruct (sync_attempt_frame d n t (CommandClass_or_empty ep)) as [_ Hfcap].
  destruct (fst (sync_attempt d n t (CommandClass_or_empty ep))) as [msg |].
  - destruct (includes msg "timeout"); [by apply prepared_other |].
    destruct (demote_spec (prepared d n t) n) as (_ & Hdcap & _).
    rewrite <- (prepared_other d n t c) by done.
    unfold hasCapability. rewrite Hdcap. apply bool_decide_ext. set_solver.
  - rewrite (hasCapability_ext _ _ c Hfcap). by apply prepared_other.
Qed.

Lemma syncOne_establishes d n ep : consistent_at (_syncOneEndpointState d n (Some ep)) n.
Proof.
  intros t' Hty'.
  destruct (_endpointTypes d !! n) as [[t |] |] eqn:Hty;
    [| rewrite syncOne_unclassified in Hty' by auto; congruence ..].
  rewrite (syncOne_classified d n ep t Hty) in Hty' |- *.
  destruct (prepared_same d n t) as [[Hpty _] _].
  destruct (sync_attempt_frame d n t (CommandClass_or_empty ep)) as [[Hfty _] Hfcap].
  assert (Hproj : forall d0, capabilities d0 = capabilities (prepared d n t) ->
            projects d0 n t = true).
  { intros d0 Hcap. unfold projects. rewrite !(hasCapability_ext _ _ _ Hcap).
    rewrite prepared_has_onoff, prepared_has_dim. by destruct (bool_decide _). }
  destruct (fst (sync_attempt d n t (CommandClass_or_empty ep))) as [msg |].
  - destruct (includes msg "timeout").
    + rewrite Hpty, Hty in Hty'. simplify_eq. by apply Hproj.
    + destruct (demote_spec (prepared d n t) n) as (Hdty & _).
      by rewrite Hdty, lookup_insert_eq in Hty'.
  - rewrite Hfty, Hty in Hty'. simplify_eq. by apply Hproj.
Qed.

Lemma syncOne_preserves_at d n ep m :
  consistent_at d m -> consistent_at (_syncOneEndpointState d n (Some ep)) m.
Proof.
  intros Hm. destruct (decide (m = n)) as [-> | Hne]; [apply syncOne_establishes |].
  intros t Hty. destruct (syncOne_effect d n (Some ep)) as (Hother & _).
  rewrite Hother in Hty by done. specialize (Hm t Hty).
  unfold projects in *. by rewrite !syncOne_other_capabilities by cap_neq.
Qed.

Lemma demote_preserves_at d n m : consistent_at d m -> consistent_at (demote d n) m.
Proof.
  intros Hm t Hty. destruct (demote_spec d n) as (Hdty & Hdcap & _).
  rewrite Hdty in Hty. destruct (decide (n = m)) as [-> | Hne].
  - by rewrite lookup_insert_eq in Hty.
  - rewrite lookup_insert_ne in Hty by done. specialize (Hm t Hty).
    unfold projects, hasCapability in *. rewrite Hdcap.
    assert (onoffCap m ∉ ({[dimCap n; onoffCap n]} : gset string)).
    { intros [Heq | Heq]%elem_of_union; apply elem_of_singleton in Heq; revert Heq; cap_neq. }
    assert (dimCap m ∉ ({[dimCap n; onoffCap n]} : gset string)).
    { intros [Heq | Heq]%elem_of_union; apply elem_of_singleton in Heq; revert Heq; cap_neq. }
    repeat case_bool_decide; simpl in *; try done; set_solver.
Qed.

Lemma syncAll_fold node (l : list N) d :
  (forall n, n ∈ l -> is_Some (MultiChannelNodes node !! n)) ->
  let d' := foldl (fun d id => _syncOneEndpointState d id (MultiChannelNodes node !! id)) d l in
  (forall m, consistent_at d m -> consistent_at d' m) /\
  (forall n, n ∈ l -> consistent_at d' n).
Proof.
  revert d. induction l as [| n l IH]; intros d Hnodes; simpl.
  - split; [done | by intros n ?%elem_of_nil].
  - destruct (Hnodes n) as [ep Hep]; [left |]. rewrite Hep.
    destruct (IH (_syncOneEndpointState d n (Some ep))) as [Hkeep Hnew].
    { intros k Hk. apply Hnodes. by right. }
    split.
    + intros m Hm. by apply Hkeep, syncOne_preserves_at.
    + intros k [-> | Hk]%elem_of_cons; [| by apply Hnew].
      apply Hkeep, syncOne_establishes.
Qed.

Lemma elem_of_Object_keys {A} (m : gmap N A) n : n ∈ Object_keys m <-> is_Some (m !! n).
Proof.
  unfold Object_keys. by rewrite merge_sort_Permutation, elem_of_elements, elem_of_dom.
Qed.

(** C9, as the code has it. The invariant is established by
    synchronisation rather than preserved by every operation:
    synchronising an endpoint that has a descriptor leaves that id
    with exactly the capability set of its type whenever its type is
    still non-null (on/off alone for a switch, any dim control
    removed; on/off and dim for a dimmer) and keeps the invariant at
    every other id; demotion keeps it; and a full pass over a topology
    that has a descriptor for every registry id establishes it for
    the whole registry. *)
Theorem C9_invariant_established_by_sync :
  (forall d n ep,
      consistent_at (_syncOneEndpointState d n (Some ep)) n /\
      forall m, consistent_at d m -> consistent_at (_syncOneEndpointState d n (Some ep)) m) /\
  (forall d n m, consistent_at d m -> consistent_at (demote d n) m) /\
  (forall d node,
      (forall n, is_Some (_endpointTypes d !! n) -> is_Some (MultiChannelNodes node !! n)) ->
      consistent (_syncAllEndpointStates d node)).
Proof.
  split_and!.
  - intros d n ep. split; [apply syncOne_establishes |].
    intros m. apply syncOne_preserves_at.
  - apply demote_preserves_at.
  - intros d node Hnodes m. unfold _syncAllEndpointStates.
    destruct (syncAll_fold node (Object_keys (_endpointTypes d)) d) as [Hkeep Hnew].
    { intros n Hn. by apply Hnodes, elem_of_Object_keys. }
    destruct (_endpointTypes d !! m) as [ot |] eqn:Hty.
    + apply Hnew, elem_of_Object_keys. by rewrite Hty.
    + apply Hkeep. intros t Ht. congruence.
Qed.
End Invariant.

(** C9 as stated fails. Discovery commits the type of a newly found
    switch while a dim control projected earlier is still present, and
    synchronising an endpoint that has vanished from the topology
    removes its controls but keeps its type. *)
Lemma C9_counterexample :
  let found := Device ∅ {[onoffCap 1; dimCap 1]} ∅ [] [] [] in
  let node := node_of {[1%N := binary_endpoint (Some (report_of "Value" (VNum (Fin 1))))]} [] in
  let vanished := Device {[4%N := Some DIMMER]} {[onoffCap 4; dimCap 4]} ∅ [] [] [] in
  ~ preserves_invariant (_discoverAllEndpoints device_js node) /\
  ~ preserves_invariant (_discoverAllEndpoints queue_revision node) /\
  ~ preserves_invariant
      (fun d => _syncOneEndpointState (H := no_numeric_strings) d 4 None).
Proof.
  intros found node vanished.
  assert (Hfound : consistent found).
  { intros n t Hty. simpl in Hty. by rewrite lookup_empty in Hty. }
  assert (Hvanished : consistent vanished).
  { intros n t Hty. simpl in Hty. apply lookup_singleton_Some in Hty as [<- [= <-]].
    by vm_compute. }
  split_and!; intros Hpres.
  - specialize (Hpres found Hfound 1%N SWITCH). by vm_compute in Hpres; specialize (Hpres eq_refl).
  - specialize (Hpres found Hfound 1%N SWITCH). by vm_compute in Hpres; specialize (Hpres eq_refl).
  - specialize (Hpres vanished Hvanished 4%N DIMMER). by vm_compute in Hpres; specialize (Hpres eq_refl).
Qed.

(** ** Change gating *)

Lemma getCapabilityValue_insert d cap v c (caps : gset string) sw vw tr ty :
  getCapabilityValue (Device ty caps (<[cap := v]> (capabilityValues d)) sw vw tr) c =
  if decide (cap = c) then v else getCapabilityValue d c.
Proof.
  unfold getCapabilityValue. simpl. rewrite lookup_insert. by case_decide.
Qed.

(** Writing the value a control already holds fires nothing and leaves
    every stored value as it was. *)
Lemma _setOnOff_unchanged d cap b n :
  getCapabilityValue d cap = VBool b ->
  let d' := _setOnOff d cap (VBool b) n in
  triggers d' = triggers d /\ capabilities d' = capabilities d /\
  forall c, getCapabilityValue d' c = getCapabilityValue d c.
Proof.
  intros Hold d'. subst d'.
  destruct (truthy (VStr cap)) eqn:Hcap; [| by unfold _setOnOff; rewrite Hcap].
  destruct (hasCapability d cap) eqn:Hhas; [| by rewrite _setOnOff_absent].
  rewrite _setOnOff_spec by done. simpl. rewrite Hold. simpl.
  rewrite eqb_reflx, app_nil_r. split_and!; try done.
  intros c. rewrite getCapabilityValue_insert. case_decide; congruence.
Qed.

Lemma _setDim_unchanged d cap x n :
  getCapabilityValue d cap = VNum (normalize x) \/ (n < 1)%N ->
  let d' := _setDim d cap x n in
  triggers d' = triggers d /\ capabilities d' = capabilities d /\
  forall c, getCapabilityValue d' c = getCapabilityValue d c.
Proof.
  intros Hold d'. subst d'.
  destruct (truthy (VStr cap)) eqn:Hcap; [| by unfold _setDim; rewrite Hcap].
  destruct (hasCapability d cap) eqn:Hhas; [| by rewrite _setDim_skip by auto].
  destruct (N.lt_ge_cases n 1) as [Hlt | Hge]; [by rewrite _setDim_skip by auto |].
  destruct Hold as [Hold | ?]; [| lia].
  rewrite _setDim_spec by done. simpl. rewrite Hold, normalize_self_equal, app_nil_r.
  split_and!; try done.
  intros c. rewrite getCapabilityValue_insert. case_decide; congruence.
Qed.

(** After a write, the control holds the written value; the other
    controls are untouched. *)
Lemma _setOnOff_stored d cap value n :
  truthy (VStr cap) = true -> hasCapability d cap = true ->
  forall c, getCapabilityValue (_setOnOff d cap value n) c =
            if decide (cap = c) then VBool (truthy value) else getCapabilityValue d c.
Proof.
  intros Hcap Hhas c. rewrite _setOnOff_spec by done. apply getCapabilityValue_insert.
Qed.

Lemma _setDim_stored d cap x n :
  truthy (VStr cap) = true -> hasCapability d cap = true -> (1 <= n)%N ->
  forall c, getCapabilityValue (_setDim d cap x n) c =
            if decide (cap = c) then VNum (normalize x) else getCapabilityValue d c.
Proof.
  intros Hcap Hhas Hn c. rewrite _setDim_spec by done. apply getCapabilityValue_insert.
Qed.

Section ChangeGate.
Context `{StringSemantics}.

(** The read of the source is a pure reading followed by the
    application of its value. *)
Lemma sync_attempt_read d n t cc :
  sync_attempt d n t cc =
  match read_endpoint t cc with
  | Failed msg => (Some msg, prepared d n t)
  | r => (None, apply_reading (prepared d n t) n r)
  end.
Proof.
  unfold sync_attempt, read_endpoint, _syncDimmerState, _syncSwitchState.
  destruct t; simpl; repeat (case_match; simplify_eq/=; try done).
Qed.

(** Applying a reading to a state that already holds it fires no
    trigger card. *)
Lemma apply_reading_twice d n t r :
  projects d n t = true ->
  match r, t with DimmerLevel _, DIMMER | SwitchState _, SWITCH | Failed _, _ => True
                | _, _ => False end ->
  let d1 := apply_reading d n r in
  projects d1 n t = true /\ triggers (apply_reading d1 n r) = triggers d1.
Proof.
  intros Hproj Hrt d1. subst d1.
  apply andb_true_iff in Hproj as [Hon Hdim].
  destruct r as [msg | x | b]; simpl.
  - split; [| done]. unfold projects. by rewrite Hon, Hdim.
  - destruct t; [| done]. apply eqb_prop in Hdim. simpl in Hdim.
    set (b := num_gt x (Fin 0)). set (y := num_div_fin x Z_WAVE_MAX_DIM_VALUE).
    set (d1 := _setOnOff d (onoffCap n) (VBool b) n).
    destruct (_setOnOff_frame d (onoffCap n) (VBool b) n) as [_ Hcap1]. fold d1 in Hcap1.
    set (d2 := _setDim d1 (dimCap n) y n).
    destruct (_setDim_frame d1 (dimCap n) y n) as [_ Hcap2]. fold d2 in Hcap2.
    assert (Hcaps : capabilities d2 = capabilities d) by congruence.
    split.
    { unfold projects. rewrite !(hasCapability_ext _ _ _ Hcaps), Hon, Hdim. done. }
    assert (Hon2 : getCapabilityValue d2 (onoffCap n) = VBool b).
    { destruct (N.lt_ge_cases n 1) as [Hlt | Hge].
      - unfold d2. rewrite _setDim_skip by auto. unfold d1.
        rewrite _setOnOff_stored by done. by rewrite decide_True.
      - unfold d2. rewrite _setDim_stored; [| done | by rewrite (hasCapability_ext _ _ _ Hcap1) | done].
        rewrite decide_False by (intros Hx; symmetry in Hx; by apply onoffCap_dimCap in Hx).
        unfold d1. rewrite _setOnOff_stored by done. by rewrite decide_True. }
    destruct (_setOnOff_unchanged d2 (onoffCap n) b n Hon2) as (Htr3 & Hcap3 & Hval3).
    set (d3 := _setOnOff d2 (onoffCap n) (VBool b) n) in *.
    assert (Hdim3 : getCapabilityValue d3 (dimCap n) = VNum (normalize y) \/ (n < 1)%N).
    { destruct (N.lt_ge_cases n 1) as [Hlt | Hge]; [by right | left].
      rewrite Hval3. unfold d2.
      rewrite _setDim_stored; [| done | by rewrite (hasCapability_ext _ _ _ Hcap1) | done].
      by rewrite decide_True. }
    destruct (_setDim_unchanged d3 (dimCap n) y n Hdim3) as (Htr4 & _).
    congruence.
  - destruct t; [done |].
    set (d1 := _setOnOff d (onoffCap n) (VBool b) n).
    destruct (_setOnOff_frame d (onoffCap n) (VBool b) n) as [_ Hcap1]. fold d1 in Hcap1.
    split.
    { unfold projects. rewrite !(hasCapability_ext _ _ _ Hcap1), Hon, Hdim. done. }
    assert (Hon1 : getCapabilityValue d1 (onoffCap n) = VBool b).
    { unfold d1. rewrite _setOnOff_stored by done. by rewrite decide_True. }
    by destruct (_setOnOff_unchanged d1 (onoffCap n) b n Hon1) as (Htr & _).
Qed.
Lemma read_endpoint_kind t cc :
  match read_endpoint t cc, t with
  | DimmerLevel _, DIMMER | SwitchState _, SWITCH | Failed _, _ => True
  | _, _ => False
  end.
Proof. unfold read_endpoint. destruct t; repeat (case_match; try done). Qed.

Lemma prepared_projects d n t : projects (prepared d n t) n t = true.
Proof.
  unfold projects. rewrite prepared_has_onoff, prepared_has_dim. by destruct (bool_decide _).
Qed.

Lemma projects_prepared d n t : projects d n t = true -> prepared d n t = d.
Proof.
  intros [Hon Hdim%eqb_prop]%andb_true_iff. by apply prepared_idem.
Qed.

Lemma syncOne_read d n ep t :
  _endpointTypes d !! n = Some (Some t) ->
  _syncOneEndpointState d n (Some ep) =
  match read_endpoint t (CommandClass_or_empty ep) with
  | Failed errorMsg =>
    if includes errorMsg "timeout" then prepared d n t else demote (prepared d n t) n
  | r => apply_reading (prepared d n t) n r
  end.
Proof.
  intros Hty. rewrite (syncOne_classified d n ep t Hty), sync_attempt_read.
  by destruct (read_endpoint t (CommandClass_or_empty ep)).
Qed.

Lemma apply_reading_frame d n r :
  same_registry d (apply_reading d n r) /\
  capabilities (apply_reading d n r) = capabilities d.
Proof.
  destruct r as [msg | x | b]; simpl; [done | | apply _setOnOff_frame].
  set (d1 := _setOnOff d (onoffCap n) (VBool (num_gt x (Fin 0))) n).
  destruct (_setOnOff_frame d (onoffCap n) (VBool (num_gt x (Fin 0))) n) as [[? ?] ?].
  destruct (_setDim_frame d1 (dimCap n) (num_div_fin x Z_WAVE_MAX_DIM_VALUE) n) as [[? ?] ?].
  fold d1 in H0, H1, H2. unfold same_registry. split_and!; congruence.
Qed.

(** Synchronising an endpoint a second time against the same device
    response fires no trigger card. *)
Lemma syncOne_twice d n ep :
  triggers (_syncOneEndpointState (_syncOneEndpointState d n ep) n ep) =
  triggers (_syncOneEndpointState d n ep).
Proof.
  destruct ep as [ep |].
  { destruct (_endpointTypes d !! n) as [[t |] |] eqn:Hty;
      [| by rewrite !(syncOne_unclassified d n ep) by auto ..].
    rewrite (syncOne_read d n ep t Hty).
    pose proof (read_endpoint_kind t (CommandClass_or_empty ep)) as Hkind.
    pose proof (prepared_same d n t) as [[Hpty _] _].
    destruct (read_endpoint t (CommandClass_or_empty ep)) as [msg | x | b] eqn:Hread.
    - destruct (includes msg "timeout") eqn:Htimeout.
      + rewrite (syncOne_read (prepared d n t) n ep t) by congruence.
        rewrite Hread, Htimeout. apply prepared_same.
      + rewrite syncOne_unclassified; [done |]. right.
        destruct (demote_spec (prepared d n t) n) as (-> & _).
        apply lookup_insert_eq.
    - pose proof (apply_reading_twice (prepared d n t) n t (DimmerLevel x)
                    (prepared_projects d n t) Hkind) as [Hproj Htr].
      pose proof (apply_reading_frame (prepared d n t) n (DimmerLevel x)) as [[Hty1 _] _].
      rewrite (syncOne_read _ n ep t) by congruence.
      by rewrite Hread, projects_prepared.
    - pose proof (apply_reading_twice (prepared d n t) n t (SwitchState b)
                    (prepared_projects d n t) Hkind) as [Hproj Htr].
      pose proof (apply_reading_frame (prepared d n t) n (SwitchState b)) as [[Hty1 _] _].
      rewrite (syncOne_read _ n ep t) by congruence.
      by rewrite Hread, projects_prepared. }
  simpl. by destruct (removeEndpoint_same (_removeEndpointCapabilities d n) n) as [_ [_ Htr]].
Qed.

(** C2, as the code has it. Trigger cards are change-gated per
    control: [_setOnOff] and [_setDim] fire exactly when the new value
    differs from the value the control held, two cards for an on/off
    change and one for a dim change, whereas the value is written to
    the control on every application; and synchronising an endpoint a
    second time against the same response fires nothing. *)
Theorem C2_triggers_are_change_gated :
  (forall d cap value n,
      truthy (VStr cap) = true -> hasCapability d cap = true ->
      let d' := _setOnOff d cap value n in
      valueWrites d' = valueWrites d ++ [(cap, VBool (truthy value))] /\
      triggers d' = triggers d ++
        if strict_eqb (getCapabilityValue d cap) (VBool (truthy value)) then []
        else onoff_transition n (truthy value)) /\
  (forall d cap value01 n,
      truthy (VStr cap) = true -> hasCapability d cap = true -> (1 <= n)%N ->
      let d' := _setDim d cap value01 n in
      valueWrites d' = valueWrites d ++ [(cap, VNum (normalize value01))] /\
      triggers d' = triggers d ++
        if strict_eqb (getCapabilityValue d cap) (VNum (normalize value01)) then []
        else [endpoint_dim_changed n (normalize value01)]) /\
  (forall d n ep,
      triggers (_syncOneEndpointState (_syncOneEndpointState d n ep) n ep) =
      triggers (_syncOneEndpointState d n ep)).
Proof.
  split_and!.
  - intros d cap value n Hcap Hhas d'. subst d'. by rewrite _setOnOff_spec.
  - intros d cap value01 n Hcap Hhas Hn d'. subst d'. by rewrite _setDim_spec.
  - apply syncOne_twice.
Qed.
End ChangeGate.

(** C2 as stated fails on both counts. A switch that reports "on" while
    its control holds [false] makes the first synchronisation fire two
    trigger cards, and the second synchronisation writes the control
    again although the value it holds is the value derived. *)
Lemma C2_counterexample :
  let sync d := _syncOneEndpointState (H := no_numeric_strings) d 2
                  (Some (binary_endpoint (Some (report_of "Value" (VStr "on/enable"))))) in
  let d := Device {[2%N := Some SWITCH]} {[onoffCap 2]} {[onoffCap 2 := VBool false]}
                  [] [] [] in
  triggers (sync (sync d)) = [endpoint_turned_on 2; endpoint_state_changed 2 true] /\
  ~ (length (triggers (sync (sync d))) <= 1)%nat /\
  getCapabilityValue (sync d) (onoffCap 2) = VBool true /\
  valueWrites (sync (sync d)) = valueWrites (sync d) ++ [(onoffCap 2, VBool true)].
Proof.
  intros sync d. split_and!.
  - by vm_compute.
  - vm_compute. lia.
  - by vm_compute.
  - by vm_compute.
Qed.

(** ** Deriving the dimmer state *)

Lemma normalize_unit (q : Q) :
  (0 <= q <= 1)%Q -> exists q', normalize (Fin q) = Fin q' /\ (q' == q)%Q.
Proof.
  intros [H0 H1]. unfold normalize. simpl.
  destruct (Qeq_bool q 0) eqn:Hz; simpl; eexists; (split; [reflexivity |]).
  - apply Qeq_bool_iff in Hz. rewrite Hz. reflexivity.
  - rewrite (Q.min_r 1 q) by done. by apply Q.max_r.
Qed.

Section DimmerReading.
Context `{StringSemantics}.

(** C8. For a dimmer endpoint (endpoint numbers start at 1) whose
    multilevel [GET] returns a report with a numeric "Current Value"
    [v] between 0 and 99, synchronisation stores [v > 0] in the on/off
    control and [v / 99] in the dim control; for [v = 50] these are
    [true] and a value within 0.001 of 0.505. A report that is missing
    or lacks the field is a synchronisation failure, which is not a
    timeout and demotes the endpoint. *)
Theorem C8_dimmer_values d n ep cc r :
  (1 <= n)%N ->
  _endpointTypes d !! n = Some (Some DIMMER) ->
  COMMAND_CLASS_SWITCH_MULTILEVEL (CommandClass_or_empty ep) = Some cc ->
  SWITCH_MULTILEVEL_GET cc = Some (Returns r) ->
  let d' := _syncOneEndpointState d n (Some ep) in
  (forall fields (v : Q),
      r = RObject fields -> fields !! "Current Value" = Some (VNum (Fin v)) ->
      (0 <= v <= 99)%Q ->
      _endpointTypes d' !! n = Some (Some DIMMER) /\
      exists (onoffValue : bool) (dimValue : Q),
        getCapabilityValue d' (onoffCap n) = VBool onoffValue /\
        (onoffValue = true <-> (0 < v)%Q) /\
        getCapabilityValue d' (dimCap n) = VNum (Fin dimValue) /\
        (dimValue == v / 99)%Q /\
        ((v == 50)%Q ->
         onoffValue = true /\ (Qabs (dimValue - (505 # 1000)) < 1 # 1000)%Q)) /\
  (_isValidReport r "Current Value" = false ->
      fst (sync_attempt d n DIMMER (CommandClass_or_empty ep))
        = Some "Invalid or missing report during sync" /\
      demoted d' n).
Proof.
  intros Hn Hty Hcc Hget d'.
  assert (Hread : read_endpoint DIMMER (CommandClass_or_empty ep) =
            if _isValidReport r "Current Value"
            then DimmerLevel (ToNumber StringToNumber (report_get r "Current Value"))
            else Failed "Invalid or missing report during sync").
  { unfold read_endpoint. rewrite Hcc. destruct cc as [g]. simpl in Hget. by subst g. }
  split.
  - intros fields v -> Hfield [Hv0 Hv99].
    assert (Hvalid : _isValidReport (RObject fields) "Current Value" = true).
    { unfold _isValidReport. simpl. rewrite Hfield. by vm_compute. }
    assert (Hlevel : read_endpoint DIMMER (CommandClass_or_empty ep) = DimmerLevel (Fin v)).
    { rewrite Hread, Hvalid. simpl. by rewrite Hfield. }
    subst d'. rewrite (syncOne_read d n ep DIMMER Hty), Hlevel.
    set (p := prepared d n DIMMER).
    pose proof (apply_reading_frame p n (DimmerLevel (Fin v))) as [[Hty' _] _].
    pose proof (prepared_same d n DIMMER) as [[Hpty _] _]. fold p in Hpty.
    split; [by rewrite Hty', Hpty |].
    cbn [apply_reading num_gt num_div_fin].
    set (d1 := _setOnOff p (onoffCap n) (VBool (negb (Qle_bool v 0))) n).
    pose proof (_setOnOff_frame p (onoffCap n) (VBool (negb (Qle_bool v 0))) n) as [_ Hcap1].
    fold d1 in Hcap1.
    assert (Hdim1 : hasCapability d1 (dimCap n) = true).
    { rewrite (hasCapability_ext _ _ _ Hcap1). unfold p. by rewrite prepared_has_dim. }
    destruct (normalize_unit (v / Z_WAVE_MAX_DIM_VALUE)) as (q & Hq & Hqv).
    { split.
      - apply Qle_shift_div_l; [done | by rewrite Qmult_0_l].
      - apply Qle_shift_div_r; [done | by rewrite Qmult_1_l]. }
    exists (negb (Qle_bool v 0)), q. split_and!.
    + rewrite _setDim_stored by done.
      rewrite decide_False by cap_neq.
      unfold d1. rewrite _setOnOff_stored; [by rewrite decide_True | done |].
      apply prepared_has_onoff.
    + rewrite negb_true_iff, <- not_true_iff_false, Qle_bool_iff. split.
      * apply Qnot_le_lt.
      * apply Qlt_not_le.
    + rewrite _setDim_stored by done. rewrite decide_True by done. by rewrite Hq.
    + done.
    + intros Hv50. split.
      * rewrite negb_true_iff, <- not_true_iff_false, Qle_bool_iff.
        rewrite Hv50. by intros ?.
      * assert (Hq50 : (q == 50 # 99)%Q).
        { apply (Qeq_trans _ _ _ Hqv), (Qeq_trans _ (50 / 99)); [| reflexivity].
          apply Qdiv_comp; [exact Hv50 | reflexivity]. }
        apply Qabs_Qlt_condition. split; lra.
  - intros Hinvalid. rewrite Hinvalid in Hread.
    assert (Hfail : fst (sync_attempt d n DIMMER (CommandClass_or_empty ep))
              = Some "Invalid or missing report during sync").
    { by rewrite sync_attempt_read, Hread. }
    split; [done |].
    by destruct (non_timeout_failure d n ep DIMMER _ Hty Hfail eq_refl) as [_ ?].
Qed.
End DimmerReading.

(** ** The failure policy and the dimmer reading on concrete endpoints *)

Lemma C3_witness :
  let d := Device {[3%N := Some DIMMER]} {[onoffCap 3; dimCap 3]} ∅ [] [] [] in
  let ep := multilevel_endpoint (Some (Throws "Request timeout after 10s")) in
  let d' := _syncOneEndpointState (H := no_numeric_strings) d 3 (Some ep) in
  includes "Request timeout after 10s" "timeout" = true /\
  _endpointTypes d' !! 3%N = Some (Some DIMMER) /\ projects d' 3 DIMMER = true.
Proof.
  intros d ep d'. split; [reflexivity |].
  destruct (C3_timeout_keeps_classification (H := no_numeric_strings)
              d 3 ep DIMMER "Request timeout after 10s")
    as (_ & Hty & _ & Hproj & _).
  - reflexivity.
  - reflexivity.
  - reflexivity.
  - split; assumption.
Defined.


Lemma C8_witness :
  let d := Device {[3%N := Some DIMMER]} ∅ ∅ [] [] [] in
  let r := RObject {["Current Value" := VNum (Fin 50)]} in
  let ep := multilevel_endpoint (Some (Returns r)) in
  let d' := _syncOneEndpointState (H := no_numeric_strings) d 3 (Some ep) in
  exists (onoffValue : bool) (dimValue : Q),
    getCapabilityValue d' (onoffCap 3) = VBool onoffValue /\
    getCapabilityValue d' (dimCap 3) = VNum (Fin dimValue) /\
    onoffValue = true /\ (Qabs (dimValue - (505 # 1000)) < 1 # 1000)%Q.
Proof.
  intros d r ep d'.
  destruct (C8_dimmer_values (H := no_numeric_strings) d 3 ep
              {| SWITCH_MULTILEVEL_GET := Some (Returns r) |} r)
    as [Hvalid _].
  - lia.
  - reflexivity.
  - reflexivity.
  - reflexivity.
  - destruct (Hvalid {["Current Value" := VNum (Fin 50)]} 50%Q)
      as (_ & onoffValue & dimValue & Hon & _ & Hdim & _ & H50).
    + reflexivity.
    + reflexivity.
    + split; vm_compute; discriminate.
    + destruct H50 as [Htrue Hclose]; [reflexivity |].
      exists onoffValue, dimValue. repeat split; assumption.
Defined.

(** ** Health monitor *)

Lemma capabilityCount_positive d :
  (0 < capabilityCount d)%nat <-> exists c, c ∈ capabilities d /\ endpoint_control c.
Proof.
  unfold capabilityCount, endpoint_control.
  set (l := filter _ _). split.
  - intros Hlen. destruct l as [| c l'] eqn:Hl; [simpl in Hlen; lia |].
    assert (Hc : c ∈ l) by (rewrite Hl; left).
    apply list_elem_of_filter in Hc as [HP Hc]. apply elem_of_elements in Hc.
    exists c. split; [done |]. by apply orb_prop, Is_true_true.
  - intros (c & Hc & HP).
    assert (Hin : c ∈ l).
    { apply list_elem_of_filter. split; [| by apply elem_of_elements].
      apply Is_true_true. destruct HP as [-> | ->]; [done | by rewrite orb_true_r]. }
    destruct l; [by apply elem_of_nil in Hin | simpl; lia].
Qed.

Lemma discoverOne_store rev node d n ep :
  (length (storeWrites d) <= length (storeWrites (_discoverOneEndpoint rev node d n ep)))%nat.
Proof.
  assert (Hens : forall d c, storeWrites (_ensureCapability d c) = storeWrites d).
  { intros d0 c. apply ensure_same. }
  assert (Hreg : forall t, storeWrites (snd (_registerEndpointCapabilities rev node d n t))
                           = storeWrites d).
  { intros t. unfold _registerEndpointCapabilities.
    destruct t, rev; repeat case_match; simpl; by rewrite ?Hens. }
  assert (Hcommit : forall d0 t, length (storeWrites (commit_type d0 n t))
                                 = S (length (storeWrites d0))).
  { intros d0 t. unfold commit_type, setStoreValue. simpl. rewrite length_app. simpl. lia. }
  assert (Hmark : storeWrites (mark_unsupported d n) = storeWrites d).
  { unfold mark_unsupported. by destruct (removeEndpoint_same
      (set_endpointTypes d (<[n := None]> (_endpointTypes d))) n) as [[_ ->] _]. }
  unfold _discoverOneEndpoint.
  destruct ep as [ep |]; [| done].
  destruct rev.
  - destruct (known d n); [done |].
    destruct (_detectEndpointType _ _) as [t |]; [| by rewrite Hmark].
    specialize (Hreg t).
    destruct (_registerEndpointCapabilities _ _ _ _ _) as [[msg |] d1]; simpl in Hreg.
    + destruct (includes _ _); rewrite ?Hcommit, ?Hreg; lia.
    + rewrite Hcommit, Hreg. lia.
  - destruct (_detectEndpointType _ _) as [t |]; [| by rewrite Hmark].
    specialize (Hreg t).
    destruct (known d n); [by rewrite Hreg |].
    destruct (_registerEndpointCapabilities _ _ _ _ _) as [[msg |] d1]; simpl in Hreg.
    + destruct (_ || _); rewrite ?Hcommit, ?Hreg; lia.
    + rewrite Hcommit, Hreg. lia.
Qed.

Lemma discoverAll_store rev node d :
  (length (storeWrites d) <= length (storeWrites (_discoverAllEndpoints rev node d)))%nat.
Proof.
  unfold _discoverAllEndpoints. destruct (_ =? _)%nat.
  - unfold _cleanupAllEndpoints.
    set (d0 := setStoreValue _).
    apply (foldl_invariant (fun d' => length (storeWrites d) <= length (storeWrites d'))%nat).
    + intros d' c Hle. by destruct (removeIfPresent_same d' c) as [[_ ->] _].
    + unfold d0, setStoreValue. simpl. rewrite length_app. lia.
  - apply (foldl_invariant (fun d' => length (storeWrites d) <= length (storeWrites d'))%nat);
      [| done].
    intros d' n Hle. destruct (n <? 1)%N; [done |].
    etrans; [exact Hle | apply discoverOne_store].
Qed.

(** C7. The health check does not do what the claim says. At the
    desync signature (endpoint controls on the device, no registry
    entry at all) it calls [this.warning], which no class of the
    driver defines, before it enters the [try]: the check throws and
    neither rediscovers nor persists anything. In every other state it
    returns without a change, as the claim says. So the check never
    changes the device, and a device that shows the signature, such as
    one with the control of endpoint 1 and an empty registry, is left
    in it. *)
Theorem C7_health_check_throws_on_desync rev node d :
  (desync_signature d ->
     _checkDeviceHealth rev node d = Throws "this.warning is not a function") /\
  (~ desync_signature d -> _checkDeviceHealth rev node d = Returns d) /\
  (forall d', _checkDeviceHealth rev node d = Returns d' -> d' = d) /\
  let lost := Device ∅ {[onoffCap 1]} ∅ [] [] [] in
  desync_signature lost /\
  _checkDeviceHealth rev node lost = Throws "this.warning is not a function".
Proof.
  assert (Hguard : forall d0,
            (discoveredCount d0 =? 0)%nat && (0 <? capabilityCount d0)%nat = true
            <-> desync_signature d0).
  { intros d0. rewrite andb_true_iff, Nat.eqb_eq, Nat.ltb_lt, discoveredCount_zero,
      capabilityCount_positive. done. }
  assert (Hrun : forall d0, desync_signature d0 ->
            _checkDeviceHealth rev node d0 = Throws "this.warning is not a function").
  { intros d0 Hsig%Hguard. unfold _checkDeviceHealth. by rewrite Hsig. }
  assert (Hskip : forall d0, ~ desync_signature d0 ->
            _checkDeviceHealth rev node d0 = Returns d0).
  { intros d0 Hsig. unfold _checkDeviceHealth.
    destruct (_ && _) eqn:Hg; [| done]. by apply Hguard in Hg. }
  split_and!.
  - apply Hrun.
  - apply Hskip.
  - intros d' Hret. unfold _checkDeviceHealth, warning in Hret.
    destruct (_ && _); [discriminate | by injection Hret].
  - assert (Hlost : desync_signature (Device ∅ {[onoffCap 1]} ∅ [] [] [])).
    { split; [done |]. exists (onoffCap 1). split; [set_solver | by left]. }
    split; [done | by apply Hrun].
Qed.

(** ** Flow condition handlers *)

Lemma strict_eqb_string op s : strict_eqb op (VStr s) = true <-> op = VStr s.
Proof.
  destruct op; simpl; try (split; [discriminate | by intros [=]]).
  rewrite String.eqb_eq. split; [by intros -> | by intros [= ->]].
Qed.

Section ConditionHandlers.
Context `{StringSemantics} `{FloatSemantics}.

(** On a synchronised dimmer, once the registry is assigned, the
    handlers answer from the stored values; an id given as the numeral
    string names the same entry. *)
Example conditions_on_dimmer :
  let d := Device {[3%N := Some DIMMER]} {[onoffCap 3; dimCap 3]}
                  {[onoffCap 3 := VBool true; dimCap 3 := VNum (Fin (50 # 99))]} [] [] [] in
  let args op := {| endpoint_id := Some (VNum (Fin 3)); comparison := VStr op;
                    level := VNum (Fin (1 # 2)) |} in
  _handleEndpointIsOn true d (args "") = Returns true /\
  _handleEndpointIsOn true d {| endpoint_id := Some (VStr "3"); comparison := VUndefined;
                                level := VUndefined |} = Returns true /\
  _handleEndpointDimCompare true d (args "greater_than") = Returns true /\
  _handleEndpointDimCompare true d (args "less_than") = Returns false /\
  _handleEndpointDimCompare true d (args "at_least") = Returns false.
Proof. repeat split; reflexivity. Qed.

(** C10. The handlers do throw. Once [onNodeInit] has assigned the
    registry they return [false] in every case the claim lists: the
    endpoint argument is missing or its id is falsy, the id names no
    registry entry or an entry bound to [null], the control they read
    is not projected, or, for the dim comparison, the operator is none
    of the three recognised ones. But they read [this._endpointTypes]
    without the guard that the health check has: on an instance whose
    registry is not assigned yet, both throw a [TypeError] for every
    truthy endpoint id, for instance for the id 1, instead of
    answering [false] for an endpoint that is unknown. *)
Theorem C10_conditions_throw_before_initialisation d args :
  (truthy (optional_id args) = false ->
     forall initialised,
       _handleEndpointIsOn initialised d args = Returns false /\
       _handleEndpointDimCompare initialised d args = Returns false) /\
  (endpoint_id args = None ->
     forall initialised,
       _handleEndpointIsOn initialised d args = Returns false /\
       _handleEndpointDimCompare initialised d args = Returns false) /\
  (property_index (optional_id args) = None ->
     _handleEndpointIsOn true d args = Returns false /\
     _handleEndpointDimCompare true d args = Returns false) /\
  (forall n, property_index (optional_id args) = Some n ->
     (_endpointTypes d !! n = None \/ _endpointTypes d !! n = Some None) ->
     _handleEndpointIsOn true d args = Returns false /\
     _handleEndpointDimCompare true d args = Returns false) /\
  (forall n, property_index (optional_id args) = Some n ->
     hasCapability d (onoffCap n) = false ->
     _handleEndpointIsOn true d args = Returns false) /\
  (forall n, property_index (optional_id args) = Some n ->
     hasCapability d (dimCap n) = false ->
     _handleEndpointDimCompare true d args = Returns false) /\
  (~ recognised_comparison (comparison args) ->
     _handleEndpointDimCompare true d args = Returns false) /\
  (exists b, _handleEndpointIsOn true d args = Returns b) /\
  (exists b, _handleEndpointDimCompare true d args = Returns b) /\
  (truthy (optional_id args) = true ->
     _handleEndpointIsOn false d args = Throws registry_undefined /\
     _handleEndpointDimCompare false d args = Throws registry_undefined) /\
  let unknown := {| endpoint_id := Some (VNum (Fin 1)); comparison := VStr "equal_to";
                    level := VNum (Fin 0) |} in
  _handleEndpointIsOn false d unknown = Throws registry_undefined /\
  _handleEndpointDimCompare false d unknown = Throws registry_undefined.
Proof.
  unfold _handleEndpointIsOn, _handleEndpointDimCompare.
  split_and!.
  - by intros ->.
  - unfold optional_id. by intros ->.
  - intros ->. by destruct (negb _).
  - intros n -> Hty.
    assert (known d n = false) as -> by (unfold known; by destruct Hty as [-> | ->]).
    by destruct (negb _).
  - intros n -> ->. simpl. by repeat case_match.
  - intros n -> ->. simpl. by repeat case_match.
  - intros Hop. unfold recognised_comparison in Hop.
    repeat (case_match; try done);
      exfalso; apply Hop; rewrite <- !strict_eqb_string; auto.
  - change (negb true) with false. cbv iota. repeat case_match; eauto.
  - change (negb true) with false. cbv iota. repeat case_match; eauto.
  - by intros ->.
  - done.
  - done.
Qed.
End ConditionHandlers.

(** ** Root-report debouncer *)

Module DebouncerProps.
Import Debouncer DebouncerSpec.

Lemma clearTimeout_single t : clearTimeout (handle t) [t] = [].
Proof. unfold clearTimeout. by rewrite filter_cons_False by (intros Hne; by apply Hne). Qed.

Lemma listener_pending rev c s :
  single_slot s ->
  pending (listener rev c s) = [Timer (next_handle s) c (now s + SYNC_DEBOUNCE_MS rev)].
Proof.
  intros [Hnil | (t & Hone & Hslot)]; unfold listener; simpl.
  - rewrite Hnil. by destruct (_syncTimeout s).
  - by rewrite Hslot, Hone, clearTimeout_single.
Qed.

Lemma step_single_slot rev s e : single_slot s -> single_slot (step rev s e).
Proof.
  intros Hs. destruct e as [c | h | dt]; simpl.
  - right. eexists. split; [by apply listener_pending | done].
  - destruct Hs as [Hnil | (t & Hone & Hslot)].
    + rewrite Hnil. simpl. by left.
    + rewrite Hone. destruct (decide (handle t = h)) as [<- | Hne].
      * rewrite filter_cons_True by done. simpl.
        destruct (due t <=? now s)%N; [left; apply clearTimeout_single |].
        right. by exists t.
      * rewrite filter_cons_False by done. simpl. right. by exists t.
  - exact Hs.
Qed.

Lemma run_single_slot rev es : single_slot (run rev es).
Proof.
  unfold run. apply (foldl_invariant single_slot); [| by left].
  intros. by apply step_single_slot.
Qed.

(** Two multilevel root reports 50 ms apart coalesce into one resync of
    the dimmers, fired one quiet window after the second report. *)
Example reports_coalesce :
  let early := run device_js [RootReport DIMMER; Tick 50; RootReport DIMMER; Tick 99;
                              Fire 0; Fire 1] in
  let late := step device_js (step device_js early (Tick 1)) (Fire 1) in
  synced early = [] /\ synced late = [DIMMER] /\ now late = 150%N /\ pending late = [].
Proof. repeat split; reflexivity. Qed.

(** C1, as the code has it. The two listeners share the one slot
    [_syncTimeout]: at any instant at most one timer is pending in
    total, hence at most one per class, and a root report for class [c]
    cancels the pending timer, whatever its class, and leaves exactly
    one timer, scoped to [c] and due one quiet window later. *)
Theorem C1_single_shared_timer rev es :
  let s := run rev es in
  (length (pending s) <= 1)%nat /\
  (forall c, length (filter (fun t => timer_class t = c) (pending s)) <= 1)%nat /\
  (forall t, t ∈ pending s -> _syncTimeout s = Some (handle t)) /\
  (forall c, pending (step rev s (RootReport c))
             = [Timer (next_handle s) c (now s + SYNC_DEBOUNCE_MS rev)]).
Proof.
  intros s. pose proof (run_single_slot rev es) as Hs. fold s in Hs.
  assert (Hlen : (length (pending s) <= 1)%nat).
  { destruct Hs as [-> | (t & -> & _)]; simpl; lia. }
  split_and!.
  - done.
  - intros c. etrans; [apply length_filter | done].
  - intros t Ht. destruct Hs as [Hnil | (t' & Hone & Hslot)].
    + rewrite Hnil in Ht. by apply elem_of_nil in Ht.
    + rewrite Hone in Ht. by apply list_elem_of_singleton in Ht as ->.
  - intros c. by apply listener_pending.
Qed.

(** C1 as stated fails: a binary root report arriving while the
    multilevel timer is pending cancels it, and the dimmers are never
    resynchronised. *)
Lemma C1_counterexample :
  ~ timers_independent device_js /\ ~ timers_independent queue_revision /\
  synced (run device_js [RootReport DIMMER; Tick 50; RootReport SWITCH;
                         Tick 100; Fire 0; Fire 1]) = [SWITCH].
Proof.
  split_and!.
  - intros Hind.
    specialize (Hind [RootReport DIMMER] (Timer 0 DIMMER 100) SWITCH).
    vm_compute in Hind. specialize (Hind ltac:(left) ltac:(discriminate)).
    by apply list_elem_of_singleton in Hind.
  - intros Hind.
    specialize (Hind [RootReport DIMMER] (Timer 0 DIMMER 200) SWITCH).
    vm_compute in Hind. specialize (Hind ltac:(left) ltac:(discriminate)).
    by apply list_elem_of_singleton in Hind.
  - reflexivity.
Qed.
End DebouncerProps.

(** ** Command queue *)

Module CommandQueueProps.
Import CommandQueue QueueSpec.

Lemma spaced_snoc l b :
  spaced l -> (forall a, last l = Some a -> follows a b) -> spaced (l ++ [b]).
Proof.
  intros Hl Hlast i a b' Ha Hb.
  destruct (decide (S i < length l)%nat) as [Hlt | Hge].
  - rewrite lookup_app_l in Ha by lia. rewrite lookup_app_l in Hb by lia. eauto.
  - assert (i < length l)%nat as Hi.
    { apply lookup_lt_Some in Hb. rewrite length_app in Hb. simpl in Hb. lia. }
    assert (S i = length l) as Hlen by lia.
    rewrite lookup_app_l in Ha by lia.
    rewrite lookup_app_r, Hlen, Nat.sub_diag in Hb by lia. simpl in Hb. simplify_eq.
    apply Hlast. rewrite last_lookup. by replace (pred (length l)) with i by lia.
Qed.

Lemma spaced_finished l a b : spaced (l ++ [b]) -> a ∈ l -> finished a ≠ None.
Proof.
  intros Hsp [i Hi]%list_elem_of_lookup.
  assert (is_Some ((l ++ [b]) !! S i)) as [b' Hb'].
  { apply lookup_lt_is_Some. apply lookup_lt_Some in Hi. rewrite length_app. simpl. lia. }
  destruct (Hsp i a b') as (f & w & -> & _); [| done | done].
  by apply lookup_app_l_Some.
Qed.

Lemma spaced_replace_last l a a' :
  spaced (l ++ [a]) -> started a' = started a -> spaced (l ++ [a']).
Proof.
  intros Hsp Hst i x y Hx Hy.
  assert (i < length l)%nat as Hi.
  { apply lookup_lt_Some in Hy. rewrite length_app in Hy. simpl in Hy. lia. }
  rewrite lookup_app_l in Hx by done.
  destruct (decide (S i < length l)%nat) as [Hlt | Hge].
  - rewrite lookup_app_l in Hy by done. apply (Hsp i x y).
    + by apply lookup_app_l_Some.
    + by apply lookup_app_l_Some.
  - assert (S i = length l) as Hlen by lia.
    rewrite lookup_app_r, Hlen, Nat.sub_diag in Hy by lia. simpl in Hy. simplify_eq.
    destruct (Hsp i x a) as (f & w & Hf & H1 & H2 & H3).
    + by apply lookup_app_l_Some.
    + rewrite lookup_app_r, Hlen, Nat.sub_diag by lia. done.
    + exists f, w. rewrite Hst. done.
Qed.

Lemma finish_commands s c : applied_command <$> finish s c = applied_command <$> applications s.
Proof.
  unfold finish. rewrite <- list_fmap_compose. apply list_fmap_ext.
  intros i a _. simpl. by case_bool_decide.
Qed.

Lemma finish_last s c l st :
  applications s = l ++ [Application c st None] -> spaced (applications s) ->
  finish s c = l ++ [Application c st (Some (now s, length (_commandQueue s)))].
Proof.
  intros Happs Hsp. unfold finish. rewrite Happs in Hsp |- *.
  rewrite fmap_app. simpl. rewrite bool_decide_eq_true_2 by done. f_equal.
  rewrite <- (list_fmap_id l) at 2. apply list_fmap_ext.
  intros i a Ha. simpl. rewrite bool_decide_eq_false_2; [done |].
  intros [_ Hnone]. eapply spaced_finished; [exact Hsp | | exact Hnone].
  apply list_elem_of_lookup. eauto.
Qed.
Lemma invariant_init : invariant init.
Proof.
  constructor; simpl; [done | |].
  - intros i a b Ha. by rewrite lookup_nil in Ha.
  - unfold phase. simpl. split_and!; [done | done |]. by intros a Ha.
Qed.

Lemma last_snoc_Some {A} (l : list A) x y : last (l ++ [x]) = Some y -> x = y.
Proof. rewrite last_snoc. by intros [= ->]. Qed.

Lemma step_invariant s e : invariant s -> invariant (step s e).
Proof.
  intros [Hfifo Hsp Hph].
  destruct s as [q flag acts t nf enq apps stl]. unfold phase in Hph. simpl in *.
  destruct e as [cap v | i out | i | dt]; simpl.
  - (* a caller enqueues *)
    unfold queueCapabilityCommand. simpl. destruct flag; simpl.
    + constructor; simpl.
      * by rewrite Hfifo, app_assoc.
      * done.
      * unfold phase. simpl.
        destruct acts as [| [c' | due] [|]]; try done.
        -- by destruct Hph.
        -- destruct Hph as (? & ? & ?). split_and!; [done | | done].
           by intros [_ [=]]%app_eq_nil.
    + destruct acts as [| [c' | due] [|]]; try done; try (by destruct Hph).
      destruct Hph as (_ & -> & Hlast).
      unfold _processCommandQueue, loop_head. simpl.
      constructor; simpl.
      * rewrite Hfifo, fmap_app. simpl. by rewrite !app_nil_r.
      * apply spaced_snoc; [done |]. intros a Ha.
        destruct (Hlast a Ha) as (f & w & Hf & H1 & H2 & ->).
        exists f, 0%nat. split_and!; try done; lia.
      * unfold phase. simpl. split; [done |]. by exists apps, t.
  - (* the application of a command completes *)
    destruct acts as [| [c' | due] [|]]; try done.
    + destruct i as [| i]; [| done]. simpl.
      destruct Hph as (-> & l & st & Happs & Hst).
      unfold after_trigger. simpl.
      rewrite (finish_last (State q true [AwaitTrigger c'] t nf enq apps stl) c' l st)
        by done. simpl.
      assert (Hsp' : spaced (l ++ [Application c' st (Some (t, length q))])).
      { rewrite Happs in Hsp. by apply (spaced_replace_last _ _ _ Hsp). }
      assert (Hfifo' : enq = (applied_command <$> l ++ [Application c' st (Some (t, length q))]) ++ q).
      { rewrite Hfifo, Happs, !fmap_app. done. }
      destruct q as [| c q]; simpl.
      * unfold loop_head. simpl. constructor; simpl; [done | done |].
        unfold phase. simpl. split_and!; [done | done |].
        intros a <-%last_snoc_Some. exists t, 0%nat. simpl. split_and!; try done; lia.
      * constructor; simpl; [done | done |].
        unfold phase. simpl. split_and!; [done | done |].
        eexists l, _, t, _. simpl. split_and!; try done; lia.
    + destruct i as [| [| i]]; done.
  - (* the delay elapses *)
    destruct acts as [| [c' | due] [|]]; try done.
    + destruct i as [| [| i]]; done.
    + destruct i as [| i]; [| done]. simpl.
      destruct (N.leb_spec due t) as [Hdue | Hnot]; [| by constructor].
      destruct Hph as (-> & Hq & l & a & f & w & Happs & Hf & H1 & H2 & ->).
      destruct q as [| c q]; [done |].
      unfold loop_head. simpl. constructor; simpl.
      * rewrite Hfifo, fmap_app. simpl. by rewrite <- app_assoc.
      * apply spaced_snoc; [done |]. rewrite Happs.
        intros a' <-%last_snoc_Some. exists f, w. simpl. split_and!; try done; lia.
      * unfold phase. simpl. split; [done |]. by exists apps, t.
  - (* time passes *)
    constructor; simpl; [done | done |].
    unfold phase. simpl.
    destruct acts as [| [c' | due] [|]]; try done.
    + destruct Hph as (? & ? & Hlast). split_and!; [done | done |].
      intros a Ha. destruct (Hlast a Ha) as (f & w & ? & ? & ? & ?).
      exists f, w. split_and!; try done; lia.
    + destruct Hph as (? & l & st & ? & ?). split; [done |].
      exists l, st. split; [done | lia].
    + destruct Hph as (? & ? & l & a & f & w & ? & ? & ? & ? & ?).
      split_and!; [done | done |]. exists l, a, f, w. split_and!; try done; lia.
Qed.

Lemma run_invariant es : invariant (run es).
Proof.
  unfold run. apply (foldl_invariant invariant); [| apply invariant_init].
  intros. by apply step_invariant.
Qed.
(** Two commands enqueued back to back: the second waits for the first
    to complete and for the delay. *)
Example queued_commands_are_spaced :
  let s := run [Enqueue "onoff.ep1" (VBool true); Enqueue "onoff.ep2" (VBool false);
                Tick 30; TriggerSettles 0 (Returns ()); Tick 249; DelayElapses 0;
                Tick 1; DelayElapses 0] in
  (started <$> applications s) = [0%N; 280%N] /\
  (future <$> (applied_command <$> applications s)) = [0%nat; 1%nat] /\
  settled s = [(0%nat, Resolved)] /\ activations s = [AwaitTrigger (Command "onoff.ep2" (VBool false) 1 0)].
Proof. repeat split; reflexivity. Qed.


(** Left to itself, the loop drains every waiting command, in order,
    each settled with its own outcome. *)
Lemma drain q : forall s outcomes due,
  activations s = [AwaitDelay due] -> (due <= now s + COMMAND_DELAY_MS)%N ->
  _commandQueue s = q -> q ≠ [] -> length outcomes = length q ->
  let s' := foldl step s (drain_schedule outcomes) in
  _commandQueue s' = [] /\ activations s' = [] /\ _isProcessingQueue s' = false /\
  applied_command <$> applications s' = (applied_command <$> applications s) ++ q /\
  settled s' = settled s ++ zip (future <$> q) (verdict <$> outcomes).
Proof.
  induction q as [| c q IH]; intros s outcomes due Hact Hdue Hq Hne Hlen; [done |].
  destruct outcomes as [| o outcomes]; [done |].
  destruct s as [q0 flag acts t nf enq apps stl]. simpl in *. subst q0 acts.
  unfold drain_schedule. simpl. fold (drain_schedule outcomes).
  destruct (N.leb_spec due (t + COMMAND_DELAY_MS)) as [_ | ?]; [| lia].
  unfold loop_head, after_trigger, set_activations. simpl.
  set (log := finish _ c).
  assert (Hlog : applied_command <$> log = (applied_command <$> apps) ++ [c]).
  { unfold log. rewrite finish_commands. simpl. by rewrite fmap_app. }
  destruct q as [| c' q]; simpl.
  - destruct outcomes; [| done]. simpl.
    split_and!; try done.
  - destruct (IH (State (c' :: q) flag
                    [AwaitDelay (t + COMMAND_DELAY_MS + COMMAND_DELAY_MS)]
                    (t + COMMAND_DELAY_MS) nf enq log
                    (stl ++ [(future c, verdict o)]))
                outcomes (t + COMMAND_DELAY_MS + COMMAND_DELAY_MS)%N)
      as (H1 & H2 & H3 & H4 & H5); simpl; try done.
    { simpl in Hlen. lia. }
    assert (Hverdict : match o with Returns _ => Resolved | Throws e => Rejected e end
                       = verdict o) by done.
    rewrite Hverdict. simpl in H4, H5.
    split_and!; try done.
    + rewrite H4, Hlog. by rewrite <- app_assoc.
    + rewrite H5. by rewrite <- app_assoc.
Qed.

Lemma drain_schedule_no_callers outcomes : no_callers (drain_schedule outcomes).
Proof.
  unfold no_callers, drain_schedule. induction outcomes as [| o l IH]; simpl; [done |].
  by repeat constructor.
Qed.

(** From every state the loop can reach, it can run on without further
    callers until every command enqueued so far has been applied. *)
Lemma invariant_drains s :
  invariant s ->
  exists schedule, no_callers schedule /\
    let s' := foldl step s schedule in
    _commandQueue s' = [] /\ activations s' = [] /\
    applied_command <$> applications s' = enqueued s.
Proof.
  intros [Hfifo Hsp Hph]. unfold phase in Hph.
  destruct s as [q flag acts t nf enq apps stl]. simpl in *.
  destruct acts as [| [c | due] [|]]; try done.
  - exists []. split; [constructor |]. destruct Hph as (_ & -> & _). simpl.
    by rewrite Hfifo, app_nil_r.
  - destruct q as [| c' q].
    + exists [TriggerSettles 0 (Returns ())]. split; [by repeat constructor |].
      simpl. unfold after_trigger, loop_head. simpl.
      split_and!; try done. by rewrite finish_commands, Hfifo, app_nil_r.
    + set (outcomes := replicate (length (c' :: q)) (Returns ())).
      assert (Hlen : length outcomes = length (c' :: q)) by apply length_replicate.
      clearbody outcomes.
      exists (TriggerSettles 0 (Returns ()) :: drain_schedule outcomes).
      split; [constructor; [done | apply drain_schedule_no_callers] |].
      set (s0 := State (c' :: q) flag [AwaitTrigger c] t nf enq apps stl).
      set (s1 := step s0 (TriggerSettles 0 (Returns ()))).
      change (foldl step s0 (TriggerSettles 0 (Returns ()) :: drain_schedule outcomes))
        with (foldl step s1 (drain_schedule outcomes)).
      destruct (drain (c' :: q) s1 outcomes (t + COMMAND_DELAY_MS)%N)
        as (H1 & H2 & _ & H4 & _); try done.
      split_and!; try done. rewrite H4. unfold s1, s0. simpl.
      by rewrite finish_commands, Hfifo.
  - destruct Hph as (_ & Hq & l & a & f & w & _ & _ & _ & Hf & ->).
    exists (drain_schedule (replicate (length q) (Returns ()))).
    split; [apply drain_schedule_no_callers |].
    destruct (drain q (State q flag [AwaitDelay (f + COMMAND_DELAY_MS)] t nf enq apps stl)
                (replicate (length q) (Returns ())) (f + COMMAND_DELAY_MS)%N)
      as (H1 & H2 & _ & H4 & _); simpl; try done.
    { lia. }
    { by rewrite length_replicate. }
    split_and!; try done. simpl in H4. by rewrite H4, Hfifo.
Qed.

(** C6. When the application of a queued command fails, the loop
    rejects the future of that command and settles no other; the
    queue is untouched and, if commands are waiting, the loop stays
    active and enters the delay. From there every waiting command is
    applied in order and settled with the outcome of its own
    application, whatever the outcomes are; and whatever happens
    next, callers enqueuing included, the loop can still run until
    every command enqueued has been applied. *)
Theorem C6_failure_rejects_only_its_caller es i c error :
  let s := run es in
  activations s !! i = Some (AwaitTrigger c) ->
  let s' := step s (TriggerSettles i (Throws error)) in
  settled s' = settled s ++ [(future c, Rejected error)] /\
  _commandQueue s' = _commandQueue s /\
  (_commandQueue s ≠ [] ->
     activations s' = [AwaitDelay (now s + COMMAND_DELAY_MS)] /\
     _isProcessingQueue s' = true) /\
  (forall outcomes, length outcomes = length (_commandQueue s) ->
    let s'' := foldl step s' (drain_schedule outcomes) in
    _commandQueue s'' = [] /\ activations s'' = [] /\
    applied_command <$> applications s'' =
      (applied_command <$> applications s) ++ _commandQueue s /\
    settled s'' = settled s' ++ zip (future <$> _commandQueue s) (verdict <$> outcomes)) /\
  (forall later, exists schedule, no_callers schedule /\
    let s'' := foldl step (foldl step s' later) schedule in
    _commandQueue s'' = [] /\ activations s'' = [] /\
    applied_command <$> applications s'' = enqueued (foldl step s' later)).
Proof.
  intros s Hact s'.
  assert (Hlater : forall later, invariant (foldl step s' later)).
  { intros later. apply (foldl_invariant invariant).
    - intros. by apply step_invariant.
    - apply step_invariant, run_invariant. }
  destruct (run_invariant es) as [_ _ Hph]. fold s in Hph.
  unfold phase in Hph.
  cut (settled s' = settled s ++ [(future c, Rejected error)] /\
       _commandQueue s' = _commandQueue s /\
       (_commandQueue s ≠ [] ->
          activations s' = [AwaitDelay (now s + COMMAND_DELAY_MS)] /\
          _isProcessingQueue s' = true) /\
       (forall outcomes, length outcomes = length (_commandQueue s) ->
         let s'' := foldl step s' (drain_schedule outcomes) in
         _commandQueue s'' = [] /\ activations s'' = [] /\
         applied_command <$> applications s'' =
           (applied_command <$> applications s) ++ _commandQueue s /\
         settled s'' = settled s' ++ zip (future <$> _commandQueue s) (verdict <$> outcomes))).
  { intros (H1 & H2 & H3 & H4). split_and!; try done.
    intros later. apply invariant_drains, Hlater. }
  clear Hlater. subst s'. clearbody s.
  destruct s as [q flag acts t nf enq apps stl]. simpl in *.
  destruct acts as [| [c' | due] [|]]; try done; destruct i as [| i]; try done.
  simpl in Hact. injection Hact as ->. destruct Hph as (-> & _).
  unfold after_trigger. simpl.
  destruct q as [| c' q]; simpl.
  - split_and!; try done. intros [|]; [| done]. intros _. simpl.
    split_and!; try done.
    + by rewrite finish_commands, app_nil_r.
    + by rewrite app_nil_r.
  - split_and!; try done. intros outcomes Hlen.
    set (s1 := set_activations _ _).
    destruct (drain (c' :: q) s1 outcomes (t + COMMAND_DELAY_MS)%N)
      as (H1 & H2 & _ & H4 & H5); simpl; try done.
    split_and!; try done. rewrite H4. unfold s1. simpl. by rewrite finish_commands.
Qed.

Lemma C6_witness :
  let es := [Enqueue "onoff.ep1" (VBool true); Enqueue "onoff.ep2" (VBool false)] in
  let failed := step (run es) (TriggerSettles 0 (Throws "NO_ACK")) in
  let drained := foldl step failed (drain_schedule [Returns ()]) in
  settled failed = [(0%nat, Rejected "NO_ACK")] /\
  activations failed = [AwaitDelay 250] /\
  _commandQueue drained = [] /\
  settled drained = [(0%nat, Rejected "NO_ACK"); (1%nat, Resolved)].
Proof.
  intros es failed drained.
  destruct (C6_failure_rejects_only_its_caller es 0
              (Command "onoff.ep1" (VBool true) 0 0) "NO_ACK")
    as (Hsettled & _ & Hactive & Hdrain & _).
  - reflexivity.
  - destruct Hactive as [Hact _]; [discriminate |].
    destruct (Hdrain [Returns ()]) as (Hqueue & _ & _ & Hall); [reflexivity |].
    repeat split; assumption.
Defined.
End CommandQueueProps.


(** * Properties of the rest of the driver *)

(** ** Synchronisation stays within its endpoint *)

Lemma getCapabilityValue_ext d d' c :
  capabilityValues d' = capabilityValues d -> getCapabilityValue d' c = getCapabilityValue d c.
Proof. unfold getCapabilityValue. by intros ->. Qed.

Lemma ensure_value d c c' :
  getCapabilityValue (_ensureCapability d c) c' = getCapabilityValue d c'.
Proof. apply getCapabilityValue_ext, ensure_same. Qed.

Lemma removeIfPresent_value d c c' :
  c' ≠ c -> getCapabilityValue (_removeIfPresent d c) c' = getCapabilityValue d c'.
Proof.
  intros Hne. unfold _removeIfPresent. destruct (hasCapability d c); [| done].
  unfold getCapabilityValue. simpl. by rewrite lookup_delete_ne.
Qed.

Lemma removeEndpoint_value d n c :
  c ≠ onoffCap n -> c ≠ dimCap n ->
  getCapabilityValue (_removeEndpointCapabilities d n) c = getCapabilityValue d c.
Proof.
  intros Hon Hdim. unfold _removeEndpointCapabilities.
  by rewrite !removeIfPresent_value.
Qed.

Lemma _setOnOff_other d cap value n c :
  c ≠ cap -> getCapabilityValue (_setOnOff d cap value n) c = getCapabilityValue d c.
Proof.
  intros Hne. destruct (truthy (VStr cap)) eqn:Hcap; [| by unfold _setOnOff; rewrite Hcap].
  destruct (hasCapability d cap) eqn:Hhas; [| by rewrite _setOnOff_absent].
  rewrite _setOnOff_stored by done. by rewrite decide_False.
Qed.

Lemma _setDim_other d cap x n c :
  c ≠ cap -> getCapabilityValue (_setDim d cap x n) c = getCapabilityValue d c.
Proof.
  intros Hne. destruct (truthy (VStr cap)) eqn:Hcap; [| by unfold _setDim; rewrite Hcap].
  destruct (hasCapability d cap) eqn:Hhas; [| by rewrite _setDim_skip by auto].
  destruct (N.lt_ge_cases n 1) as [Hlt | Hge]; [by rewrite _setDim_skip by auto |].
  rewrite _setDim_stored by done. by rewrite decide_False.
Qed.

Lemma prepared_value d n t c :
  c ≠ onoffCap n -> c ≠ dimCap n ->
  getCapabilityValue (prepared d n t) c = getCapabilityValue d c.
Proof.
  intros Hon Hdim. destruct t; simpl; by rewrite !ensure_value, ?removeIfPresent_value.
Qed.

Lemma apply_reading_value d n r c :
  c ≠ onoffCap n -> c ≠ dimCap n ->
  getCapabilityValue (apply_reading d n r) c = getCapabilityValue d c.
Proof.
  intros Hon Hdim. destruct r; simpl; by rewrite ?_setDim_other, ?_setOnOff_other.
Qed.

Lemma demote_value d n c :
  c ≠ onoffCap n -> c ≠ dimCap n ->
  getCapabilityValue (demote d n) c = getCapabilityValue d c.
Proof.
  intros Hon Hdim. unfold demote.
  rewrite (getCapabilityValue_ext
             (_removeEndpointCapabilities
                (set_endpointTypes d (<[n := None]> (_endpointTypes d))) n)) by done.
  by rewrite removeEndpoint_value.
Qed.

Section SyncLocality.
Context `{StringSemantics}.

Lemma syncOne_other_values d n ep c :
  c ≠ onoffCap n -> c ≠ dimCap n ->
  getCapabilityValue (_syncOneEndpointState d n ep) c = getCapabilityValue d c.
Proof.
  intros Hon Hdim. destruct ep as [ep |]; [| by apply removeEndpoint_value].
  destruct (_endpointTypes d !! n) as [[t |] |] eqn:Hty;
    [| by rewrite syncOne_unclassified by auto ..].
  rewrite (syncOne_read d n ep t Hty).
  destruct (read_endpoint t (CommandClass_or_empty ep)) as [msg | x | b].
  - destruct (includes msg "timeout"); by rewrite ?demote_value, prepared_value.
  - by rewrite apply_reading_value, prepared_value.
  - by rewrite apply_reading_value, prepared_value.
Qed.

Lemma syncOne_type d n ep :
  _endpointTypes (_syncOneEndpointState d n ep) !! n = outcome_type (_endpointTypes d !! n) ep.
Proof.
  unfold outcome_type. destruct ep as [ep |].
  - destruct (_endpointTypes d !! n) as [[t |] |] eqn:Hty;
      [| by rewrite syncOne_unclassified by auto ..].
    rewrite (syncOne_read d n ep t Hty).
    pose proof (prepared_same d n t) as [[Hpty _] _].
    destruct (read_endpoint t (CommandClass_or_empty ep)) as [msg | x | b] eqn:Hread.
    + destruct (includes msg "timeout"); [by rewrite Hpty |].
      destruct (demote_spec (prepared d n t) n) as (-> & _). apply lookup_insert_eq.
    + pose proof (apply_reading_frame (prepared d n t) n (DimmerLevel x)) as [[-> _] _].
      by rewrite Hpty.
    + pose proof (apply_reading_frame (prepared d n t) n (SwitchState b)) as [[-> _] _].
      by rewrite Hpty.
  - simpl. destruct (removeEndpoint_same d n) as [[-> _] _].
    by destruct (_endpointTypes d !! n) as [[|]|].
Qed.

Lemma syncOne_untouched d n ep m :
  m ≠ n -> untouched m d (_syncOneEndpointState d n ep).
Proof.
  intros Hne. destruct (syncOne_effect d n ep) as (Hother & _).
  split_and!.
  - by apply Hother.
  - apply syncOne_other_capabilities; cap_neq.
  - apply syncOne_other_capabilities; cap_neq.
  - apply syncOne_other_values; cap_neq.
  - apply syncOne_other_values; cap_neq.
Qed.

(** X1. Synchronising endpoint [n] touches nothing of another
    endpoint: the registry entry, the two controls and the values they
    hold are as before for every [m ≠ n], whatever happens to [n]
    (success, timeout, demotion or a missing descriptor). *)
Theorem X1_sync_leaves_other_endpoints d n ep m :
  m ≠ n ->
  let d' := _syncOneEndpointState d n ep in
  _endpointTypes d' !! m = _endpointTypes d !! m /\
  hasCapability d' (onoffCap m) = hasCapability d (onoffCap m) /\
  hasCapability d' (dimCap m) = hasCapability d (dimCap m) /\
  getCapabilityValue d' (onoffCap m) = getCapabilityValue d (onoffCap m) /\
  getCapabilityValue d' (dimCap m) = getCapabilityValue d (dimCap m).
Proof. intros Hne. by apply syncOne_untouched. Qed.
End SyncLocality.

Lemma X1_witness :
  let d := Device {[1%N := Some SWITCH; 3%N := Some DIMMER]}
                  {[onoffCap 1; onoffCap 3; dimCap 3]}
                  {[onoffCap 1 := VBool true]} [] [] [] in
  let d' := _syncOneEndpointState (H := no_numeric_strings) d 3
              (Some (multilevel_endpoint (Some (Throws "Command rejected")))) in
  _endpointTypes d' !! 3%N = Some None /\
  _endpointTypes d' !! 1%N = Some (Some SWITCH) /\
  getCapabilityValue d' (onoffCap 1) = VBool true.
Proof.
  intros d d'.
  destruct (X1_sync_leaves_other_endpoints (H := no_numeric_strings) d 3
              (Some (multilevel_endpoint (Some (Throws "Command rejected")))) 1)
    as (Hty & _ & _ & Hval & _).
  - discriminate.
  - split; [reflexivity |]. split; [exact Hty | exact Hval].
Defined.

(** ** Full and targeted passes *)

Lemma untouched_refl m d : untouched m d d.
Proof. by repeat split. Qed.

Lemma untouched_trans m d1 d2 d3 : untouched m d1 d2 -> untouched m d2 d3 -> untouched m d1 d3.
Proof. unfold untouched. intros (? & ? & ? & ? & ?) (? & ? & ? & ? & ?). split_and!; congruence. Qed.

Lemma NoDup_Object_keys {A} (m : gmap N A) : NoDup (Object_keys m).
Proof. unfold Object_keys. rewrite merge_sort_Permutation. apply NoDup_elements. Qed.

Lemma outcome_type_is_Some `{StringSemantics} ot ep :
  is_Some (outcome_type ot ep) <-> is_Some ot.
Proof.
  unfold outcome_type. destruct ep as [e |]; [| done].
  destruct ot as [[t |] |]; try done.
  destruct (read_endpoint _ _); try done. by destruct (includes _ _).
Qed.

Section Passes.
Context `{StringSemantics}.

(** The pass over a list of endpoint numbers, as in
    [_syncAllEndpointStates] and [_syncEndpointsByType]. *)
Lemma sync_fold_untouched node (l : list N) d m :
  m ∉ l ->
  untouched m d
    (foldl (fun d id => _syncOneEndpointState d id (MultiChannelNodes node !! id)) d l).
Proof.
  revert d. induction l as [| n l IH]; intros d Hm; simpl; [apply untouched_refl |].
  apply not_elem_of_cons in Hm as [Hne Hm].
  eapply untouched_trans; [| by apply IH].
  by apply syncOne_untouched.
Qed.

Lemma sync_fold_type node (l : list N) d n :
  NoDup l -> n ∈ l ->
  _endpointTypes
    (foldl (fun d id => _syncOneEndpointState d id (MultiChannelNodes node !! id)) d l) !! n
  = outcome_type (_endpointTypes d !! n) (MultiChannelNodes node !! n).
Proof.
  revert d. induction l as [| m l IH]; intros d Hnodup Hn; [by apply elem_of_nil in Hn |].
  apply NoDup_cons in Hnodup as [Hm Hnodup]. simpl.
  destruct (decide (n = m)) as [-> | Hne].
  - destruct (sync_fold_untouched node l
                (_syncOneEndpointState d m (MultiChannelNodes node !! m)) m Hm) as [-> _].
    apply syncOne_type.
  - apply elem_of_cons in Hn as [? | Hn]; [done |].
    rewrite IH by done.
    by destruct (syncOne_untouched d m (MultiChannelNodes node !! m) n Hne) as [-> _].
Qed.

(** X2. A full pass judges every endpoint by its own read alone: the
    registry after [_syncAllEndpointStates] is, entry by entry, what
    synchronising that one endpoint decides, so a failure or demotion
    of one endpoint changes nothing for the others; and the pass never
    adds or removes a registry entry. *)
Theorem X2_full_pass_is_pointwise d node :
  (forall n, _endpointTypes (_syncAllEndpointStates d node) !! n
             = outcome_type (_endpointTypes d !! n) (MultiChannelNodes node !! n)) /\
  dom (_endpointTypes (_syncAllEndpointStates d node)) = dom (_endpointTypes d).
Proof.
  assert (Hpoint : forall n, _endpointTypes (_syncAllEndpointStates d node) !! n
             = outcome_type (_endpointTypes d !! n) (MultiChannelNodes node !! n)).
  { intros n. unfold _syncAllEndpointStates.
    destruct (decide (n ∈ Object_keys (_endpointTypes d))) as [Hin | Hout].
    - apply sync_fold_type; [apply NoDup_Object_keys | done].
    - destruct (sync_fold_untouched node _ d n Hout) as [-> _].
      rewrite elem_of_Object_keys, <- eq_None_not_Some in Hout. rewrite Hout.
      unfold outcome_type. by destruct (MultiChannelNodes node !! n). }
  split; [done |].
  apply set_eq. intros n. rewrite !elem_of_dom, Hpoint. apply outcome_type_is_Some.
Qed.

(** X3. The targeted pass the debouncer starts synchronises the
    endpoints of the given type only: an endpoint of the other type,
    an unclassified one and an unknown one keep their registry entry,
    their controls and their values; an endpoint of the given type gets
    what its own read decides. *)
Theorem X3_targeted_pass d node t n :
  let d' := _syncEndpointsByType d node t in
  (_endpointTypes d !! n ≠ Some (Some t) -> untouched n d d') /\
  (_endpointTypes d !! n = Some (Some t) ->
     _endpointTypes d' !! n = outcome_type (Some (Some t)) (MultiChannelNodes node !! n)).
Proof.
  intros d'. subst d'. unfold _syncEndpointsByType. split.
  - intros Hty. apply sync_fold_untouched.
    rewrite list_elem_of_filter. by intros [? _].
  - intros Hty. rewrite <- Hty. apply sync_fold_type.
    + apply NoDup_filter, NoDup_Object_keys.
    + apply list_elem_of_filter. split; [done |].
      apply elem_of_Object_keys. by rewrite Hty.
Qed.
End Passes.

Lemma X3_witness :
  let d := Device {[1%N := Some SWITCH; 3%N := Some DIMMER]}
                  {[onoffCap 1; onoffCap 3; dimCap 3]}
                  {[onoffCap 1 := VBool true]} [] [] [] in
  let node := node_of {[3%N := multilevel_endpoint (Some (Throws "Command rejected"))]} [] in
  let d' := _syncEndpointsByType (H := no_numeric_strings) d node DIMMER in
  untouched 1 d d' /\ _endpointTypes d' !! 3%N = Some None.
Proof.
  intros d node d'.
  destruct (X3_targeted_pass (H := no_numeric_strings) d node DIMMER 1) as [Hother _].
  destruct (X3_targeted_pass (H := no_numeric_strings) d node DIMMER 3) as [_ Hsame].
  split.
  - apply Hother. discriminate.
  - exact (Hsame eq_refl).
Defined.

(** ** What a successful read stores and fires *)

Lemma strict_eqb_one v :
  strict_eqb v (VNum (Fin 1)) = true <-> exists q, v = VNum (Fin q) /\ (q == 1)%Q.
Proof.
  destruct v as [| | b | [| | q |] | s]; simpl;
    try (split; [discriminate | by intros (q' & [=] & _)]).
  rewrite Qeq_bool_iff. split; [by eauto | by intros (q' & [= ->] & ?)].
Qed.

Lemma _setOnOff_logs d cap value n :
  exists evs ws,
    triggers (_setOnOff d cap value n) = triggers d ++ evs /\
    valueWrites (_setOnOff d cap value n) = valueWrites d ++ ws /\
    Forall (fun e => event_endpoint e = n /\ event_in_range e) evs /\
    (length evs <= 2)%nat /\ Forall (fun w => w.1 = cap) ws.
Proof.
  destruct (truthy (VStr cap)) eqn:Hcap.
  - destruct (hasCapability d cap) eqn:Hhas.
    + rewrite _setOnOff_spec by done. simpl.
      eexists _, _. split; [done |]. split; [done |].
      destruct (strict_eqb _ _); [by repeat constructor |].
      unfold onoff_transition. split_and!; [| simpl; lia | by repeat constructor].
      destruct (truthy value); by repeat constructor.
    + rewrite _setOnOff_absent by done. exists [], []. rewrite !app_nil_r.
      split_and!; [done | done | constructor | simpl; lia | constructor].
  - unfold _setOnOff. rewrite Hcap. simpl. exists [], []. rewrite !app_nil_r.
    split_and!; [done | done | constructor | simpl; lia | constructor].
Qed.

Lemma _setDim_logs d cap x n :
  exists evs ws,
    triggers (_setDim d cap x n) = triggers d ++ evs /\
    valueWrites (_setDim d cap x n) = valueWrites d ++ ws /\
    Forall (fun e => event_endpoint e = n /\ event_in_range e) evs /\
    (length evs <= 1)%nat /\ Forall (fun w => w.1 = cap) ws.
Proof.
  assert (Hnone : exists evs ws : list _,
    triggers d = triggers d ++ evs /\ valueWrites d = valueWrites d ++ ws /\
    Forall (fun e => event_endpoint e = n /\ event_in_range e) evs /\
    (length evs <= 1)%nat /\ Forall (fun w : string * jsval => w.1 = cap) ws).
  { exists [], []. rewrite !app_nil_r. split_and!; [done | done | constructor | simpl; lia | constructor]. }
  destruct (truthy (VStr cap)) eqn:Hcap; [| by unfold _setDim; rewrite Hcap].
  destruct (hasCapability d cap) eqn:Hhas; [| by rewrite _setDim_skip by auto].
  destruct (N.lt_ge_cases n 1) as [Hlt | Hge]; [by rewrite _setDim_skip by auto |].
  rewrite _setDim_spec by done. simpl.
  eexists _, _. split; [done |]. split; [done |].
  destruct (strict_eqb _ _); [by repeat constructor |].
  split_and!; [| simpl; lia | by repeat constructor].
  repeat constructor. simpl. destruct (normalize_range x) as (q & -> & ?). by exists q.
Qed.

Section Readings.
Context `{StringSemantics}.

(** X4. For a switch endpoint whose binary [GET] returns a report with
    a "Value" field, synchronisation keeps the type, leaves the
    endpoint with an on/off control and no dim control, and stores
    [true] exactly when the field is the token "on/enable" or the
    number 1; every other value, [true] and 255 included, reads as
    off. *)
Theorem X4_switch_values d n ep cc r :
  _endpointTypes d !! n = Some (Some SWITCH) ->
  COMMAND_CLASS_SWITCH_BINARY (CommandClass_or_empty ep) = Some cc ->
  SWITCH_BINARY_GET cc = Some (Returns r) ->
  _isValidReport r "Value" = true ->
  let d' := _syncOneEndpointState d n (Some ep) in
  _endpointTypes d' !! n = Some (Some SWITCH) /\
  hasCapability d' (onoffCap n) = true /\
  hasCapability d' (dimCap n) = false /\
  exists isOn : bool,
    getCapabilityValue d' (onoffCap n) = VBool isOn /\
    (isOn = true <->
     report_get r "Value" = VStr "on/enable" \/
     exists q, report_get r "Value" = VNum (Fin q) /\ (q == 1)%Q).
Proof.
  intros Hty Hcc Hget Hvalid d'.
  set (isOn := strict_eqb (report_get r "Value") (VStr "on/enable")
               || strict_eqb (report_get r "Value") (VNum (Fin 1))).
  assert (Hread : read_endpoint SWITCH (CommandClass_or_empty ep) = SwitchState isOn).
  { unfold read_endpoint. rewrite Hcc. destruct cc as [g]. simpl in Hget. subst g.
    by rewrite Hvalid. }
  subst d'. rewrite (syncOne_read d n ep SWITCH Hty), Hread.
  set (p := prepared d n SWITCH).
  pose proof (apply_reading_frame p n (SwitchState isOn)) as [[Hty' _] Hcap].
  pose proof (prepared_same d n SWITCH) as [[Hpty _] _]. fold p in Hpty.
  split_and!.
  - by rewrite Hty', Hpty.
  - rewrite (hasCapability_ext _ _ _ Hcap). apply prepared_has_onoff.
  - rewrite (hasCapability_ext _ _ _ Hcap). unfold p. by rewrite prepared_has_dim.
  - exists isOn. split.
    + simpl. rewrite _setOnOff_stored; [by rewrite decide_True | done |].
      apply prepared_has_onoff.
    + unfold isOn. rewrite orb_true_iff, strict_eqb_string, strict_eqb_one. done.
Qed.

(** X5. Whatever a dimmer reports as its "Current Value" (a level above
    99, a negative number, a string, nothing), the dim control ends up
    holding a number between 0 and 1. *)
Theorem X5_dim_level_is_clamped d n ep cc r :
  (1 <= n)%N ->
  _endpointTypes d !! n = Some (Some DIMMER) ->
  COMMAND_CLASS_SWITCH_MULTILEVEL (CommandClass_or_empty ep) = Some cc ->
  SWITCH_MULTILEVEL_GET cc = Some (Returns r) ->
  _isValidReport r "Current Value" = true ->
  exists q, getCapabilityValue (_syncOneEndpointState d n (Some ep)) (dimCap n) = VNum (Fin q) /\
            (0 <= q <= 1)%Q.
Proof.
  intros Hn Hty Hcc Hget Hvalid.
  assert (Hread : exists x, read_endpoint DIMMER (CommandClass_or_empty ep) = DimmerLevel x).
  { unfold read_endpoint. rewrite Hcc. destruct cc as [g]. simpl in Hget. subst g.
    rewrite Hvalid. eauto. }
  destruct Hread as [x Hread].
  rewrite (syncOne_read d n ep DIMMER Hty), Hread.
  cbn [apply_reading].
  set (d1 := _setOnOff _ _ _ _).
  assert (Hdim1 : hasCapability d1 (dimCap n) = true).
  { unfold d1. destruct (_setOnOff_frame (prepared d n DIMMER) (onoffCap n)
                            (VBool (num_gt x (Fin 0))) n) as [_ Hcap].
    rewrite (hasCapability_ext _ _ _ Hcap). by rewrite prepared_has_dim. }
  rewrite _setDim_stored by done. rewrite decide_True by done.
  destruct (normalize_range (num_div_fin x Z_WAVE_MAX_DIM_VALUE)) as (q & -> & Hq).
  by exists q.
Qed.

Lemma apply_reading_logs d n r :
  exists evs ws,
    triggers (apply_reading d n r) = triggers d ++ evs /\
    valueWrites (apply_reading d n r) = valueWrites d ++ ws /\
    Forall (fun e => event_endpoint e = n /\ event_in_range e) evs /\
    (length evs <= 3)%nat /\
    Forall (fun w => w.1 = onoffCap n \/ w.1 = dimCap n) ws.
Proof.
  destruct r as [msg | x | b]; simpl.
  - exists [], []. rewrite !app_nil_r. split_and!; [done | done | constructor | simpl; lia | constructor].
  - set (d1 := _setOnOff d (onoffCap n) (VBool (num_gt x (Fin 0))) n).
    destruct (_setOnOff_logs d (onoffCap n) (VBool (num_gt x (Fin 0))) n)
      as (evs1 & ws1 & Ht1 & Hw1 & He1 & Hl1 & Hc1).
    destruct (_setDim_logs d1 (dimCap n) (num_div_fin x Z_WAVE_MAX_DIM_VALUE) n)
      as (evs2 & ws2 & Ht2 & Hw2 & He2 & Hl2 & Hc2).
    fold d1 in Ht1, Hw1.
    exists (evs1 ++ evs2), (ws1 ++ ws2). rewrite Ht2, Hw2, Ht1, Hw1, <- !app_assoc.
    split_and!; try done.
    + by apply Forall_app.
    + rewrite length_app. lia.
    + apply Forall_app. split; eapply Forall_impl; eauto; simpl; auto.
  - destruct (_setOnOff_logs d (onoffCap n) (VBool b) n)
      as (evs1 & ws1 & Ht1 & Hw1 & He1 & Hl1 & Hc1).
    exists evs1, ws1. split_and!; try done; [lia |].
    eapply Forall_impl; eauto; simpl; auto.
Qed.

(** X6. Synchronising endpoint [n] only ever appends to the logs: at
    most three trigger cards, every one of them fired for endpoint [n]
    and any dim level they carry between 0 and 1, and value writes to
    the two controls of [n] only. *)
Theorem X6_sync_fires_for_its_endpoint d n ep :
  let d' := _syncOneEndpointState d n ep in
  exists evs ws,
    triggers d' = triggers d ++ evs /\
    valueWrites d' = valueWrites d ++ ws /\
    Forall (fun e => event_endpoint e = n /\ event_in_range e) evs /\
    (length evs <= 3)%nat /\
    Forall (fun w => w.1 = onoffCap n \/ w.1 = dimCap n) ws.
Proof.
  intros d'. subst d'.
  assert (Hnone : forall d0, same_logs d d0 -> exists evs ws,
    triggers d0 = triggers d ++ evs /\ valueWrites d0 = valueWrites d ++ ws /\
    Forall (fun e => event_endpoint e = n /\ event_in_range e) evs /\
    (length evs <= 3)%nat /\
    Forall (fun w : string * jsval => w.1 = onoffCap n \/ w.1 = dimCap n) ws).
  { intros d0 [-> ->]. exists [], []. rewrite !app_nil_r. split_and!; [done | done | constructor | simpl; lia | constructor]. }
  destruct ep as [ep |]; [| apply Hnone, removeEndpoint_same].
  destruct (_endpointTypes d !! n) as [[t |] |] eqn:Hty;
    [| rewrite syncOne_unclassified by auto; by apply Hnone ..].
  rewrite (syncOne_read d n ep t Hty).
  pose proof (prepared_same d n t) as [_ [Hpw Hpt]].
  assert (Happly : forall r, exists evs ws,
    triggers (apply_reading (prepared d n t) n r) = triggers d ++ evs /\
    valueWrites (apply_reading (prepared d n t) n r) = valueWrites d ++ ws /\
    Forall (fun e => event_endpoint e = n /\ event_in_range e) evs /\
    (length evs <= 3)%nat /\
    Forall (fun w : string * jsval => w.1 = onoffCap n \/ w.1 = dimCap n) ws).
  { intros r. destruct (apply_reading_logs (prepared d n t) n r) as (evs & ws & Ht & Hw & ?).
    exists evs, ws. by rewrite Ht, Hw, Hpt, Hpw. }
  destruct (read_endpoint t (CommandClass_or_empty ep)) as [msg | x | b]; [| apply Happly ..].
  destruct (includes msg "timeout"); apply Hnone; [done |].
  destruct (demote_spec (prepared d n t) n) as (_ & _ & _ & [Hw Ht]).
  split; congruence.
Qed.
End Readings.

Lemma X4_witness :
  let d := Device {[2%N := Some SWITCH]} {[onoffCap 2; dimCap 2]} ∅ [] [] [] in
  let on_report := RObject {["Value" := VStr "on/enable"]} in
  let d' := _syncOneEndpointState (H := no_numeric_strings) d 2
              (Some (binary_endpoint (Some (Returns on_report)))) in
  hasCapability d' (dimCap 2) = false /\ getCapabilityValue d' (onoffCap 2) = VBool true.
Proof.
  intros d on_report d'.
  destruct (X4_switch_values (H := no_numeric_strings) d 2
              (binary_endpoint (Some (Returns on_report)))
              {| SWITCH_BINARY_GET := Some (Returns on_report) |} on_report)
    as (_ & _ & Hdim & isOn & Hval & Hiff).
  - reflexivity.
  - reflexivity.
  - reflexivity.
  - reflexivity.
  - split; [exact Hdim |]. subst d'. rewrite Hval. f_equal. apply Hiff. left. reflexivity.
Defined.

Lemma X5_witness :
  let d := Device {[3%N := Some DIMMER]} ∅ ∅ [] [] [] in
  let r := RObject {["Current Value" := VNum (Fin 255)]} in
  exists q, getCapabilityValue
              (_syncOneEndpointState (H := no_numeric_strings) d 3
                 (Some (multilevel_endpoint (Some (Returns r))))) (dimCap 3) = VNum (Fin q) /\
            (0 <= q <= 1)%Q.
Proof.
  intros d r.
  apply (X5_dim_level_is_clamped (H := no_numeric_strings) d 3
           (multilevel_endpoint (Some (Returns r)))
           {| SWITCH_MULTILEVEL_GET := Some (Returns r) |} r).
  - lia.
  - reflexivity.
  - reflexivity.
  - reflexivity.
  - reflexivity.
Defined.

(** ** An endpoint that has left the topology *)

Section Vanished.
Context `{StringSemantics} `{FloatSemantics}.

(** X7. Synchronising an endpoint that has no descriptor removes its
    two controls and nothing else: the registry keeps the endpoint with
    the type it had, nothing is persisted, written or fired. Both flow
    conditions then answer [false] for it, although the registry still
    lists it as classified. *)
Theorem X7_vanished_endpoint d n :
  let d' := _syncOneEndpointState d n None in
  _endpointTypes d' = _endpointTypes d /\
  storeWrites d' = storeWrites d /\
  valueWrites d' = valueWrites d /\
  triggers d' = triggers d /\
  unprojected d' n /\
  (forall c, c ≠ onoffCap n -> c ≠ dimCap n -> hasCapability d' c = hasCapability d c) /\
  (forall args, property_index (optional_id args) = Some n ->
     _handleEndpointIsOn true d' args = Returns false /\
     _handleEndpointDimCompare true d' args = Returns false).
Proof.
  intros d'. subst d'. simpl.
  destruct (removeEndpoint_same d n) as [[Hty Hst] [Hw Ht]].
  assert (Hon : hasCapability (_removeEndpointCapabilities d n) (onoffCap n) = false).
  { rewrite hasCapability_removeEndpoint.
    by rewrite (bool_decide_eq_true_2 (onoffCap n = onoffCap n)), andb_false_r. }
  assert (Hdim : hasCapability (_removeEndpointCapabilities d n) (dimCap n) = false).
  { rewrite hasCapability_removeEndpoint.
    by rewrite (bool_decide_eq_true_2 (dimCap n = dimCap n)). }
  split_and!; try done.
  - intros c Hc1 Hc2. rewrite hasCapability_removeEndpoint.
    by rewrite (bool_decide_eq_false_2 (c = dimCap n)),
               (bool_decide_eq_false_2 (c = onoffCap n)).
  - intros args Hidx. unfold _handleEndpointIsOn, _handleEndpointDimCompare.
    rewrite Hidx, Hon, Hdim. simpl. split; by repeat case_match.
Qed.
End Vanished.

(** ** Discovery, endpoint by endpoint *)

Lemma register_fst rev node d n t :
  fst (_registerEndpointCapabilities rev node d n t) = register_outcome rev node n t.
Proof.
  unfold _registerEndpointCapabilities, register_outcome.
  destruct t; [| done]. by destruct (register_handler rev node (onoffCap n)).
Qed.

Lemma register_snd rev node d n t :
  snd (_registerEndpointCapabilities rev node d n t) = ensured rev d n t.
Proof.
  unfold _registerEndpointCapabilities, ensured.
  destruct t, rev; try done; by destruct (register_handler _ node (onoffCap n)).
Qed.

Lemma register_pair rev node d n t :
  _registerEndpointCapabilities rev node d n t = (register_outcome rev node n t, ensured rev d n t).
Proof.
  rewrite <- (register_fst rev node d), <- (register_snd rev node d).
  apply surjective_pairing.
Qed.

Lemma ensured_has rev d n t c :
  hasCapability (ensured rev d n t) c =
  hasCapability d c ||
  match rev with
  | device_js => false
  | queue_revision =>
    bool_decide (c = onoffCap n) || (bool_decide (t = DIMMER) && bool_decide (c = dimCap n))
  end.
Proof.
  unfold ensured. destruct rev, t; rewrite ?hasCapability_ensure; simpl;
    repeat case_bool_decide; simpl; try done; by rewrite ?orb_true_r, ?orb_false_r.
Qed.

Lemma ensured_same rev d n t :
  same_registry d (ensured rev d n t) /\ same_logs d (ensured rev d n t) /\
  capabilityValues (ensured rev d n t) = capabilityValues d.
Proof.
  unfold ensured, _ensureCapability. destruct rev, t; try done;
    by repeat destruct (negb _).
Qed.

(** [_discoverOneEndpoint] on a present endpoint, with the registration
    resolved. *)
Lemma discoverOne_unfold rev node d n e :
  _discoverOneEndpoint rev node d n (Some e) =
  match rev with
  | device_js =>
    if known d n then d
    else
      match _detectEndpointType e (CommandClass_or_empty e) with
      | None => mark_unsupported d n
      | Some t => if commits rev node n t then commit_type d n t else d
      end
  | queue_revision =>
    match _detectEndpointType e (CommandClass_or_empty e) with
    | None => mark_unsupported d n
    | Some t =>
      if known d n then ensured rev d n t
      else if commits rev node n t then commit_type (ensured rev d n t) n t
      else ensured rev d n t
    end
  end.
Proof.
  unfold _discoverOneEndpoint, commits. destruct rev.
  - destruct (known d n); [done |].
    destruct (_detectEndpointType _ _) as [t |]; [| done].
    rewrite register_pair. by destruct (register_outcome _ _ _ _).
  - destruct (_detectEndpointType _ _) as [t |]; [| done].
    rewrite register_pair. simpl.
    destruct (known d n); [done |]. by destruct (register_outcome _ _ _ _).
Qed.

Lemma mark_unsupported_spec d n :
  _endpointTypes (mark_unsupported d n) = <[n := None]> (_endpointTypes d) /\
  (forall c, hasCapability (mark_unsupported d n) c =
             negb (bool_decide (c = dimCap n)) && negb (bool_decide (c = onoffCap n))
             && hasCapability d c) /\
  storeWrites (mark_unsupported d n) = storeWrites d /\
  same_logs d (mark_unsupported d n) /\
  (forall c, c ≠ onoffCap n -> c ≠ dimCap n ->
             getCapabilityValue (mark_unsupported d n) c = getCapabilityValue d c).
Proof.
  unfold mark_unsupported. set (d1 := set_endpointTypes d _).
  destruct (removeEndpoint_same d1 n) as [[Hty Hst] Hlogs].
  split_and!; try done.
  - intros c. by rewrite hasCapability_removeEndpoint.
  - intros c Hon Hdim. by rewrite removeEndpoint_value.
Qed.

Lemma commit_type_spec d n t :
  _endpointTypes (commit_type d n t) = <[n := Some t]> (_endpointTypes d) /\
  capabilities (commit_type d n t) = capabilities d /\
  capabilityValues (commit_type d n t) = capabilityValues d /\
  same_logs d (commit_type d n t).
Proof. done. Qed.

Lemma known_local d n :
  known d n = match _endpointTypes d !! n with Some (Some _) => true | _ => false end.
Proof. done. Qed.

Lemma discoverOne_local rev node d n e :
  local (_discoverOneEndpoint rev node d n (Some e)) n = discover_local rev node n e (local d n).
Proof.
  rewrite discoverOne_unfold. unfold discover_local, local. rewrite <- known_local.
  assert (Hmark : local (mark_unsupported d n) n = (Some None, false, false)).
  { destruct (mark_unsupported_spec d n) as (Hty & Hcap & _). unfold local.
    rewrite Hty, !Hcap, lookup_insert_eq.
    rewrite (bool_decide_eq_true_2 (dimCap n = dimCap n)) by done.
    by rewrite (bool_decide_eq_true_2 (onoffCap n = onoffCap n)), andb_false_r by done. }
  assert (Hens : forall t,
    hasCapability (ensured queue_revision d n t) (onoffCap n) = true /\
    hasCapability (ensured queue_revision d n t) (dimCap n)
      = match t with DIMMER => true | SWITCH => hasCapability d (dimCap n) end).
  { intros t. rewrite !ensured_has.
    rewrite (bool_decide_eq_true_2 (onoffCap n = onoffCap n)) by done.
    rewrite (bool_decide_eq_true_2 (dimCap n = dimCap n)) by done.
    rewrite (bool_decide_eq_false_2 (dimCap n = onoffCap n)) by cap_neq.
    split; [by rewrite orb_true_r |]. destruct t; simpl; by rewrite ?orb_true_r, ?orb_false_r. }
  destruct rev.
  - destruct (known d n); [done |].
    destruct (_detectEndpointType _ _) as [t |]; [| exact Hmark].
    destruct (commits _ _ _ _); [| done].
    unfold local, hasCapability. simpl. by rewrite lookup_insert_eq.
  - destruct (_detectEndpointType _ _) as [t |]; [| exact Hmark].
    destruct (Hens t) as [Hon Hdim].
    destruct (ensured_same queue_revision d n t) as [[Hty _] _].
    destruct (known d n); [by unfold local; rewrite Hty, Hon, Hdim |].
    destruct (commits _ _ _ _); [| by unfold local; rewrite Hty, Hon, Hdim].
    destruct (commit_type_spec (ensured queue_revision d n t) n t) as (Hcty & Hccap & _).
    unfold local. by rewrite Hcty, lookup_insert_eq, !(hasCapability_ext _ _ _ Hccap), Hon, Hdim.
Qed.

Lemma discoverOne_other rev node d n ep :
  let d' := _discoverOneEndpoint rev node d n ep in
  (forall m, m ≠ n -> _endpointTypes d' !! m = _endpointTypes d !! m) /\
  (forall c, c ≠ onoffCap n -> c ≠ dimCap n ->
     hasCapability d' c = hasCapability d c /\
     getCapabilityValue d' c = getCapabilityValue d c) /\
  same_logs d d'.
Proof.
  intros d'. subst d'. destruct ep as [e |]; [| done].
  rewrite discoverOne_unfold.
  assert (Hkeep : forall d0 : device,
    (forall m, m ≠ n -> _endpointTypes d0 !! m = _endpointTypes d !! m) /\
    (forall c, c ≠ onoffCap n -> c ≠ dimCap n ->
       hasCapability d0 c = hasCapability d c /\
       getCapabilityValue d0 c = getCapabilityValue d c) /\
    same_logs d d0 ->
    forall t,
    (forall m, m ≠ n -> _endpointTypes (commit_type d0 n t) !! m = _endpointTypes d !! m) /\
    (forall c, c ≠ onoffCap n -> c ≠ dimCap n ->
       hasCapability (commit_type d0 n t) c = hasCapability d c /\
       getCapabilityValue (commit_type d0 n t) c = getCapabilityValue d c) /\
    same_logs d (commit_type d0 n t)).
  { intros d0 (Hty & Hcap & Hlogs) t. split_and!.
    - intros m Hm. simpl. rewrite lookup_insert_ne by done. by apply Hty.
    - intros c H1 H2. by apply Hcap.
    - exact Hlogs. }
  assert (Hmark :
    (forall m, m ≠ n -> _endpointTypes (mark_unsupported d n) !! m = _endpointTypes d !! m) /\
    (forall c, c ≠ onoffCap n -> c ≠ dimCap n ->
       hasCapability (mark_unsupported d n) c = hasCapability d c /\
       getCapabilityValue (mark_unsupported d n) c = getCapabilityValue d c) /\
    same_logs d (mark_unsupported d n)).
  { destruct (mark_unsupported_spec d n) as (Hty & Hcap & _ & Hlogs & Hval).
    split_and!; [| | done].
    - intros m Hm. by rewrite Hty, lookup_insert_ne.
    - intros c H1 H2. rewrite Hcap, Hval by done.
      by rewrite (bool_decide_eq_false_2 (c = dimCap n)),
                 (bool_decide_eq_false_2 (c = onoffCap n)). }
  assert (Hens : forall rev t,
    (forall m, m ≠ n -> _endpointTypes (ensured rev d n t) !! m = _endpointTypes d !! m) /\
    (forall c, c ≠ onoffCap n -> c ≠ dimCap n ->
       hasCapability (ensured rev d n t) c = hasCapability d c /\
       getCapabilityValue (ensured rev d n t) c = getCapabilityValue d c) /\
    same_logs d (ensured rev d n t)).
  { intros rev' t. destruct (ensured_same rev' d n t) as ([Hty _] & Hlogs & Hval).
    split_and!; [by intros; rewrite Hty | | done].
    intros c H1 H2. split; [| by apply getCapabilityValue_ext].
    rewrite ensured_has. destruct rev'; [by rewrite orb_false_r |].
    rewrite (bool_decide_eq_false_2 (c = onoffCap n)),
            (bool_decide_eq_false_2 (c = dimCap n)) by done.
    by rewrite andb_false_r, orb_false_r. }
  assert (Hsame :
    (forall m, m ≠ n -> _endpointTypes d !! m = _endpointTypes d !! m) /\
    (forall c, c ≠ onoffCap n -> c ≠ dimCap n ->
       hasCapability d c = hasCapability d c /\
       getCapabilityValue d c = getCapabilityValue d c) /\
    same_logs d d) by done.
  destruct rev.
  - destruct (known d n); [done |].
    destruct (_detectEndpointType _ _) as [t |]; [| done].
    destruct (commits _ _ _ _); [by apply Hkeep | done].
  - destruct (_detectEndpointType _ _) as [t |]; [| done].
    destruct (known d n); [by apply Hens |].
    destruct (commits _ _ _ _); [by apply Hkeep, Hens | by apply Hens].
Qed.

Lemma discover_step_is_local rev node d n :
  local (discover_step rev node d n) n = discover_step_local rev node n (local d n).
Proof.
  unfold discover_step, discover_step_local. destruct (n <? 1)%N; [done |].
  destruct (MultiChannelNodes node !! n) as [e |]; [apply discoverOne_local | done].
Qed.

Lemma discover_step_other rev node d n :
  let d' := discover_step rev node d n in
  (forall m, m ≠ n -> _endpointTypes d' !! m = _endpointTypes d !! m) /\
  (forall c, c ≠ onoffCap n -> c ≠ dimCap n ->
     hasCapability d' c = hasCapability d c /\
     getCapabilityValue d' c = getCapabilityValue d c) /\
  same_logs d d'.
Proof.
  unfold discover_step. destruct (n <? 1)%N; [done |]. apply discoverOne_other.
Qed.

Lemma discover_step_local_other rev node d n m :
  m ≠ n -> local (discover_step rev node d n) m = local d m.
Proof.
  intros Hne. destruct (discover_step_other rev node d n) as (Hty & Hcap & _).
  unfold local. rewrite Hty by done.
  destruct (Hcap (onoffCap m)) as [-> _]; [cap_neq .. |].
  by destruct (Hcap (dimCap m)) as [-> _]; [cap_neq .. |].
Qed.

Lemma discover_fold_other rev node (l : list N) d :
  let d' := foldl (discover_step rev node) d l in
  (forall m, m ∉ l -> local d' m = local d m) /\
  (forall c, ~ control_of l c ->
     hasCapability d' c = hasCapability d c /\
     getCapabilityValue d' c = getCapabilityValue d c) /\
  same_logs d d'.
Proof.
  revert d. induction l as [| n l IH]; intros d; simpl; [done |].
  destruct (IH (discover_step rev node d n)) as (Hloc & Hcap & [Hw Ht]).
  destruct (discover_step_other rev node d n) as (_ & Hcap1 & [Hw1 Ht1]).
  split_and!.
  - intros m [Hne Hm]%not_elem_of_cons. rewrite Hloc by done.
    by apply discover_step_local_other.
  - intros c Hc. unfold control_of in Hc. rewrite Exists_cons in Hc.
    destruct (Hcap c) as [-> ->]; [by intros ?; apply Hc; right |].
    apply Hcap1; intros ->; apply Hc; left; auto.
  - split; congruence.
Qed.

Lemma discover_fold_local rev node (l : list N) d n :
  NoDup l -> n ∈ l ->
  local (foldl (discover_step rev node) d l) n = discover_step_local rev node n (local d n).
Proof.
  revert d. induction l as [| m l IH]; intros d Hnodup Hn; [by apply elem_of_nil in Hn |].
  apply NoDup_cons in Hnodup as [Hm Hnodup]. simpl.
  destruct (decide (n = m)) as [-> | Hne].
  - destruct (discover_fold_other rev node l (discover_step rev node d m)) as (Hloc & _).
    rewrite Hloc by done. apply discover_step_is_local.
  - apply elem_of_cons in Hn as [? | Hn]; [done |].
    rewrite IH by done. by rewrite discover_step_local_other.
Qed.

Lemma discover_local_idem rev node n e l :
  discover_local rev node n e (discover_local rev node n e l) = discover_local rev node n e l.
Proof.
  unfold discover_local. destruct l as [[ot onoff] dim].
  generalize (commits rev node n). intros cm.
  destruct rev, (_detectEndpointType e (CommandClass_or_empty e)) as [t |];
    destruct ot as [[t' |] |]; try done;
    destruct (cm t) eqn:Hc; simpl; rewrite ?Hc; try done; by destruct t.
Qed.

Lemma discover_step_local_idem rev node n l :
  discover_step_local rev node n (discover_step_local rev node n l)
  = discover_step_local rev node n l.
Proof.
  unfold discover_step_local. destruct (n <? 1)%N; [done |].
  destruct (MultiChannelNodes node !! n); [apply discover_local_idem | done].
Qed.

Lemma discoverAll_nonempty rev node d :
  MultiChannelNodes node ≠ ∅ ->
  _discoverAllEndpoints rev node d
  = foldl (discover_step rev node) d (Object_keys (MultiChannelNodes node)).
Proof.
  intros Hne. unfold _discoverAllEndpoints.
  destruct (Nat.eqb_spec (length (Object_keys (MultiChannelNodes node))) 0) as [Hlen | _];
    [| done].
  exfalso. apply Hne. apply nil_length_inv in Hlen. apply map_eq. intros n.
  rewrite lookup_empty. apply eq_None_not_Some. rewrite <- elem_of_Object_keys, Hlen.
  apply not_elem_of_nil.
Qed.

Lemma discoverAll_local rev node d n :
  MultiChannelNodes node ≠ ∅ ->
  local (_discoverAllEndpoints rev node d) n = discover_step_local rev node n (local d n).
Proof.
  intros Hne. rewrite discoverAll_nonempty by done.
  destruct (decide (n ∈ Object_keys (MultiChannelNodes node))) as [Hin | Hout].
  - apply discover_fold_local; [apply NoDup_Object_keys | done].
  - destruct (discover_fold_other rev node (Object_keys (MultiChannelNodes node)) d)
      as (Hloc & _).
    rewrite Hloc by done. unfold discover_step_local.
    rewrite elem_of_Object_keys, <- eq_None_not_Some in Hout. rewrite Hout.
    by destruct (n <? 1)%N.
Qed.

Lemma removeIfPresent_fold (l : list string) d :
  let d' := foldl _removeIfPresent d l in
  capabilities d' = capabilities d ∖ list_to_set l /\
  same_registry d d' /\ same_logs d d' /\
  (forall c, c ∉ l -> getCapabilityValue d' c = getCapabilityValue d c).
Proof.
  revert d. induction l as [| c l IH]; intros d; simpl.
  - split_and!; try done. set_solver.
  - destruct (IH (_removeIfPresent d c)) as (Hcap & [Hty Hst] & [Hw Ht] & Hval).
    destruct (removeIfPresent_same d c) as [[Hty1 Hst1] [Hw1 Ht1]].
    split_and!; try congruence.
    + rewrite Hcap, removeIfPresent_capabilities. set_solver.
    + split; congruence.
    + split; congruence.
    + intros c' [Hne Hc']%not_elem_of_cons. rewrite Hval by done.
      by apply removeIfPresent_value.
Qed.

Lemma cleanupAll_spec node d :
  let d' := _cleanupAllEndpoints node d in
  _endpointTypes d' = ∅ /\
  storeWrites d' = storeWrites d ++ [∅] /\
  capabilities d' = capabilities d ∖ list_to_set (manifest_endpoint_caps node) /\
  same_logs d d'.
Proof.
  unfold _cleanupAllEndpoints. fold (manifest_endpoint_caps node).
  set (d0 := setStoreValue (set_endpointTypes d ∅)).
  destruct (removeIfPresent_fold (manifest_endpoint_caps node) d0)
    as (Hcap & [Hty Hst] & Hlogs & _).
  split_and!; try done.
Qed.

Lemma discoverAll_empty rev node d :
  MultiChannelNodes node = ∅ -> _discoverAllEndpoints rev node d = _cleanupAllEndpoints node d.
Proof.
  intros Hempty. unfold _discoverAllEndpoints, Object_keys. rewrite Hempty.
  by rewrite dom_empty_L, elements_empty.
Qed.

Lemma local_eq d d' n :
  local d' n = local d n <->
  _endpointTypes d' !! n = _endpointTypes d !! n /\
  hasCapability d' (onoffCap n) = hasCapability d (onoffCap n) /\
  hasCapability d' (dimCap n) = hasCapability d (dimCap n).
Proof. unfold local. split; [by intros [= -> -> ->] | by intros (-> & -> & ->)]. Qed.

(** X8. A discovery pass over a non-empty topology judges every endpoint
    on its own: the registry entry and the two controls of endpoint [n]
    after the whole pass are those that discovering [n] alone would
    leave, whatever the other endpoints are and whatever happens to
    them. *)
Theorem X8_discovery_is_pointwise rev node d n :
  MultiChannelNodes node ≠ ∅ ->
  let d' := _discoverAllEndpoints rev node d in
  let alone := discover_step rev node d n in
  _endpointTypes d' !! n = _endpointTypes alone !! n /\
  hasCapability d' (onoffCap n) = hasCapability alone (onoffCap n) /\
  hasCapability d' (dimCap n) = hasCapability alone (dimCap n).
Proof.
  intros Hne d' alone. apply local_eq. subst d' alone.
  by rewrite discoverAll_local, discover_step_is_local.
Qed.

(** X9. Discovery does not reclassify. In [device.js] an endpoint that
    has a type keeps it through any pass over a non-empty topology. In
    the revision with the queue it keeps it as well, even when its
    descriptor now matches the other type, unless the descriptor
    matches neither type: then the entry becomes [null]. *)
Theorem X9_classified_type_survives rev node d n t :
  MultiChannelNodes node ≠ ∅ ->
  _endpointTypes d !! n = Some (Some t) ->
  _endpointTypes (_discoverAllEndpoints rev node d) !! n =
  match rev, MultiChannelNodes node !! n with
  | queue_revision, Some e =>
    if (n <? 1)%N then Some (Some t)
    else match _detectEndpointType e (CommandClass_or_empty e) with
         | Some _ => Some (Some t)
         | None => Some None
         end
  | _, _ => Some (Some t)
  end.
Proof.
  intros Hne Hty.
  pose proof (discoverAll_local rev node d n Hne) as Hloc.
  unfold local, discover_step_local, discover_local in Hloc. rewrite Hty in Hloc.
  destruct (n <? 1)%N.
  { injection Hloc as -> _ _. by destruct rev, (MultiChannelNodes node !! n). }
  destruct (MultiChannelNodes node !! n) as [e |].
  - destruct rev.
    + by injection Hloc as -> _ _.
    + destruct (_detectEndpointType e _); by injection Hloc as -> _ _.
  - injection Hloc as -> _ _. by destruct rev.
Qed.

(** ** Capability ids and endpoint numbers *)

Lemma string_app_cons a (s t : string) : String a s +:+ t = String a (s +:+ t).
Proof. reflexivity. Qed.

Lemma string_app_nil_l (t : string) : "" +:+ t = t.
Proof. reflexivity. Qed.

Lemma string_app_assoc (s1 s2 s3 : string) : (s1 +:+ s2) +:+ s3 = s1 +:+ (s2 +:+ s3).
Proof.
  induction s1 as [| a s1 IH]; [done |]. rewrite !string_app_cons. by f_equal.
Qed.

Lemma string_app_nil_r (s : string) : s +:+ "" = s.
Proof. induction s as [| a s IH]; [done |]. rewrite string_app_cons. by f_equal. Qed.

Lemma rev_app_acc s acc : String.rev_app s acc = String.rev_app s "" +:+ acc.
Proof.
  revert acc. induction s as [| a s IH]; intros acc; simpl; [done |].
  rewrite (IH (String a acc)), (IH (String a "")).
  by rewrite string_app_assoc.
Qed.

Lemma rev_app_app s1 s2 acc :
  String.rev_app (s1 +:+ s2) acc = String.rev_app s2 (String.rev_app s1 acc).
Proof.
  revert acc. induction s1 as [| a s1 IH]; intros acc; [done |].
  rewrite string_app_cons. simpl. apply IH.
Qed.

Lemma rev_append s1 s2 : String.rev (s1 +:+ s2) = String.rev s2 +:+ String.rev s1.
Proof. unfold String.rev. by rewrite rev_app_app, rev_app_acc. Qed.

Lemma rev_app_rev_app s acc acc' :
  String.rev_app (String.rev_app s acc) acc' = String.rev_app acc (s +:+ acc').
Proof.
  revert acc acc'. induction s as [| a s IH]; intros acc acc'; [done |].
  simpl. by rewrite IH.
Qed.

Lemma rev_involutive s : String.rev (String.rev s) = s.
Proof.
  unfold String.rev. rewrite rev_app_rev_app. simpl. apply string_app_nil_r.
Qed.

Lemma all_digits_rev_app s acc :
  all_digits (String.rev_app s acc) = all_digits s && all_digits acc.
Proof.
  revert acc. induction s as [| a s IH]; intros acc; simpl; [done |].
  rewrite IH. simpl. by destruct (is_digit a), (all_digits s).
Qed.

Lemma all_digits_rev s : all_digits (String.rev s) = all_digits s.
Proof. unfold String.rev. by rewrite all_digits_rev_app, andb_true_r. Qed.

Lemma span_digits_all ds rest :
  all_digits ds = true ->
  match rest with String c _ => is_digit c = false | EmptyString => True end ->
  span_digits (ds +:+ rest) = (ds, rest).
Proof.
  intros Hds Hrest. induction ds as [| a ds IH].
  - rewrite string_app_nil_l. destruct rest as [| c rest]; [done |]. simpl. by rewrite Hrest.
  - simpl in Hds. apply andb_true_iff in Hds as [Ha Hds].
    rewrite string_app_cons. simpl. by rewrite Ha, IH.
Qed.

Lemma parseInt_digits_acc (l : list Ascii.ascii) (a : N) :
  foldl (fun acc c => (10 * acc + N.of_nat (Ascii.nat_of_ascii c - 48))%N) a l
  = (a * 10 ^ N.of_nat (length l)
     + foldl (fun acc c => (10 * acc + N.of_nat (Ascii.nat_of_ascii c - 48))%N) 0 l)%N.
Proof.
  revert a. induction l as [| c l IH]; intros a.
  - simpl. lia.
  - cbn [foldl length]. rewrite (IH (10 * a + _)%N), (IH (10 * 0 + _)%N).
    rewrite Nat2N.inj_succ, N.pow_succ_r'. lia.
Qed.

Lemma parseInt_digits_cons c s :
  parseInt_digits (String c s)
  = (N.of_nat (Ascii.nat_of_ascii c - 48) * 10 ^ N.of_nat (String.length s)
     + parseInt_digits s)%N.
Proof.
  assert (Hlen : length (String.list_ascii_of_string s) = String.length s).
  { induction s as [| a s IH]; simpl; [done | by rewrite IH]. }
  unfold parseInt_digits. cbn [String.list_ascii_of_string foldl].
  rewrite parseInt_digits_acc, Hlen. lia.
Qed.

Lemma pretty_N_char_digit k :
  (k < 10)%N ->
  is_digit (pretty_N_char k) = true /\
  N.of_nat (Ascii.nat_of_ascii (pretty_N_char k) - 48) = k.
Proof.
  intros Hk.
  assert (k = 0 \/ k = 1 \/ k = 2 \/ k = 3 \/ k = 4 \/ k = 5 \/ k = 6 \/ k = 7
          \/ k = 8 \/ k = 9)%N as Hcases by lia.
  repeat (destruct Hcases as [-> | Hcases]; [by vm_compute |]). subst. by vm_compute.
Qed.

Lemma pretty_N_go_digits x s :
  all_digits s = true ->
  all_digits (pretty_N_go x s) = true /\
  parseInt_digits (pretty_N_go x s)
  = (x * 10 ^ N.of_nat (String.length s) + parseInt_digits s)%N.
Proof.
  revert s. induction (N.lt_wf_0 x) as [x _ IH]; intros s Hs.
  assert (x = 0 \/ 0 < x)%N as [-> | Hpos] by lia.
  - rewrite pretty_N_go_0. split; [done | lia].
  - rewrite pretty_N_go_step by done.
    destruct (pretty_N_char_digit (x `mod` 10)) as [Hdigit Hvalue].
    { by apply N.mod_lt. }
    destruct (IH (x `div` 10)%N) with (s := String (pretty_N_char (x `mod` 10)) s)
      as [Hall Hparse].
    { by apply N.div_lt. }
    { simpl. by rewrite Hdigit, Hs. }
    split; [done |]. rewrite Hparse, parseInt_digits_cons, Hvalue.
    cbn [String.length]. rewrite Nat2N.inj_succ, N.pow_succ_r'.
    rewrite (N.div_mod x 10) at 3 by done. lia.
Qed.

Lemma pretty_digits (n : N) :
  all_digits (pretty n) = true /\ parseInt_digits (pretty n) = n /\ pretty n ≠ "".
Proof.
  unfold pretty, pretty_N. case_decide as Hn; [by subst |].
  destruct (pretty_N_go_digits n "") as [Hall Hparse]; [done |].
  split_and!; [done | rewrite Hparse; simpl; unfold parseInt_digits; simpl; lia |].
  rewrite pretty_N_go_step by lia. intros Hempty.
  assert (Hlen : forall x s, (String.length s <= String.length (pretty_N_go x s))%nat).
  { clear. intros x. induction (N.lt_wf_0 x) as [x _ IH]; intros s.
    assert (x = 0 \/ 0 < x)%N as [-> | ?] by lia; [by rewrite pretty_N_go_0 |].
    rewrite pretty_N_go_step by done.
    etrans; [| by eapply IH, N.div_lt]. simpl. lia. }
  specialize (Hlen (n `div` 10)%N (String (pretty_N_char (n `mod` 10)) "")).
  rewrite Hempty in Hlen. simpl in Hlen. lia.
Qed.

Lemma match_endpoint_cap_suffix prefix n p :
  String.rev prefix = "pe." +:+ p ->
  match_endpoint_cap (prefix +:+ pretty n) = Some n.
Proof.
  intros Hp. destruct (pretty_digits n) as (Hall & Hparse & Hne).
  unfold match_endpoint_cap. rewrite rev_append, Hp.
  rewrite span_digits_all; [| by rewrite all_digits_rev | reflexivity].
  rewrite rev_involutive, Hparse.
  assert (String.rev (pretty n) ≠ "") as Hrev.
  { intros Hrev. apply Hne. by rewrite <- (rev_involutive (pretty n)), Hrev. }
  assert (Hprefix : String.prefix "pe." ("pe." +:+ p) = true) by (by destruct p).
  rewrite Hprefix. by destruct (String.rev (pretty n)).
Qed.

Lemma property_index_number (n : N) :
  (n < 10 ^ 21)%N -> property_index (VNum (Fin (inject_Z (Z.of_N n)))) = Some n.
Proof.
  intros Hn. unfold property_index. simpl.
  rewrite Z.mod_1_r, Z.div_1_r. rewrite bool_decide_eq_true_2 by lia.
  by rewrite N2Z.id.
Qed.

(** X10. For an endpoint number [n] below 2^53, where the numerals the
    driver builds and the numbers it parses are exact, the number read
    out of a capability id is the one the id was built from:
    [/\.ep(\d+)$/] and [parseInt] recover [n] from both [onoff.ep<n>]
    and [dim.ep<n>]; and a flow argument that gives the endpoint id as
    the numeral string names the same registry entry as the number. *)
Theorem X10_capability_id_round_trip n :
  (n < 2 ^ 53)%N ->
  match_endpoint_cap (onoffCap n) = Some n /\
  match_endpoint_cap (dimCap n) = Some n /\
  property_index (VStr (pretty n)) = Some n /\
  property_index (VNum (Fin (inject_Z (Z.of_N n)))) = Some n.
Proof.
  intros Hsafe. destruct (pretty_digits n) as (Hall & Hparse & Hne).
  split_and!.
  - by apply (match_endpoint_cap_suffix "onoff.ep" n "ffono").
  - by apply (match_endpoint_cap_suffix "dim.ep" n "mid").
  - unfold property_index.
    rewrite <- (string_app_nil_r (pretty n)) at 1.
    rewrite span_digits_all by done. by rewrite Hparse, !String.eqb_refl.
  - apply property_index_number. lia.
Qed.

Lemma X10_witness :
  match_endpoint_cap "onoff.ep12" = Some 12%N /\
  match_endpoint_cap "dim.ep12" = Some 12%N /\
  property_index (VStr "12") = Some 12%N /\
  property_index (VNum (Fin 12)) = Some 12%N.
Proof. apply (X10_capability_id_round_trip 12). by vm_compute. Defined.

(** ** Discovery passes *)

Lemma control_of_dec (l : list N) (c : string) : Decision (control_of l c).
Proof. unfold control_of. apply Exists_dec. intros m. apply _. Qed.

Lemma discoverAll_logs rev node d : same_logs d (_discoverAllEndpoints rev node d).
Proof.
  destruct (decide (MultiChannelNodes node = ∅)) as [Hempty | Hne].
  - rewrite discoverAll_empty by done. apply cleanupAll_spec.
  - rewrite discoverAll_nonempty by done. apply discover_fold_other.
Qed.

(** X11. Discovery is idempotent on what it owns: a second pass over
    the same topology, with the same registration outcomes, leaves the
    registry and the set of controls exactly as the first pass left
    them; and no pass fires a trigger card or writes a capability
    value. *)
Theorem X11_discovery_is_idempotent rev node d :
  let once := _discoverAllEndpoints rev node d in
  let twice := _discoverAllEndpoints rev node once in
  _endpointTypes twice = _endpointTypes once /\
  capabilities twice = capabilities once /\
  triggers twice = triggers d /\ valueWrites twice = valueWrites d.
Proof.
  intros once twice.
  pose proof (discoverAll_logs rev node d) as [Hw1 Ht1]. fold once in Hw1, Ht1.
  pose proof (discoverAll_logs rev node once) as [Hw2 Ht2]. fold twice in Hw2, Ht2.
  split_and!; [| | congruence | congruence].
  - destruct (decide (MultiChannelNodes node = ∅)) as [Hempty | Hne].
    + subst twice. rewrite discoverAll_empty by done.
      destruct (cleanupAll_spec node once) as (-> & _).
      subst once. rewrite discoverAll_empty by done.
      by destruct (cleanupAll_spec node d) as (-> & _).
    + apply map_eq. intros n.
      pose proof (discoverAll_local rev node once n Hne) as Hloc2.
      pose proof (discoverAll_local rev node d n Hne) as Hloc1.
      fold once in Hloc1. fold twice in Hloc2.
      rewrite Hloc1, discover_step_local_idem, <- Hloc1 in Hloc2.
      by apply local_eq in Hloc2 as [? _].
  - destruct (decide (MultiChannelNodes node = ∅)) as [Hempty | Hne].
    + subst twice. rewrite discoverAll_empty by done.
      destruct (cleanupAll_spec node once) as (_ & _ & -> & _).
      subst once. rewrite discoverAll_empty by done.
      destruct (cleanupAll_spec node d) as (_ & _ & -> & _). set_solver.
    + apply set_eq. intros c. rewrite <- !hasCapability_true.
      cut (hasCapability twice c = hasCapability once c); [by intros -> |].
      destruct (control_of_dec (Object_keys (MultiChannelNodes node)) c) as [Hc | Hc].
      * apply Exists_exists in Hc as (m & _ & Hm).
        pose proof (discoverAll_local rev node once m Hne) as Hloc2.
        pose proof (discoverAll_local rev node d m Hne) as Hloc1.
        fold once in Hloc1. fold twice in Hloc2.
        rewrite Hloc1, discover_step_local_idem, <- Hloc1 in Hloc2.
        apply local_eq in Hloc2 as (_ & Hon & Hdim). by destruct Hm as [-> | ->].
      * subst twice. rewrite discoverAll_nonempty by done.
        by destruct (discover_fold_other rev node (Object_keys (MultiChannelNodes node)) once)
          as (_ & Hcap & _); destruct (Hcap c Hc) as [-> _].
Qed.

Lemma match_onoffCap n : match_endpoint_cap (onoffCap n) = Some n.
Proof. by apply (match_endpoint_cap_suffix "onoff.ep" n "ffono"). Qed.

Lemma match_dimCap n : match_endpoint_cap (dimCap n) = Some n.
Proof. by apply (match_endpoint_cap_suffix "dim.ep" n "mid"). Qed.

(** X12. An empty topology is a full reset: the registry is emptied and
    persisted empty, and every endpoint control the manifest declares
    is removed. A control the manifest does not declare stays, and so
    does every capability that is not an endpoint control. *)
Theorem X12_empty_topology_resets rev node d :
  MultiChannelNodes node = ∅ ->
  let d' := _discoverAllEndpoints rev node d in
  _endpointTypes d' = ∅ /\
  last (storeWrites d') = Some ∅ /\
  (forall n, onoffCap n ∈ manifest_capabilities node -> hasCapability d' (onoffCap n) = false) /\
  (forall n, dimCap n ∈ manifest_capabilities node -> hasCapability d' (dimCap n) = false) /\
  (forall c, c ∉ manifest_capabilities node \/ match_endpoint_cap c = None ->
             hasCapability d' c = hasCapability d c).
Proof.
  intros Hempty d'. subst d'. rewrite discoverAll_empty by done.
  destruct (cleanupAll_spec node d) as (Hty & Hst & Hcap & _).
  assert (Hin : forall c, c ∈ manifest_endpoint_caps node <->
            is_Some (match_endpoint_cap c) /\ c ∈ manifest_capabilities node).
  { intros c. unfold manifest_endpoint_caps.
    apply (list_elem_of_filter (fun id => is_Some (match_endpoint_cap id))). }
  assert (Hgone : forall c, is_Some (match_endpoint_cap c) -> c ∈ manifest_capabilities node ->
            hasCapability (_cleanupAllEndpoints node d) c = false).
  { intros c Hmatch Hc. apply hasCapability_false. rewrite Hcap.
    intros [_ Hnot]%elem_of_difference. apply Hnot, elem_of_list_to_set, Hin. done. }
  split_and!; [done | by rewrite Hst, last_snoc | | |].
  - intros n Hn. apply Hgone; [| done].
    by rewrite match_onoffCap.
  - intros n Hn. apply Hgone; [| done].
    by rewrite match_dimCap.
  - intros c Hc. unfold hasCapability. rewrite Hcap. apply bool_decide_ext.
    rewrite elem_of_difference, elem_of_list_to_set, Hin.
    split; [by intros [? _] | intros Hd; split; [done |]].
    intros [Hmatch Hman]. destruct Hc as [Hc | Hc]; [done |].
    rewrite Hc in Hmatch. by destruct Hmatch.
Qed.

Lemma X8_witness :
  let node := node_of {[1%N := binary_endpoint None; 2%N := multilevel_endpoint None]} [] in
  let d := Device ∅ ∅ ∅ [] [] [] in
  let d' := _discoverAllEndpoints device_js node d in
  let alone := discover_step device_js node d 2 in
  _endpointTypes d' !! 2%N = _endpointTypes alone !! 2%N /\
  hasCapability d' (onoffCap 2) = hasCapability alone (onoffCap 2) /\
  hasCapability d' (dimCap 2) = hasCapability alone (dimCap 2).
Proof.
  intros node d.
  apply (X8_discovery_is_pointwise device_js node d 2).
  intros Hempty. apply (f_equal (fun m => m !! 1%N)) in Hempty. discriminate Hempty.
Defined.

Lemma X9_witness :
  let node := node_of {[1%N := binary_endpoint None; 2%N := multilevel_endpoint None]} [] in
  let d := Device {[1%N := Some DIMMER]} ∅ ∅ [] [] [] in
  _endpointTypes (_discoverAllEndpoints queue_revision node d) !! 1%N = Some (Some DIMMER).
Proof.
  intros node d.
  apply (X9_classified_type_survives queue_revision node d 1 DIMMER).
  - intros Hempty. apply (f_equal (fun m => m !! 1%N)) in Hempty. discriminate Hempty.
  - reflexivity.
Defined.

Lemma X12_witness :
  let node := node_of ∅ ["onoff"; "onoff.ep1"; "dim.ep1"] in
  let d := Device {[1%N := Some DIMMER]} {["onoff"; onoffCap 1; dimCap 1; onoffCap 2]}
                  ∅ [] [] [] in
  let d' := _discoverAllEndpoints device_js node d in
  _endpointTypes d' = ∅ /\
  hasCapability d' (onoffCap 1) = false /\
  hasCapability d' (onoffCap 2) = hasCapability d (onoffCap 2) /\
  hasCapability d' "onoff" = hasCapability d "onoff".
Proof.
  intros node d d'.
  destruct (X12_empty_topology_resets device_js node d eq_refl)
    as (Hty & _ & Hon & _ & Hkeep).
  split_and!.
  - exact Hty.
  - apply Hon. apply (bool_decide_unpack _). by vm_compute.
  - apply Hkeep. left. apply (bool_decide_unpack _). by vm_compute.
  - apply Hkeep. by right.
Defined.

(** ** The orphan sweep *)

Lemma cleanupOrphans_unfold node d :
  _cleanupOrphanedEndpoints node d =
  if (maxManifestEndpoint node =? 0)%N then d
  else foldl sweep_step d (N.of_nat <$> seq 1 (N.to_nat (maxManifestEndpoint node))).
Proof. reflexivity. Qed.

Lemma maxManifest_fold (l : list string) (m0 : N) :
  let M := foldl (fun m capId =>
                    match match_endpoint_cap capId with
                    | Some endpointNum => if (m <? endpointNum)%N then endpointNum else m
                    | None => m
                    end) m0 l in
  (m0 <= M)%N /\
  (forall c m, c ∈ l -> match_endpoint_cap c = Some m -> (m <= M)%N) /\
  (M = m0 \/ exists c, c ∈ l /\ match_endpoint_cap c = Some M).
Proof.
  revert m0. induction l as [| c l IH]; intros m0; simpl.
  - split_and!; [lia | | by left]. intros c m Hc. by apply elem_of_nil in Hc.
  - set (m1 := match match_endpoint_cap c with
               | Some endpointNum => if (m0 <? endpointNum)%N then endpointNum else m0
               | None => m0
               end).
    destruct (IH m1) as (Hle & Hall & Hwit).
    assert (Hm1 : (m0 <= m1)%N /\ (forall m, match_endpoint_cap c = Some m -> (m <= m1)%N) /\
                  (m1 = m0 \/ match_endpoint_cap c = Some m1)).
    { subst m1. destruct (match_endpoint_cap c) as [k |].
      - destruct (N.ltb_spec m0 k).
        + split_and!; [lia | intros m [= ->]; lia | by right].
        + split_and!; [lia | intros m [= ->]; lia | by left].
      - split_and!; [lia | done | by left]. }
    destruct Hm1 as (Hm01 & Hc & Hm1).
    split_and!.
    + lia.
    + intros c' m [-> | Hin]%elem_of_cons Hm.
      * specialize (Hc m Hm). lia.
      * by apply (Hall c').
    + destruct Hwit as [-> | (c' & Hin & Hm)].
      * destruct Hm1 as [-> | Hm1]; [by left |].
        right. exists c. split; [by left | done].
      * right. exists c'. split; [by right | done].
Qed.

Lemma sweep_step_spec d i :
  let d' := sweep_step d i in
  _endpointTypes d' = _endpointTypes d /\ storeWrites d' = storeWrites d /\
  same_logs d d' /\
  (forall c, hasCapability d' c = true <->
             hasCapability d c = true /\ ~ (orphaned d i /\ (c = onoffCap i \/ c = dimCap i))) /\
  (forall c, c ≠ onoffCap i -> c ≠ dimCap i ->
             getCapabilityValue d' c = getCapabilityValue d c).
Proof.
  unfold sweep_step, orphaned. case_bool_decide as Horph.
  - destruct (hasCapability d (onoffCap i) || hasCapability d (dimCap i)) eqn:Hhas.
    + destruct (removeEndpoint_same d i) as [[Hty Hst] Hlogs].
      split_and!; try done.
      * intros c. rewrite hasCapability_removeEndpoint.
        do 2 case_bool_decide; destruct (hasCapability d c); simpl; naive_solver.
      * intros c Hon Hdim. by apply removeEndpoint_value.
    + apply orb_false_iff in Hhas as [Hon Hdim].
      split_and!; try done. intros c. split; [| by intros [? _]].
      intros Hc. split; [done |]. intros [_ [-> | ->]]; congruence.
  - split_and!; try done. intros c. naive_solver.
Qed.

Lemma sweep_fold_spec l : forall d,
  let d' := foldl sweep_step d l in
  _endpointTypes d' = _endpointTypes d /\ storeWrites d' = storeWrites d /\
  same_logs d d' /\
  (forall c, hasCapability d' c = true <->
             hasCapability d c = true /\
             ~ exists i, i ∈ l /\ orphaned d i /\ (c = onoffCap i \/ c = dimCap i)) /\
  (forall c, ~ control_of l c -> getCapabilityValue d' c = getCapabilityValue d c).
Proof.
  induction l as [| i l IH]; intros d; simpl.
  - split_and!; try done.
    intros c. split; [| by intros [? _]]. intros Hc. split; [done |].
    intros (i & Hi & _). by apply elem_of_nil in Hi.
  - destruct (sweep_step_spec d i) as (Hty1 & Hst1 & [Hw1 Ht1] & Hcap1 & Hval1).
    destruct (IH (sweep_step d i)) as (Hty & Hst & [Hw Ht] & Hcap & Hval).
    assert (Horph : forall j, orphaned (sweep_step d i) j <-> orphaned d j).
    { intros j. unfold orphaned. by rewrite Hty1. }
    split_and!; try congruence.
    + split; congruence.
    + intros c. rewrite Hcap, Hcap1. split.
      * intros [[Hc Hi] Hl]. split; [done |].
        intros (j & [-> | Hj]%elem_of_cons & Hj' & Hc'); [by apply Hi |].
        apply Hl. exists j. by rewrite Horph.
      * intros [Hc Hl]. split_and!; [done | |].
        -- intros [Hi Hc']. apply Hl. exists i. split; [by left | done].
        -- intros (j & Hj & Hj' & Hc'). apply Hl. exists j.
           split; [by right |]. by rewrite <- Horph.
    + intros c Hc. rewrite Hval, Hval1; [done | | |].
      * intros ->. apply Hc. apply Exists_cons_hd. by left.
      * intros ->. apply Hc. apply Exists_cons_hd. by right.
      * intros Hc'. apply Hc. by apply Exists_cons_tl.
Qed.

Lemma elem_of_sweep_range (M i : N) :
  i ∈ (N.of_nat <$> seq 1 (N.to_nat M)) <-> (1 <= i <= M)%N.
Proof.
  rewrite list_elem_of_fmap. split.
  - intros (k & -> & Hk). apply elem_of_seq in Hk. lia.
  - intros Hi. exists (N.to_nat i). split; [by rewrite N2Nat.id |].
    apply elem_of_seq. lia.
Qed.

(** X13. The orphan sweep visits the endpoint numbers from 1 up to the
    largest one among the endpoint controls of the manifest, and
    removes both controls of every number in that range whose registry
    entry is missing or [null]. It removes nothing else, adds nothing,
    leaves the registry and its persisted copy alone, fires no trigger
    card and writes no capability value. *)
Theorem X13_orphan_sweep node d :
  let d' := _cleanupOrphanedEndpoints node d in
  _endpointTypes d' = _endpointTypes d /\ storeWrites d' = storeWrites d /\
  triggers d' = triggers d /\ valueWrites d' = valueWrites d /\
  forall c, hasCapability d' c = true <->
            hasCapability d c = true /\
            ~ exists i, (1 <= i <= maxManifestEndpoint node)%N /\ orphaned d i /\
                        (c = onoffCap i \/ c = dimCap i).
Proof.
  intros d'. subst d'. rewrite cleanupOrphans_unfold.
  destruct (N.eqb_spec (maxManifestEndpoint node) 0) as [Hzero | Hpos].
  - split_and!; try done. intros c. split; [| by intros [? _]].
    intros Hc. split; [done |]. intros (i & Hi & _). lia.
  - destruct (sweep_fold_spec (N.of_nat <$> seq 1 (N.to_nat (maxManifestEndpoint node))) d)
      as (Hty & Hst & [Hw Ht] & Hcap & _).
    split_and!; try done. intros c. rewrite Hcap.
    split; intros [Hc Hl]; (split; [done |]); intros (i & Hi & Hrest); apply Hl; exists i.
    + by rewrite elem_of_sweep_range.
    + by rewrite <- elem_of_sweep_range.
Qed.

(** X14. The bound of the orphan sweep comes from the manifest alone:
    every endpoint control the manifest declares lies within it, so an
    unclassified endpoint loses a control the manifest declares, if its
    number is at least 1; and a control whose number is larger than
    that of every endpoint control of the manifest is never removed. *)
Theorem X14_sweep_range_is_the_manifest node d n :
  let d' := _cleanupOrphanedEndpoints node d in
  (orphaned d n -> (1 <= n)%N ->
   (onoffCap n ∈ manifest_capabilities node \/ dimCap n ∈ manifest_capabilities node) ->
   hasCapability d' (onoffCap n) = false /\ hasCapability d' (dimCap n) = false) /\
  ((forall c m, c ∈ manifest_capabilities node -> match_endpoint_cap c = Some m -> (m < n)%N) ->
   hasCapability d' (onoffCap n) = hasCapability d (onoffCap n) /\
   hasCapability d' (dimCap n) = hasCapability d (dimCap n)).
Proof.
  intros d'. subst d'.
  destruct (maxManifest_fold (manifest_capabilities node) 0) as (_ & Hall & Hwit).
  fold (maxManifestEndpoint node) in Hall, Hwit.
  rewrite cleanupOrphans_unfold.
  destruct (N.eqb_spec (maxManifestEndpoint node) 0) as [Hzero | Hpos].
  - split; [| done]. intros _ Hn Hman. exfalso.
    destruct Hman as [Hman | Hman].
    + specialize (Hall _ n Hman (match_onoffCap n)). lia.
    + specialize (Hall _ n Hman (match_dimCap n)). lia.
  - destruct (sweep_fold_spec (N.of_nat <$> seq 1 (N.to_nat (maxManifestEndpoint node))) d)
      as (_ & _ & _ & Hcap & _).
    split.
    + intros Horph Hn Hman.
      assert (Hrange : (1 <= n <= maxManifestEndpoint node)%N).
      { split; [done |]. destruct Hman as [Hman | Hman].
        - exact (Hall _ n Hman (match_onoffCap n)).
        - exact (Hall _ n Hman (match_dimCap n)). }
      apply elem_of_sweep_range in Hrange.
      split; apply not_true_is_false; rewrite Hcap; intros [_ Hl]; apply Hl;
        exists n; split_and!; auto.
    + intros Hbelow.
      assert (Hout : forall c, (c = onoffCap n \/ c = dimCap n) ->
                hasCapability (foldl sweep_step d
                  (N.of_nat <$> seq 1 (N.to_nat (maxManifestEndpoint node)))) c
                = hasCapability d c).
      { intros c Hc. apply eq_true_iff_eq. rewrite Hcap. split; [by intros [? _] |].
        intros Hd. split; [done |]. intros (i & Hi%elem_of_sweep_range & _ & Hc').
        destruct Hwit as [Hwit | (c' & Hin & Hm)]; [lia |].
        specialize (Hbelow _ _ Hin Hm).
        assert (i = n); [| lia].
        destruct Hc as [-> | ->], Hc' as [Hc' | Hc'].
        - by apply onoffCap_inj in Hc'.
        - by apply onoffCap_dimCap in Hc'.
        - symmetry in Hc'. by apply onoffCap_dimCap in Hc'.
        - by apply dimCap_inj in Hc'. }
      split; apply Hout; auto.
Qed.

Lemma X14_witness :
  let node := node_of ∅ ["onoff"; "onoff.ep1"; "dim.ep1"; "onoff.ep2"] in
  let d := Device {[1%N := Some SWITCH; 2%N := None]}
                  {[onoffCap 1; onoffCap 2; dimCap 2; onoffCap 3]} ∅ [] [] [] in
  let d' := _cleanupOrphanedEndpoints node d in
  (hasCapability d' (onoffCap 2) = false /\ hasCapability d' (dimCap 2) = false) /\
  hasCapability d' (onoffCap 3) = true.
Proof.
  intros node d d'.
  destruct (X14_sweep_range_is_the_manifest node d 2) as [Hswept _].
  destruct (X14_sweep_range_is_the_manifest node d 3) as [_ Hkept].
  split.
  - apply Hswept; [by right | lia |].
    left. apply (bool_decide_unpack _). by vm_compute.
  - destruct Hkept as [Hkept _]; [| exact (eq_trans Hkept eq_refl)].
    intros c m Hc Hm.
    assert (Hcases : c = "onoff" \/ c = "onoff.ep1" \/ c = "dim.ep1" \/ c = "onoff.ep2").
    { repeat (apply elem_of_cons in Hc as [-> | Hc]; [tauto |]). by apply elem_of_nil in Hc. }
    destruct Hcases as [-> | [-> | [-> | ->]]]; vm_compute in Hm; try discriminate;
      injection Hm as <-; lia.
Defined.

(** X15. What discovery does to the controls differs between the two
    revisions. In [device.js] a discovery pass never adds a
    capability, whatever the topology: it records types and leaves the
    controls to synchronisation. In the revision with the queue every
    endpoint numbered from 1 whose descriptor matches a type leaves
    the pass with the on/off control, and with the dim control if it
    matches the dimmer type, also when the handlers could not be
    registered. In both, an endpoint numbered from 1 that has no type
    yet and whose descriptor matches neither type leaves the pass with
    a [null] entry and no controls. *)
Theorem X15_discovery_and_controls rev node d :
  let d' := _discoverAllEndpoints rev node d in
  (rev = device_js -> forall c, hasCapability d' c = true -> hasCapability d c = true) /\
  (rev = queue_revision ->
   forall n e t, (1 <= n)%N -> MultiChannelNodes node !! n = Some e ->
     _detectEndpointType e (CommandClass_or_empty e) = Some t ->
     hasCapability d' (onoffCap n) = true /\
     (t = DIMMER -> hasCapability d' (dimCap n) = true)) /\
  (forall n e, (1 <= n)%N -> MultiChannelNodes node !! n = Some e ->
     (forall t, _endpointTypes d !! n ≠ Some (Some t)) ->
     _detectEndpointType e (CommandClass_or_empty e) = None ->
     demoted d' n).
Proof.
  intros d'. subst d'.
  assert (Hne : forall n e, MultiChannelNodes node !! n = Some e -> MultiChannelNodes node ≠ ∅).
  { intros n e Hn Hempty. by rewrite Hempty in Hn. }
  assert (Hstep : forall n e, (1 <= n)%N -> MultiChannelNodes node !! n = Some e ->
            local (_discoverAllEndpoints rev node d) n = discover_local rev node n e (local d n)).
  { intros n e Hn He. rewrite discoverAll_local by eauto.
    unfold discover_step_local. rewrite He.
    by destruct (N.ltb_spec n 1); [lia |]. }
  split_and!.
  - intros -> c.
    destruct (decide (MultiChannelNodes node = ∅)) as [Hempty | Hnonempty].
    { rewrite discoverAll_empty by done.
      destruct (cleanupAll_spec node d) as (_ & _ & Hcap & _).
      rewrite !hasCapability_true, Hcap. set_solver. }
    destruct (control_of_dec (Object_keys (MultiChannelNodes node)) c) as [Hc | Hc].
    + apply Exists_exists in Hc as (m & _ & Hm).
      pose proof (discoverAll_local device_js node d m Hnonempty) as Hloc.
      unfold local, discover_step_local, discover_local in Hloc.
      assert (Hmono : (hasCapability (_discoverAllEndpoints device_js node d) (onoffCap m) = true ->
                       hasCapability d (onoffCap m) = true) /\
                      (hasCapability (_discoverAllEndpoints device_js node d) (dimCap m) = true ->
                       hasCapability d (dimCap m) = true)).
      { repeat case_match; simplify_eq; split; congruence. }
      destruct Hm as [-> | ->]; tauto.
    + rewrite discoverAll_nonempty by done.
      destruct (discover_fold_other device_js node (Object_keys (MultiChannelNodes node)) d)
        as (_ & Hcap & _).
      by destruct (Hcap c Hc) as [-> _].
  - intros -> n e t Hn He Ht.
    pose proof (Hstep n e Hn He) as Hloc.
    unfold local, discover_local in Hloc. rewrite Ht in Hloc.
    repeat case_match; simplify_eq; split; congruence.
  - intros n e Hn He Hnew Hnone.
    pose proof (Hstep n e Hn He) as Hloc.
    unfold local, discover_local in Hloc. rewrite Hnone in Hloc.
    unfold demoted, unprojected.
    destruct (_endpointTypes d !! n) as [[t |] |] eqn:Hty; [by destruct (Hnew t) | |];
      destruct rev; by simplify_eq.
Qed.

(** ** The debouncer over time *)

Module DebouncerExtra.
Import Debouncer DebouncerSpec DebouncerOps DebouncerProps.

Lemma run_snoc rev es e : run rev (es ++ [e]) = step rev (run rev es) e.
Proof. unfold run. by rewrite foldl_app. Qed.

Lemma idle_run rev es : forall s,
  quiet es -> pending s = [] ->
  let s' := foldl (step rev) s es in
  pending s' = [] /\ synced s' = synced s /\ now s' = (now s + elapsed es)%N.
Proof.
  induction es as [| e es IH]; intros s Hq Hp; simpl.
  - split_and!; [done | done | lia].
  - apply Forall_cons in Hq as [He Hq].
    destruct e as [c | h | dt]; [done | |]; simpl.
    + rewrite Hp. simpl. by apply IH.
    + destruct (IH (State (_syncTimeout s) (pending s) (next_handle s) (now s + dt) (synced s)))
        as (H1 & H2 & H3); [done | done |].
      split_and!; [done | done |]. rewrite H3. simpl. lia.
Qed.

Lemma armed_run rev es : forall s h c due,
  quiet es -> pending s = [Timer h c due] ->
  let s' := foldl (step rev) s es in
  now s' = (now s + elapsed es)%N /\
  ((pending s' = [Timer h c due] /\ synced s' = synced s) \/
   (pending s' = [] /\ synced s' = synced s ++ [c] /\ (due <= now s')%N)).
Proof.
  induction es as [| e es IH]; intros s h c due Hq Hp; simpl.
  - split; [lia | by left].
  - apply Forall_cons in Hq as [He Hq].
    destruct e as [c' | h' | dt]; [done | |]; simpl.
    + rewrite Hp. destruct (decide (h = h')) as [-> | Hne].
      * rewrite filter_cons_True by done.
        assert (Hclear : clearTimeout h' [Timer h' c due] = [])
          by apply (clearTimeout_single (Timer h' c due)).
        rewrite Hclear. simpl.
        destruct (N.leb_spec due (now s)) as [Hdue | Hnot].
        -- destruct (idle_run rev es (State (_syncTimeout s) [] (next_handle s) (now s)
                                            (synced s ++ [c])))
             as (H1 & H2 & H3); [done | done |].
           simpl in *. split; [done |]. right. split_and!; [done | done | lia].
        -- by apply IH.
      * rewrite filter_cons_False by done. rewrite filter_nil. by apply IH.
    + destruct (IH (State (_syncTimeout s) (pending s) (next_handle s) (now s + dt) (synced s))
                   h c due) as [H1 H2]; [done | done |].
      simpl in *. split; [lia |]. destruct H2 as [H2 | (? & ? & ?)]; [by left |].
      right. split_and!; [done | done | lia].
Qed.

(** X16. The debounce is trailing-edge. After a root report for class
    [c], as long as no further root report arrives: nothing is
    resynchronised before the quiet window has passed; at most one
    resynchronisation follows, and it is of class [c]; and once the
    window has passed, the timer this report armed resynchronises
    class [c] when it fires. *)
Theorem X16_debounce_is_trailing_edge rev es c later :
  quiet later ->
  let s := run rev es in
  let s' := foldl (step rev) (step rev s (RootReport c)) later in
  ((elapsed later < SYNC_DEBOUNCE_MS rev)%N -> synced s' = synced s) /\
  (synced s' = synced s \/ synced s' = synced s ++ [c]) /\
  ((SYNC_DEBOUNCE_MS rev <= elapsed later)%N ->
   synced (step rev s' (Fire (next_handle s))) = synced s ++ [c]).
Proof.
  intros Hq s s'.
  assert (Hp : pending (step rev s (RootReport c))
               = [Timer (next_handle s) c (now s + SYNC_DEBOUNCE_MS rev)]).
  { apply listener_pending, run_single_slot. }
  destruct (armed_run rev later _ _ _ _ Hq Hp) as [Hnow Hcases]. fold s' in Hnow, Hcases.
  assert (Hnow' : now s' = (now s + elapsed later)%N) by done.
  assert (Hsynced : synced (step rev s (RootReport c)) = synced s) by done.
  rewrite Hsynced in Hcases.
  split_and!.
  - intros Hshort. destruct Hcases as [[_ ?] | (_ & _ & Hdue)]; [done | lia].
  - destruct Hcases as [[_ ?] | (_ & ? & _)]; [by left | by right].
  - intros Hlong. destruct Hcases as [[Hpend Hs] | (Hpend & Hs & _)]; simpl; rewrite Hpend; simpl.
    + rewrite filter_cons_True by done. simpl.
      destruct (N.leb_spec (now s + SYNC_DEBOUNCE_MS rev) (now s')) as [_ | Hnot]; [| lia].
      simpl. by rewrite Hs.
    + done.
Qed.

Lemma X16_witness :
  let s := run device_js [RootReport SWITCH; Tick 30] in
  let later := [Tick 60; Fire 1; Tick 39] in
  let s' := foldl (step device_js) (step device_js s (RootReport DIMMER)) later in
  synced s' = synced s.
Proof.
  intros s later s'.
  destruct (X16_debounce_is_trailing_edge device_js [RootReport SWITCH; Tick 30] DIMMER later)
    as (Hshort & _).
  - repeat constructor.
  - apply Hshort. vm_compute. reflexivity.
Defined.

Lemma pending_from_reports rev es t :
  t ∈ pending (run rev es) -> RootReport (timer_class t) ∈ es.
Proof.
  revert t. induction es as [| e es IH] using rev_ind; intros t.
  - intros Ht. by apply elem_of_nil in Ht.
  - rewrite run_snoc. destruct e as [c | h | dt]; cbn [step].
    + rewrite listener_pending by apply run_single_slot.
      intros ->%list_elem_of_singleton. simpl. apply elem_of_app. right. by left.
    + intros Ht. apply elem_of_app. left. apply IH.
      repeat case_match; try done. simpl in Ht.
      by apply list_elem_of_filter in Ht as [_ ?].
    + intros Ht. apply elem_of_app. left. by apply IH.
Qed.

(** X17. Every resynchronisation is owed to a root report: whatever the
    schedule, the resynchronisations made and the timer still pending
    together never outnumber the root reports received, and a class is
    resynchronised only if a root report for that class arrived. *)
Theorem X17_resyncs_are_bounded_by_reports rev es :
  let s := run rev es in
  (length (synced s) + length (pending s) <= reports es)%nat /\
  (forall c, c ∈ synced s -> RootReport c ∈ es).
Proof.
  induction es as [| e es IH] using rev_ind; simpl.
  - split; [done |]. intros c Hc. by apply elem_of_nil in Hc.
  - destruct IH as [Hcount Hfrom]. rewrite run_snoc.
    pose proof (run_single_slot rev es) as Hslot.
    unfold reports in *. rewrite filter_app, length_app.
    destruct e as [c | h | dt]; cbn [step].
    + rewrite listener_pending by done. rewrite filter_cons_True by done. simpl.
      split; [lia |]. intros c' Hc'. apply elem_of_app. left. by apply Hfrom.
    + rewrite filter_cons_False by done. simpl.
      destruct (filter (fun t => handle t = h) (pending (run rev es))) as [| t ts] eqn:Hf.
      { split; [lia |]. intros c' Hc'. apply elem_of_app. left. by apply Hfrom. }
      assert (Ht : t ∈ pending (run rev es) /\ handle t = h).
      { assert (t ∈ filter (fun t => handle t = h) (pending (run rev es))) as Hin
          by (rewrite Hf; by left).
        apply list_elem_of_filter in Hin. tauto. }
      destruct Ht as [Hin Hh].
      destruct (due t <=? now (run rev es))%N; simpl.
      * destruct Hslot as [Hnil | (t' & Hone & _)].
        { rewrite Hnil in Hin. by apply elem_of_nil in Hin. }
        rewrite Hone in Hin, Hcount |- *. apply list_elem_of_singleton in Hin as ->.
        rewrite <- Hh, clearTimeout_single, length_app. simpl in *.
        split; [lia |].
        intros c' [Hc' | ->%list_elem_of_singleton]%elem_of_app; apply elem_of_app; left.
        -- by apply Hfrom.
        -- apply (pending_from_reports rev). rewrite Hone. by left.
      * split; [lia |]. intros c' Hc'. apply elem_of_app. left. by apply Hfrom.
    + rewrite filter_cons_False by done. simpl.
      split; [lia |]. intros c' Hc'. apply elem_of_app. left. by apply Hfrom.
Qed.

(** X18. Removing the device cancels the debounce: after [onDeleted],
    in whatever state it is called, no timer is pending and the slot
    is empty, so as long as no root report arrives (the listeners are
    removed as well) nothing is resynchronised any more. *)
Theorem X18_removal_cancels_the_debounce rev es later :
  quiet later ->
  let s := onDeleted (run rev es) in
  pending s = [] /\ _syncTimeout s = None /\
  synced (foldl (step rev) s later) = synced (run rev es).
Proof.
  intros Hq s.
  assert (Hs : pending s = [] /\ _syncTimeout s = None /\ synced s = synced (run rev es)).
  { subst s. unfold onDeleted.
    destruct (run_single_slot rev es) as [Hnil | (t & Hone & Hslot)].
    - destruct (_syncTimeout (run rev es)) eqn:Hslot; simpl; by rewrite Hnil.
    - rewrite Hslot, Hone. simpl. by rewrite clearTimeout_single. }
  destruct Hs as (Hp & Hslot & Hsync). split_and!; [done | done |].
  destruct (idle_run rev later s Hq Hp) as (_ & -> & _). done.
Qed.

Lemma X18_witness :
  let es := [RootReport DIMMER; Tick 50] in
  let later := [Tick 100; Fire 0] in
  synced (foldl (step device_js) (onDeleted (run device_js es)) later) = [] /\
  synced (foldl (step device_js) (run device_js es) later) = [DIMMER].
Proof.
  intros es later. split; [| reflexivity].
  destruct (X18_removal_cancels_the_debounce device_js es later) as (_ & _ & Hsynced).
  - repeat constructor.
  - exact Hsynced.
Defined.

End DebouncerExtra.

(** ** The ledger of the command queue *)

Module QueueLedgerProps.
Import CommandQueue QueueSpec QueueLedger CommandQueueProps.

Lemma ledger_init : ledger init.
Proof. done. Qed.

Lemma futures_snoc (l : list command) c n :
  future <$> l = seq 0 n -> future c = n -> future <$> (l ++ [c]) = seq 0 (S n).
Proof. intros Hl Hc. by rewrite fmap_app, Hl, seq_S, <- Hc. Qed.

Lemma step_ledger s e : invariant s -> ledger s -> ledger (step s e).
Proof.
  intros [Hfifo Hsp Hph] (Hfut & Hset & Hlen).
  destruct s as [q flag acts t nf enq apps stl].
  unfold phase in Hph. unfold ledger, awaited in *. simpl in *.
  destruct e as [cap v | i out | i | dt]; simpl.
  - (* a caller enqueues *)
    unfold queueCapabilityCommand. simpl. destruct flag; simpl.
    + split_and!; [| done | done]. by apply futures_snoc.
    + destruct acts as [| [c' | due] [|]]; try done; try (by destruct Hph).
      destruct Hph as (_ & -> & _).
      unfold _processCommandQueue, loop_head. simpl.
      split_and!; [| done |].
      * by apply futures_snoc.
      * rewrite length_app. simpl. lia.
  - (* the application of a command completes *)
    destruct acts as [| [c' | due] [|]]; try done.
    + destruct i as [| i]; [| done]. simpl.
      destruct Hph as (-> & l & st & Happs & Hst).
      assert (Hc' : future c' = length stl).
      { rewrite Happs, length_app in Hlen. simpl in Hlen.
        assert (Hlook : (future <$> enq) !! length l = Some (future c')).
        { rewrite Hfifo, Happs, !fmap_app. simpl.
          rewrite <- !app_assoc. rewrite lookup_app_r by (by rewrite !length_fmap).
          by rewrite !length_fmap, Nat.sub_diag. }
        rewrite Hfut in Hlook. apply lookup_seq in Hlook as [Hlook _]. lia. }
      unfold after_trigger. simpl.
      assert (Hfin : length (finish (State q true [AwaitTrigger c'] t nf enq apps stl) c')
                     = length apps).
      { unfold finish. by rewrite length_fmap. }
      assert (Hset' : (stl ++ [(future c', match out with
                                           | Returns _ => Resolved
                                           | Throws error => Rejected error
                                           end)]).*1
                      = seq 0 (length (stl ++ [(future c', match out with
                                           | Returns _ => Resolved
                                           | Throws error => Rejected error
                                           end)]))).
      { rewrite fmap_app, length_app. simpl. by rewrite Nat.add_1_r, seq_S, Hset, Hc'. }
      destruct q as [| c q]; simpl.
      * unfold loop_head. simpl. split_and!; [done | done |].
        rewrite Hfin, length_app. simpl. lia.
      * split_and!; [done | done |]. rewrite Hfin, length_app. simpl. lia.
    + destruct i as [| [| i]]; done.
  - (* the delay elapses *)
    destruct acts as [| [c' | due] [|]]; try done.
    + destruct i as [| [| i]]; done.
    + destruct i as [| i]; [| done]. simpl.
      destruct (N.leb_spec due t) as [Hdue | Hnot]; [| done].
      destruct Hph as (-> & Hq & _).
      destruct q as [| c q]; [done |].
      unfold loop_head. simpl. split_and!; [done | done |].
      rewrite length_app. simpl. lia.
  - (* time passes *)
    done.
Qed.

Lemma run_ledger es : invariant (run es) /\ ledger (run es).
Proof.
  unfold run. apply (foldl_invariant (fun s => invariant s /\ ledger s)).
  - intros s e [Hinv Hled]. split; [by apply step_invariant | by apply step_ledger].
  - split; [apply invariant_init | apply ledger_init].
Qed.

(** X19. The promises the queue returns are settled one per completed
    application and in the order in which the callers enqueued: the
    n-th settlement is that of the n-th command, so none is settled
    twice and none is overtaken. No settlement precedes its
    application, and whenever the drain loop is idle every promise
    handed out so far has been settled. *)
Theorem X19_promises_settle_once_in_order es :
  let s := run es in
  future <$> enqueued s = seq 0 (length (enqueued s)) /\
  (settled s).*1 = take (length (settled s)) (future <$> enqueued s) /\
  NoDup (settled s).*1 /\
  (length (settled s) <= length (applications s) <= length (enqueued s))%nat /\
  (activations s = [] -> length (settled s) = length (enqueued s)).
Proof.
  intros s. destruct (run_ledger es) as [[Hfifo _ Hph] (Hfut & Hset & Hlen)].
  fold s in Hfifo, Hph, Hfut, Hset, Hlen.
  assert (Hnf : next_future s = length (enqueued s)).
  { apply (f_equal length) in Hfut. by rewrite length_fmap, length_seq in Hfut. }
  assert (Happs : (length (applications s) <= length (enqueued s))%nat).
  { rewrite Hfifo, length_app, length_fmap. lia. }
  split_and!.
  - by rewrite Hfut, Hnf.
  - rewrite Hfut, Hset, take_seq. f_equal. lia.
  - rewrite Hset. apply NoDup_seq.
  - lia.
  - done.
  - intros Hidle. unfold phase in Hph. unfold awaited in Hlen. rewrite Hidle in Hph, Hlen.
    destruct Hph as (_ & Hq & _). rewrite Hfifo, Hq, app_nil_r, length_fmap. lia.
Qed.

Lemma loop_head_forgotten D s i : forgotten D s -> forgotten D (loop_head s i).
Proof.
  intros (Hq & Hact & Happ & Hset & Hnf). unfold loop_head.
  destruct (_commandQueue s) as [| c q] eqn:Hqueue; unfold forgotten; simpl.
  - split_and!; [by intros c Hc%elem_of_nil | | done | done | done].
    intros c Hc. apply Hact. by apply list_elem_of_delete_inv in Hc.
  - assert (Hc : ~ D (future c)) by (apply Hq; by left).
    split_and!; [| | | done | done].
    + intros c' Hc'. apply Hq. by right.
    + intros c'. case_bool_decide.
      * intros Hin. apply list_elem_of_lookup in Hin as [j Hj].
        destruct (decide (j = i)) as [-> | Hne].
        -- rewrite list_lookup_insert_eq in Hj by done. by simplify_eq.
        -- rewrite list_lookup_insert_ne in Hj by done. apply Hact.
           apply list_elem_of_lookup. eauto.
      * intros [Hin | Heq%list_elem_of_singleton]%elem_of_app; [by apply Hact |].
        by simplify_eq.
    + intros a [Hin | ->%list_elem_of_singleton]%elem_of_app; [by apply Happ | done].
Qed.

Lemma step_forgotten D s e : forgotten D s -> forgotten D (step s e).
Proof.
  intros Hs. pose proof Hs as (Hq & Hact & Happ & Hset & Hnf).
  destruct e as [cap v | i out | i | dt]; simpl.
  - unfold queueCapabilityCommand.
    set (c := Command cap v (next_future s) (now s)).
    set (s1 := State (_commandQueue s ++ [c]) (_isProcessingQueue s) (activations s) (now s)
                     (S (next_future s)) (enqueued s ++ [c]) (applications s) (settled s)).
    assert (Hs1 : forgotten D s1).
    { unfold forgotten. subst s1. simpl. split_and!; [| done | done | done |].
      - intros c' [Hin | ->%list_elem_of_singleton]%elem_of_app; [by apply Hq |].
        simpl. intros Hd%Hnf. lia.
      - intros f Hd%Hnf. lia. }
    destruct (negb (_isProcessingQueue s1)); [| done].
    unfold _processCommandQueue. destruct (_isProcessingQueue s1); [done |].
    apply loop_head_forgotten. by destruct Hs1 as (? & ? & ? & ? & ?).
  - destruct (activations s !! i) as [[c | due] |] eqn:Hi; try done.
    assert (Hc : ~ D (future c)).
    { apply Hact. apply list_elem_of_lookup. eauto. }
    unfold after_trigger.
    set (s1 := State (_commandQueue s) (_isProcessingQueue s) (activations s) (now s)
                     (next_future s) (enqueued s) (finish s c)
                     (settled s ++ [(future c, match out with
                                               | Returns _ => Resolved
                                               | Throws error => Rejected error
                                               end)])).
    assert (Hs1 : forgotten D s1).
    { unfold forgotten. subst s1. simpl. split_and!; [done | done | | | done].
      - intros a Ha. unfold finish in Ha. apply list_elem_of_fmap in Ha as (a' & -> & Ha').
        specialize (Happ a' Ha'). by case_bool_decide.
      - intros f. rewrite fmap_app.
        intros [Hin | ->%list_elem_of_singleton]%elem_of_app; [by apply Hset | done]. }
    destruct (0 <? length (_commandQueue s1))%nat; [| by apply loop_head_forgotten].
    destruct Hs1 as (H1 & H2 & H3 & H4 & H5).
    unfold forgotten, set_activations. simpl. split_and!; try done.
    intros c' Hc'. apply list_elem_of_lookup in Hc' as [j Hj].
    destruct (decide (j = i)) as [-> | Hne].
    + rewrite list_lookup_insert_eq in Hj; [done |]. by apply lookup_lt_Some in Hi.
    + rewrite list_lookup_insert_ne in Hj by done. apply Hact.
      apply list_elem_of_lookup. eauto.
  - destruct (activations s !! i) as [[c | due] |]; try done.
    destruct (due <=? now s)%N; [by apply loop_head_forgotten | done].
  - done.
Qed.

(** X20. Removing the device abandons the callers that are waiting.
    [onDeleted] of the revision with the queue replaces the queue by
    an empty one without settling anything; whatever happens
    afterwards, new callers included, a command that was waiting at
    that moment is never applied and its promise is never settled.
    Nor does removal stop the drain loop: a command in flight stays in
    flight, and because the flag is cleared under it, the next caller
    starts a second activation beside it. *)
Theorem X20_removal_abandons_waiting_callers es later c :
  let s := run es in
  c ∈ _commandQueue s ->
  let s' := foldl step (onDeleted s) later in
  settled (onDeleted s) = settled s /\
  (future c ∉ (settled s').*1) /\
  (future c ∉ (future <$> (applied_command <$> applications s'))) /\
  (forall cap v, exists c1 c2,
     activations (step (onDeleted s) (Enqueue cap v)) = [c1; AwaitTrigger c2] /\
     capabilityId c2 = cap).
Proof.
  intros s Hc s'.
  destruct (run_ledger es) as [[Hfifo _ Hph] (Hfut & Hset & Hlen)].
  fold s in Hfifo, Hph, Hfut, Hset, Hlen.
  set (D := fun f => (length (applications s) <= f < next_future s)%nat).
  assert (Hfutures : forall i a, applications s !! i = Some a -> future (applied_command a) = i).
  { intros i a Ha.
    assert ((future <$> enqueued s) !! i = Some (future (applied_command a))) as Hlook.
    { rewrite Hfifo, fmap_app, lookup_app_l.
      - by rewrite !list_lookup_fmap, Ha.
      - rewrite !length_fmap. by apply lookup_lt_Some in Ha. }
    rewrite Hfut in Hlook. by apply lookup_seq in Hlook as [? _]. }
  assert (HD : D (future c)).
  { apply list_elem_of_lookup in Hc as [j Hj].
    assert ((future <$> enqueued s) !! (length (applications s) + j)%nat = Some (future c))
      as Hlook.
    { rewrite Hfifo, fmap_app, lookup_app_r by (rewrite !length_fmap; lia).
      rewrite !length_fmap, list_lookup_fmap.
      replace (length (applications s) + j - length (applications s))%nat with j by lia.
      by rewrite Hj. }
    rewrite Hfut in Hlook. apply lookup_seq in Hlook as [Hlook Hlt]. unfold D. simpl in *. lia. }
  assert (Hstart : forgotten D (onDeleted s)).
  { unfold forgotten, onDeleted. simpl. split_and!.
    - by intros c' Hc'%elem_of_nil.
    - intros c' Hc'. unfold phase in Hph.
      destruct (activations s) as [| [c0 | due] [|]] eqn:Hact; try done.
      + by apply elem_of_nil in Hc'.
      + apply list_elem_of_singleton in Hc'. simplify_eq.
        destruct Hph as (_ & l & st & Happs & _).
        assert (Hlast : applications s !! length l = Some (Application c0 st None)).
        { rewrite Happs, lookup_app_r, Nat.sub_diag by lia. done. }
        apply Hfutures in Hlast. simpl in Hlast. unfold D. rewrite Hlast, Happs, length_app.
        simpl. lia.
      + apply list_elem_of_singleton in Hc'. done.
    - intros a [i Hi]%list_elem_of_lookup. rewrite (Hfutures i a Hi).
      apply lookup_lt_Some in Hi. unfold D. lia.
    - intros f. rewrite Hset. intros [_ Hf]%elem_of_seq. unfold D. lia.
    - unfold D. lia. }
  assert (Hlater : forgotten D s').
  { subst s'. by apply (foldl_invariant (forgotten D)); [apply step_forgotten |]. }
  destruct Hlater as (_ & _ & Happ & Hsettled & _).
  split_and!.
  - done.
  - intros Hin. by apply (Hsettled _ Hin).
  - intros Hin. apply list_elem_of_fmap in Hin as (c' & Heq & Hin).
    apply list_elem_of_fmap in Hin as (a & -> & Ha).
    apply (Happ a Ha). by rewrite <- Heq.
  - intros cap v. unfold phase in Hph.
    destruct (activations s) as [| [c0 | due] [|]] eqn:Hact; try done.
    + destruct Hph as (_ & Hq & _). rewrite Hq in Hc. by apply elem_of_nil in Hc.
    + eexists _, _. unfold onDeleted. simpl. unfold queueCapabilityCommand. simpl.
      unfold _processCommandQueue, loop_head. simpl. rewrite Hact. simpl. done.
    + eexists _, _. unfold onDeleted. simpl. unfold queueCapabilityCommand. simpl.
      unfold _processCommandQueue, loop_head. simpl. rewrite Hact. simpl. done.
Qed.

Lemma X20_witness :
  let es := [Enqueue "onoff.ep1" (VBool true); Enqueue "onoff.ep2" (VBool false)] in
  let later := [TriggerSettles 0 (Returns ()); Tick 250; DelayElapses 0] in
  let s' := foldl step (onDeleted (run es)) later in
  (1%nat ∉ (settled s').*1) /\ settled s' = [(0%nat, Resolved)] /\ activations s' = [].
Proof.
  intros es later s'.
  destruct (X20_removal_abandons_waiting_callers es later
              (Command "onoff.ep2" (VBool false) 1 0)) as (_ & Hnever & _).
  - vm_compute. by left.
  - split_and!; [exact Hnever | reflexivity | reflexivity].
Defined.

End QueueLedgerProps.

(** ** Labels *)

Module LabelProps.
Import Labels.

Lemma sanitize_spec t :
  (length (sanitize t) <= 50)%nat /\ (60%N ∉ sanitize t) /\ (62%N ∉ sanitize t) /\
  (forall u, u ∈ sanitize t -> u ∈ t).
Proof.
  unfold sanitize. split_and!.
  - etrans; [apply length_filter |]. rewrite length_take. lia.
  - intros [[? _] _]%list_elem_of_filter. done.
  - intros [[_ ?] _]%list_elem_of_filter. done.
  - intros u [_ Hu]%list_elem_of_filter. by apply (subseteq_take 50 t).
Qed.

Lemma sanitize_clean t :
  (length t <= 50)%nat -> 60%N ∉ t -> 62%N ∉ t -> sanitize t = t.
Proof.
  intros Hlen H60 H62. unfold sanitize. rewrite take_ge by done.
  induction t as [| u t IH]; [done |].
  rewrite filter_cons_True.
  - f_equal. apply IH; [simpl in Hlen; lia | |]; intros ?; [apply H60 | apply H62]; by right.
  - split; intros ->; [apply H60 | apply H62]; by left.
Qed.

Lemma text_truthy_nonempty t : text_truthy t = true <-> t ≠ [].
Proof. by destruct t. Qed.

Lemma defaultLabel_nonempty mt n isDimmer cap : _getDefaultLabel mt n isDimmer cap ≠ [].
Proof.
  unfold _getDefaultLabel.
  assert (Hfallback : units (if isDimmer then "Dimmer" else "Switch") ++ units " "
                      ++ units (pretty n) ≠ []) by (by destruct isDimmer).
  destruct (mt !! cap) as [t |]; [| done].
  destruct (text_truthy t) eqn:Ht; [by apply text_truthy_nonempty | done].
Qed.

Lemma trimStart_spec t :
  exists pre, t = pre ++ trimStart t /\ Forall (fun u => is_space u = true) pre /\
              forall u, head (trimStart t) = Some u -> is_space u = false.
Proof.
  induction t as [| u t (pre & Ht & Hpre & Hhead)]; simpl.
  - exists []. split_and!; [done | constructor | done].
  - destruct (is_space u) eqn:Hu.
    + exists (u :: pre). split_and!; [by rewrite Ht at 1 | by constructor | done].
    + exists []. split_and!; [done | constructor |]. by intros ? [= <-].
Qed.

Lemma trim_spec t :
  exists pre post,
    t = pre ++ trim t ++ post /\
    Forall (fun u => is_space u = true) pre /\ Forall (fun u => is_space u = true) post /\
    (forall u, head (trim t) = Some u -> is_space u = false) /\
    (forall u, last (trim t) = Some u -> is_space u = false).
Proof.
  destruct (trimStart_spec t) as (pre & Ht & Hpre & Hhead).
  destruct (trimStart_spec (reverse (trimStart t))) as (q & Hr & Hq & Hlast).
  set (r := trimStart (reverse (trimStart t))) in *.
  assert (Hs : trimStart t = reverse r ++ reverse q).
  { by rewrite <- reverse_app, <- Hr, reverse_involutive. }
  exists pre, (reverse q). unfold trim. fold r. split_and!.
  - by rewrite <- Hs.
  - done.
  - by apply Forall_reverse.
  - intros u Hu. apply Hhead. rewrite Hs. by destruct (reverse r).
  - intros u Hu. apply Hlast. by rewrite last_reverse in Hu.
Qed.

(** X21. The title an endpoint control gets is never empty. It is made
    from the label setting of the endpoint (the empty string when the
    setting is missing or falsy): the white space at both ends is
    taken off, of what is left the first 50 code units are kept, and
    of these the angle brackets are dropped; if nothing remains, the
    default label is used. The on/off control and the dim control of
    the endpoint get the same title, only the controls the endpoint
    has are given one, and no other title changes. *)
Theorem X21_titles_are_sanitised_and_never_empty mt d settings ts n ts' :
  _applyLabelToEndpoint mt d settings ts n = Returns ts' ->
  exists raw pre trimmed post,
    (settings !! labelKey n = Some (Text raw) \/
     raw = [] /\
     (settings !! labelKey n = None \/ settings !! labelKey n = Some (Other false))) /\
    raw = pre ++ trimmed ++ post /\
    Forall (fun u => is_space u = true) pre /\
    Forall (fun u => is_space u = true) post /\
    (forall u, head trimmed = Some u -> is_space u = false) /\
    (forall u, last trimmed = Some u -> is_space u = false) /\
    let custom := filter (fun u => u ≠ 60%N /\ u ≠ 62%N) (take 50 trimmed) in
    let label :=
      if decide (custom = [])
      then _getDefaultLabel mt n (hasCapability d (dimCap n))
             (if hasCapability d (dimCap n) then dimCap n else onoffCap n)
      else custom in
    label ≠ [] /\
    forall c, ts' !! c =
      if bool_decide (c = onoffCap n \/ c = dimCap n) && hasCapability d c
      then Some label else ts !! c.
Proof.
  unfold _applyLabelToEndpoint, trimmed_label.
  intros Hrun.
  assert (Hraw : exists raw,
            (settings !! labelKey n = Some (Text raw) \/
             raw = [] /\
             (settings !! labelKey n = None \/ settings !! labelKey n = Some (Other false))) /\
            match settings !! labelKey n with
            | Some (Text t) => Returns (trim t)
            | Some (Other true) => Throws "trim is not a function"
            | _ => Returns (trim [])
            end = Returns (trim raw)).
  { destruct (settings !! labelKey n) as [[t | []] |] eqn:Hset.
    - exists t. split; [by left | done].
    - done.
    - exists []. split; [right; by auto | done].
    - exists []. split; [right; by auto | done]. }
  destruct Hraw as (raw & Hset & Htrim). rewrite Htrim in Hrun.
  injection Hrun as <-.
  destruct (trim_spec raw) as (pre & post & Hsplit & Hpre & Hpost & Hhead & Hlast).
  exists raw, pre, (trim raw), post.
  do 6 (split; [done |]).
  change (filter (fun u : N => u ≠ 60%N /\ u ≠ 62%N) (take 50 (trim raw)))
    with (sanitize (trim raw)).
  set (isDimmer := hasCapability d (dimCap n)).
  set (defaultLabel := _getDefaultLabel mt n isDimmer _).
  assert (Hlabel : (if text_truthy (sanitize (trim raw)) then sanitize (trim raw)
                    else defaultLabel)
                   = if decide (sanitize (trim raw) = []) then defaultLabel
                     else sanitize (trim raw)).
  { destruct (sanitize (trim raw)); [done |]. by rewrite decide_False. }
  rewrite Hlabel.
  set (label := if decide (sanitize (trim raw) = []) then defaultLabel
                else sanitize (trim raw)).
  split.
  - subst label. destruct (decide (sanitize (trim raw) = [])); [| done].
    apply defaultLabel_nonempty.
  - intros c. unfold _setTitle. rewrite andb_diag. fold isDimmer.
    destruct (decide (c = dimCap n)) as [-> | Hdim].
    { rewrite bool_decide_eq_true_2 by (by right). fold isDimmer. simpl.
      destruct isDimmer.
      - by rewrite lookup_insert_eq.
      - destruct (hasCapability d (onoffCap n)); [| done].
        rewrite lookup_insert_ne; [done |]. apply onoffCap_dimCap. }
    destruct (decide (c = onoffCap n)) as [-> | Hon].
    { rewrite bool_decide_eq_true_2 by (by left). simpl.
      destruct isDimmer.
      - rewrite lookup_insert_ne by (intros Heq; symmetry in Heq; by apply onoffCap_dimCap in Heq).
        destruct (hasCapability d (onoffCap n)); [by rewrite lookup_insert_eq | done].
      - destruct (hasCapability d (onoffCap n)); [by rewrite lookup_insert_eq | done]. }
    rewrite bool_decide_eq_false_2 by tauto. simpl.
    destruct isDimmer, (hasCapability d (onoffCap n));
      rewrite ?lookup_insert_ne by done; done.
Qed.

Lemma X21_witness :
  let d := Device {[1%N := Some DIMMER]} {[onoffCap 1; dimCap 1]} ∅ [] [] [] in
  let settings : gmap string setting := {[labelKey 1 := Text (units "  <b>Hall</b> ")]} in
  exists ts',
    _applyLabelToEndpoint ∅ d settings ∅ 1 = Returns ts' /\
    ts' !! dimCap 1 = Some (units "bHall/b") /\
    ts' !! onoffCap 1 = Some (units "bHall/b") /\
    exists label, label ≠ [] /\ ts' !! dimCap 1 = Some label.
Proof.
  intros d settings.
  assert (Hrun : exists ts', _applyLabelToEndpoint ∅ d settings ∅ 1 = Returns ts' /\
                             ts' !! dimCap 1 = Some (units "bHall/b") /\
                             ts' !! onoffCap 1 = Some (units "bHall/b"))
    by (vm_compute; eauto).
  destruct Hrun as (ts' & Hrun & Hdim & Hon). exists ts'.
  split_and!; [exact Hrun | exact Hdim | exact Hon |].
  destruct (X21_titles_are_sanitised_and_never_empty ∅ d settings ∅ 1 ts' Hrun)
    as (raw & pre & trimmed & post & _ & _ & _ & _ & _ & _ & Hne & Hts).
  eexists. split; [exact Hne |]. by rewrite (Hts (dimCap 1)).
Defined.

(** X22. The label a trigger card carries and the title of the control
    are computed by two functions: the card's label is trimmed only,
    and its default follows the registry type rather than the dim
    control. The two agree whenever the trimmed custom label has at
    most 50 code units and no angle bracket, and the endpoint has the
    dim control exactly if the registry has it as a dimmer. *)
Theorem X22_flow_label_agrees_with_title mt d settings ts n trimmed :
  trimmed_label settings n = Returns trimmed ->
  (length trimmed <= 50)%nat -> 60%N ∉ trimmed -> 62%N ∉ trimmed ->
  hasCapability d (dimCap n) = bool_decide (_endpointTypes d !! n = Some (Some DIMMER)) ->
  exists label ts',
    _getEndpointLabel mt d settings n = Returns label /\
    _applyLabelToEndpoint mt d settings ts n = Returns ts' /\
    (hasCapability d (onoffCap n) = true -> ts' !! onoffCap n = Some label) /\
    (hasCapability d (dimCap n) = true -> ts' !! dimCap n = Some label).
Proof.
  intros Htrim Hlen H60 H62 Hdim.
  destruct (_applyLabelToEndpoint mt d settings ts n) as [ts' | e] eqn:Happly;
    [| unfold _applyLabelToEndpoint in Happly; by rewrite Htrim in Happly].
  eexists _, ts'. split_and!; [| done | |].
  - unfold _getEndpointLabel. rewrite Htrim. reflexivity.
  - intros Hon. unfold _applyLabelToEndpoint in Happly. rewrite Htrim in Happly.
    injection Happly as <-. rewrite sanitize_clean by done. rewrite <- Hdim.
    unfold _setTitle. rewrite andb_diag.
    destruct (hasCapability d (dimCap n)).
    + rewrite lookup_insert_ne by (intros Heq; symmetry in Heq; by apply onoffCap_dimCap in Heq).
      by rewrite Hon, lookup_insert_eq.
    + by rewrite Hon, lookup_insert_eq.
  - intros Hd. unfold _applyLabelToEndpoint in Happly. rewrite Htrim in Happly.
    injection Happly as <-. rewrite sanitize_clean by done. rewrite <- Hdim.
    unfold _setTitle. rewrite andb_diag, Hd. by rewrite lookup_insert_eq.
Qed.

Lemma X22_witness :
  let d := Device {[2%N := Some SWITCH]} {[onoffCap 2]} ∅ [] [] [] in
  let settings : gmap string setting := {[labelKey 2 := Text (units " Porch ")]} in
  exists ts',
    _getEndpointLabel ∅ d settings 2 = Returns (units "Porch") /\
    _applyLabelToEndpoint ∅ d settings ∅ 2 = Returns ts' /\
    ts' !! onoffCap 2 = Some (units "Porch").
Proof.
  intros d settings.
  destruct (X22_flow_label_agrees_with_title ∅ d settings ∅ 2 (units "Porch"))
    as (label & ts' & Hlabel & Happly & Hon & _).
  - vm_compute. reflexivity.
  - vm_compute. lia.
  - apply (bool_decide_unpack _). by vm_compute.
  - apply (bool_decide_unpack _). by vm_compute.
  - vm_compute. reflexivity.
  - exists ts'.
    assert (Heq : label = units "Porch").
    { assert (Hcomp : _getEndpointLabel ∅ d settings 2 = Returns (units "Porch"))
        by (vm_compute; reflexivity).
      rewrite Hcomp in Hlabel. by injection Hlabel. }
    subst label. split_and!; [exact Hlabel | exact Happly |].
    apply Hon. vm_compute. reflexivity.
Defined.

Section Offered.
Variable mt : gmap string text.
Variable toLowerCase : text -> text.


End Offered.


End LabelProps.

(** ** Node initialisation *)

Lemma untouched_consistent_at n d d' :
  untouched n d d' -> consistent_at d n -> consistent_at d' n.
Proof.
  intros (Hty & Hon & Hdim & _) Hn t Ht. rewrite Hty in Ht.
  specialize (Hn t Ht). unfold projects in *. by rewrite Hon, Hdim.
Qed.

Lemma sync_fold_consistent_at `{StringSemantics} node (l : list N) n : forall d,
  is_Some (MultiChannelNodes node !! n) -> n ∈ l \/ consistent_at d n ->
  consistent_at
    (foldl (fun d id => _syncOneEndpointState d id (MultiChannelNodes node !! id)) d l) n.
Proof.
  induction l as [| m l IH]; intros d Hnode Hn; simpl.
  - destruct Hn as [Hn | Hn]; [by apply elem_of_nil in Hn | done].
  - apply IH; [done |]. destruct (decide (n = m)) as [<- | Hne].
    + right. destruct Hnode as [ep ->]. apply syncOne_establishes.
    + destruct Hn as [[-> | Hn]%elem_of_cons | Hn]; [done | by left |].
      right. eapply untouched_consistent_at; [| done]. by apply syncOne_untouched.
Qed.

Lemma cleanupOrphans_spec node d :
  let d' := _cleanupOrphanedEndpoints node d in
  _endpointTypes d' = _endpointTypes d /\ storeWrites d' = storeWrites d /\
  (forall c, hasCapability d' c = true <->
             hasCapability d c = true /\
             ~ exists i, (1 <= i <= maxManifestEndpoint node)%N /\ orphaned d i /\
                         (c = onoffCap i \/ c = dimCap i)).
Proof.
  intros d'. subst d'. rewrite cleanupOrphans_unfold.
  destruct (N.eqb_spec (maxManifestEndpoint node) 0) as [Hzero | Hpos].
  - split_and!; try done. intros c. split; [| by intros [? _]].
    intros Hc. split; [done |]. intros (i & Hi & _). lia.
  - destruct (sweep_fold_spec (N.of_nat <$> seq 1 (N.to_nat (maxManifestEndpoint node))) d)
      as (Hty & Hst & _ & Hcap & _).
    split_and!; try done. intros c. rewrite Hcap.
    split; intros [Hc Hl]; (split; [done |]); intros (i & Hi & Hrest); apply Hl; exists i.
    + by rewrite elem_of_sweep_range.
    + by rewrite <- elem_of_sweep_range.
Qed.

Lemma cleanupOrphans_classified node d n t :
  _endpointTypes d !! n = Some (Some t) ->
  hasCapability (_cleanupOrphanedEndpoints node d) (onoffCap n) = hasCapability d (onoffCap n) /\
  hasCapability (_cleanupOrphanedEndpoints node d) (dimCap n) = hasCapability d (dimCap n).
Proof.
  intros Hty. destruct (cleanupOrphans_spec node d) as (_ & _ & Hcap).
  assert (Hkeep : forall c, c = onoffCap n \/ c = dimCap n ->
            hasCapability (_cleanupOrphanedEndpoints node d) c = hasCapability d c).
  { intros c Hc. apply eq_true_iff_eq. rewrite Hcap. split; [by intros [? _] |].
    intros Hd. split; [done |]. intros (i & _ & Horph & Hci).
    assert (i = n) as ->.
    { destruct Hc as [-> | ->], Hci as [Hci | Hci].
      - by apply onoffCap_inj in Hci.
      - by apply onoffCap_dimCap in Hci.
      - symmetry in Hci. by apply onoffCap_dimCap in Hci.
      - by apply dimCap_inj in Hci. }
    destruct Horph as [Ho | Ho]; congruence. }
  split; apply Hkeep; auto.
Qed.

Lemma applyLabel_throws mt d settings ts n :
  (exists e, Labels._applyLabelToEndpoint mt d settings ts n = Throws e) <->
  settings !! Labels.labelKey n = Some (Labels.Other true).
Proof.
  unfold Labels._applyLabelToEndpoint, Labels.trimmed_label.
  destruct (settings !! Labels.labelKey n) as [[t | []] |]; split;
    try done; try (by intros [e ?]); by eexists.
Qed.

Lemma apply_labels_error mt d settings (l : list N) : forall ts,
  is_Some (Labels.apply_labels mt d settings ts l).2 <->
  exists n, n ∈ l /\ settings !! Labels.labelKey n = Some (Labels.Other true).
Proof.
  induction l as [| n l IH]; intros ts; simpl.
  - split; [by intros [? ?] | by intros (n & ?%elem_of_nil & _)].
  - destruct (Labels._applyLabelToEndpoint mt d settings ts n) as [ts' | e] eqn:Happly.
    + rewrite IH. split.
      * intros (m & Hm & Hset). exists m. split; [by right | done].
      * intros (m & [-> | Hm]%elem_of_cons & Hset); [| by eauto].
        apply (applyLabel_throws mt d settings ts) in Hset as [e He]. congruence.
    + simpl. split; [| by eauto]. intros _. exists n. split; [by left |].
      apply (applyLabel_throws mt d settings ts). eauto.
Qed.

Section Initialisation.
Context `{StringSemantics}.

(** X24. What node initialisation leaves behind when it returns. Every
    endpoint of the topology that ends up classified has exactly the
    controls of its type, every number in the range of the manifest
    that ends up without a type has none, and the last thing persisted
    is the registry as it stands. *)
Theorem X24_node_initialisation rev node mt settings stored d ts :
  let result := onNodeInit rev node mt settings stored d ts in
  result.2 = None ->
  let d' := result.1.1 in
  (forall n, is_Some (MultiChannelNodes node !! n) -> consistent_at d' n) /\
  (forall n, (1 <= n <= maxManifestEndpoint node)%N -> orphaned d' n -> unprojected d' n) /\
  last (storeWrites d') = Some (_endpointTypes d').
Proof.
  intros result Hreturns d'. subst d' result. revert Hreturns. unfold onNodeInit.
  set (d0 := set_endpointTypes d (default ∅ stored)).
  set (d1 := _discoverAllEndpoints rev node d0).
  set (d2 := _syncAllEndpointStates d1 node).
  set (d3 := _cleanupOrphanedEndpoints node d2).
  destruct (cleanupOrphans_spec node d2) as (Hty & Hst & Hcap). fold d3 in Hty, Hst, Hcap.
  assert (Hcons : forall n, is_Some (MultiChannelNodes node !! n) -> consistent_at d3 n).
  { intros n Hn t Ht. rewrite Hty in Ht.
    destruct (cleanupOrphans_classified node d2 n t Ht) as [Hon Hdim]. fold d3 in Hon, Hdim.
    unfold projects. rewrite Hon, Hdim.
    assert (Hd2 : consistent_at d2 n); [| by apply Hd2].
    subst d2. unfold _syncAllEndpointStates. apply sync_fold_consistent_at; [done |].
    destruct (_endpointTypes d1 !! n) as [ot |] eqn:Hd1.
    - left. apply elem_of_Object_keys. by rewrite Hd1.
    - right. intros t' Ht'. congruence. }
  assert (Horph : forall n, (1 <= n <= maxManifestEndpoint node)%N -> orphaned d3 n ->
                            unprojected d3 n).
  { intros n Hn Ho.
    assert (Ho2 : orphaned d2 n) by (unfold orphaned in *; by rewrite <- Hty).
    split; apply not_true_is_false; rewrite Hcap; intros [_ Hl]; apply Hl;
      exists n; (split; [done | split; [done | auto]]). }
  destruct (Labels._applyLabelsFromSettings mt d3 settings ts) as [ts' [e |]]; simpl.
  - discriminate.
  - intros _. split_and!; [done | done |]. by rewrite last_snoc.
Qed.
End Initialisation.

Lemma X24_witness :
  let node := node_of {[1%N := binary_endpoint (Some (report_of "Value" (VNum (Fin 1))))]}
                      ["onoff.ep1"; "dim.ep1"; "onoff.ep2"] in
  let d := Device ∅ {[onoffCap 2]} ∅ [] [] [] in
  let result := onNodeInit (H := no_numeric_strings) device_js node ∅ ∅ None d ∅ in
  result.2 = None /\
  last (storeWrites result.1.1) = Some (_endpointTypes result.1.1) /\
  _endpointTypes result.1.1 !! 1%N = Some (Some SWITCH).
Proof.
  intros node d result.
  assert (Hreturns : result.2 = None) by (by vm_compute).
  destruct (X24_node_initialisation (H := no_numeric_strings) device_js node ∅ ∅ None d ∅
              Hreturns) as (_ & _ & Hstore).
  split_and!; [exact Hreturns | exact Hstore | by vm_compute].
Defined.

(** ** Registration errors *)

Lemma includes_cons a (s needle : string) :
  includes (String a s) needle = String.prefix needle (String a s) || includes s needle.
Proof. reflexivity. Qed.

Lemma lacks_app c (s t : string) : lacks c (s +:+ t) = lacks c s && lacks c t.
Proof.
  induction s as [| a s IH]; [done |].
  rewrite string_app_cons. simpl. by rewrite IH, andb_assoc.
Qed.

Lemma digits_lack_t (s : string) : all_digits s = true -> lacks letter_t s = true.
Proof.
  induction s as [| a s IH]; [done |]. simpl.
  intros [Ha Hs]%andb_true_iff. rewrite IH by done. rewrite andb_true_r.
  apply negb_true_iff. destruct (Ascii.eqb_spec a letter_t) as [-> | ?]; [| done].
  by vm_compute in Ha.
Qed.

Lemma prefix_timeout_cons a (s : string) :
  Ascii.eqb a letter_t = false -> String.prefix "timeout" (String a s) = false.
Proof.
  intros Ha. cbn [String.prefix].
  destruct (Ascii.ascii_dec _ a) as [<- | _]; [by vm_compute in Ha | done].
Qed.

Lemma includes_skip (p s : string) :
  lacks letter_t p = true -> includes (p +:+ s) "timeout" = includes s "timeout".
Proof.
  induction p as [| a p IH]; [done |]. cbn [lacks].
  intros [Ha Hp]%andb_true_iff. rewrite string_app_cons, includes_cons, IH by done.
  apply negb_true_iff in Ha. by rewrite prefix_timeout_cons.
Qed.

Lemma includes_failed_to_register (s : string) :
  includes ("Failed to register " +:+ s) "timeout" = includes s "timeout".
Proof. rewrite !string_app_cons, string_app_nil_l, !includes_cons. reflexivity. Qed.

Lemma endpoint_cap_lacks_t n c : c = onoffCap n \/ c = dimCap n -> lacks letter_t c = true.
Proof.
  destruct (pretty_digits n) as (Hall & _).
  intros [-> | ->]; unfold onoffCap, dimCap; rewrite lacks_app, (digits_lack_t (pretty n)) by done; done.
Qed.

Lemma register_handler_message rev node n c msg :
  c = onoffCap n \/ c = dimCap n ->
  register_handler rev node c = Some msg -> includes msg "timeout" = false.
Proof.
  intros Hc. unfold register_handler.
  destruct (registerCapability node c) as [errorMsg |]; [| done].
  destruct rev.
  - destruct (includes errorMsg "timeout") eqn:Htimeout; [done |]. simpl.
    destruct (includes errorMsg "capability get command failed"); [done |].
    by intros [= <-].
  - destruct (includes errorMsg "timeout") eqn:Htimeout; [done |]. simpl.
    destruct (includes errorMsg "did not respond" || includes errorMsg "NO_ACK"); [done |].
    intros [= <-].
    rewrite includes_failed_to_register, includes_skip by (by apply (endpoint_cap_lacks_t n)).
    by rewrite (includes_skip ": ").
Qed.

(** X25. A registration error that reaches [_discoverOneEndpoint] never
    reads as a timeout: [_registerEndpointCapabilities] swallows every
    error whose message contains [timeout] and rethrows the others, in
    the revision with the queue behind a prefix that does not contain
    it either. So the timeout test of the [catch] in
    [_discoverOneEndpoint] is never true. In [device.js] a rethrown
    error therefore never commits the type of a new endpoint; in the
    revision with the queue it commits it exactly when the message
    contains [capability get command failed]. *)
Theorem X25_registration_errors_are_never_timeouts rev node n t msg :
  register_outcome rev node n t = Some msg ->
  includes msg "timeout" = false /\
  commits rev node n t =
    match rev with
    | device_js => false
    | queue_revision => includes msg "capability get command failed"
    end.
Proof.
  intros Hout.
  assert (Hmsg : includes msg "timeout" = false).
  { unfold register_outcome in Hout. destruct t.
    - destruct (register_handler rev node (onoffCap n)) as [msg' |] eqn:Hon.
      + injection Hout as ->. eapply (register_handler_message rev node n); [| exact Hon]. auto.
      + eapply (register_handler_message rev node n); [| exact Hout]. auto.
    - eapply (register_handler_message rev node n); [| exact Hout]. auto. }
  split; [done |]. unfold commits. rewrite Hout. destruct rev; [done |].
  by rewrite Hmsg.
Qed.

Lemma X25_witness :
  let node := {| MultiChannelNodes := ∅;
                 registerCapability := fun _ => Some "node offline";
                 manifest_capabilities := [] |} in
  commits device_js node 1 SWITCH = false /\ commits queue_revision node 1 SWITCH = false.
Proof.
  intros node. split.
  - destruct (X25_registration_errors_are_never_timeouts device_js node 1 SWITCH "node offline")
      as [_ Hcommit]; [reflexivity | exact Hcommit].
  - destruct (X25_registration_errors_are_never_timeouts queue_revision node 1 SWITCH
                "Failed to register onoff.ep1: node offline")
      as [_ Hcommit]; [reflexivity | exact Hcommit].
Defined.

(** ** From a read to the condition cards *)


Lemma prepared_onoff_value d n t :
  getCapabilityValue (prepared d n t) (onoffCap n) = getCapabilityValue d (onoffCap n).
Proof.
  destruct t; simpl; rewrite !ensure_value; [done |].
  apply removeIfPresent_value. apply onoffCap_dimCap.
Qed.

Section ReadThenAsk.
Context `{StringSemantics}.

(** X26. The is-on condition answers what the last read of the endpoint
    found. Asked about endpoint [n] right after [n] was synchronised,
    it returns the state a switch reported, or whether the level a
    dimmer reported is above zero; after a read that timed out it
    returns what the on/off control held before; and after any other
    failure it returns [false], the endpoint being unclassified. *)
Theorem X26_is_on_reflects_the_last_read d n ep t :
  (1 <= n < 10 ^ 21)%N ->
  _endpointTypes d !! n = Some (Some t) ->
  let d' := _syncOneEndpointState d n (Some ep) in
  let args := {| endpoint_id := Some (VNum (Fin (inject_Z (Z.of_N n))));
                 comparison := VUndefined; level := VUndefined |} in
  _handleEndpointIsOn true d' args =
    Returns
      match read_endpoint t (CommandClass_or_empty ep) with
      | SwitchState b => b
      | DimmerLevel x => num_gt x (Fin 0)
      | Failed msg => includes msg "timeout" && truthy (getCapabilityValue d (onoffCap n))
      end.
Proof.
  intros [Hpos Hlt] Hty d' args.
  assert (Hid : truthy (optional_id args) = true).
  { unfold args, optional_id. simpl. apply negb_true_iff, not_true_is_false.
    rewrite Qeq_bool_iff. unfold Qeq. simpl. lia. }
  unfold _handleEndpointIsOn. rewrite Hid. cbn [negb].
  change (optional_id args) with (VNum (Fin (inject_Z (Z.of_N n)))).
  rewrite property_index_number by done.
  pose proof (prepared_same d n t) as [[Hpty _] _].
  subst d'. rewrite (syncOne_read d n ep t Hty).
  destruct (read_endpoint t (CommandClass_or_empty ep)) as [msg | x | b].
  - destruct (includes msg "timeout"); simpl.
    + unfold known. rewrite Hpty, Hty. simpl.
      by rewrite prepared_has_onoff, prepared_onoff_value.
    + destruct (demote_spec (prepared d n t) n) as (Hdty & _).
      unfold known. by rewrite Hdty, lookup_insert_eq.
  - pose proof (apply_reading_frame (prepared d n t) n (DimmerLevel x)) as [[Hty' _] Hcap].
    unfold known. rewrite Hty', Hpty, Hty. simpl.
    rewrite (hasCapability_ext _ _ _ Hcap), prepared_has_onoff. simpl.
    rewrite _setDim_other by apply onoffCap_dimCap.
    rewrite _setOnOff_stored; [by rewrite decide_True | done | apply prepared_has_onoff].
  - pose proof (apply_reading_frame (prepared d n t) n (SwitchState b)) as [[Hty' _] Hcap].
    unfold known. rewrite Hty', Hpty, Hty. simpl.
    rewrite (hasCapability_ext _ _ _ Hcap), prepared_has_onoff. simpl.
    rewrite _setOnOff_stored; [by rewrite decide_True | done | apply prepared_has_onoff].
Qed.
End ReadThenAsk.

Lemma X26_witness :
  let d := Device {[2%N := Some SWITCH]} ∅ ∅ [] [] [] in
  let ep := binary_endpoint (Some (report_of "Value" (VStr "on/enable"))) in
  _handleEndpointIsOn true (_syncOneEndpointState (H := no_numeric_strings) d 2 (Some ep))
    {| endpoint_id := Some (VNum (Fin (inject_Z 2)));
       comparison := VUndefined; level := VUndefined |} = Returns true.
Proof.
  intros d ep.
  apply (X26_is_on_reflects_the_last_read (H := no_numeric_strings) d 2 ep SWITCH).
  - split; [lia | by vm_compute].
  - reflexivity.
Defined.

(** * Demotion and the discovery pass *)

Lemma discoverAll_device_js_adds_nothing node d c :
  hasCapability (_discoverAllEndpoints device_js node d) c = true -> hasCapability d c = true.
Proof.
  destruct (decide (MultiChannelNodes node = ∅)) as [Hempty | Hnonempty].
  { rewrite discoverAll_empty by done.
    destruct (cleanupAll_spec node d) as (_ & _ & Hcap & _).
    rewrite !hasCapability_true, Hcap. set_solver. }
  destruct (control_of_dec (Object_keys (MultiChannelNodes node)) c) as [Hc | Hc].
  - apply Exists_exists in Hc as (m & _ & Hm).
    pose proof (discoverAll_local device_js node d m Hnonempty) as Hloc.
    unfold local, discover_step_local, discover_local in Hloc.
    assert (Hmono : (hasCapability (_discoverAllEndpoints device_js node d) (onoffCap m) = true ->
                     hasCapability d (onoffCap m) = true) /\
                    (hasCapability (_discoverAllEndpoints device_js node d) (dimCap m) = true ->
                     hasCapability d (dimCap m) = true)).
    { repeat case_match; simplify_eq; split; congruence. }
    destruct Hm as [-> | ->]; tauto.
  - rewrite discoverAll_nonempty by done.
    destruct (discover_fold_other device_js node (Object_keys (MultiChannelNodes node)) d)
      as (_ & Hcap & _).
    by destruct (Hcap c Hc) as [-> _].
Qed.

Lemma unprojected_weaken d d' n :
  (forall c, hasCapability d' c = true -> hasCapability d c = true) ->
  unprojected d n -> unprojected d' n.
Proof.
  intros Hsub [Hon Hdim].
  split; apply not_true_is_false; intros Hc%Hsub; congruence.
Qed.

Section Demotion.
Context `{StringSemantics}.

(** An endpoint without a type and without controls stays so through
    every operation that is not a discovery pass. *)
Lemma syncOne_keeps_unclassified d n m ep :
  known d n = false /\ unprojected d n ->
  known (_syncOneEndpointState d m ep) n = false /\
  unprojected (_syncOneEndpointState d m ep) n.
Proof.
  intros [Hk Hu]. destruct (decide (n = m)) as [<- | Hne].
  - destruct ep as [e |].
    + rewrite syncOne_unclassified; [done |].
      unfold known in Hk. destruct (_endpointTypes d !! n) as [[t |] |]; auto. done.
    + simpl. destruct (removeEndpoint_same d n) as [[Hty _] _].
      split.
      * unfold known in *. by rewrite Hty.
      * apply (unprojected_weaken d); [| done].
        intros c. rewrite hasCapability_removeEndpoint.
        by intros [_ ?]%andb_true_iff.
  - destruct (syncOne_untouched d m ep n Hne) as (Hty & Hon & Hdim & _).
    split.
    + unfold known in *. by rewrite Hty.
    + destruct Hu as [? ?]. split; congruence.
Qed.

Lemma perform_keeps_unclassified d n op :
  known d n = false /\ unprojected d n ->
  known (perform d op) n = false /\ unprojected (perform d op) n.
Proof.
  intros Hd. destruct op as [m ep | node | node t | node | rev node]; simpl.
  - by apply syncOne_keeps_unclassified.
  - unfold _syncAllEndpointStates.
    apply (foldl_invariant (fun d => known d n = false /\ unprojected d n)); [| done].
    intros. by apply syncOne_keeps_unclassified.
  - unfold _syncEndpointsByType.
    apply (foldl_invariant (fun d => known d n = false /\ unprojected d n)); [| done].
    intros. by apply syncOne_keeps_unclassified.
  - destruct Hd as [Hk Hu].
    destruct (cleanupOrphans_spec node d) as (Hty & _ & Hcap). split.
    + unfold known in *. by rewrite Hty.
    + apply (unprojected_weaken d); [| done]. intros c Hc. by apply Hcap in Hc as [? _].
  - unfold _checkDeviceHealth, warning. by destruct (_ && _).
Qed.

Lemma act_keeps_controls_absent d n a :
  known d n = false -> unprojected d n -> unprojected (act d a) n.
Proof.
  intros Hk Hu. destruct a as [op | node]; simpl.
  - by apply perform_keeps_unclassified.
  - apply (unprojected_weaken d); [| done].
    intros c. apply discoverAll_device_js_adds_nothing.
Qed.

Lemma unclassified_run acts : forall d n,
  unprojected d n -> unclassified_throughout n d acts -> unprojected (foldl act d acts) n.
Proof.
  induction acts as [| a acts IH]; intros d n Hu Hthrough; [done |].
  destruct Hthrough as [Hk Hrest]. simpl.
  apply IH; [| done]. by apply act_keeps_controls_absent.
Qed.

(** C4, as the code has it. A non-timeout failure of the type-specific
    read (an invalid or missing report, a missing command class, a
    rejected [GET]) sets the endpoint's type to [null], removes its
    on/off and dim controls and persists the registry. Afterwards the
    endpoint stays unclassified and without controls through every
    synchronisation, orphan sweep and health check. On [device.js] its
    controls also stay absent through any interleaving of these with
    discovery passes, for as long as no discovery pass has given it a
    type again. In the revision with the queue a discovery pass adds
    the controls before it registers the handlers, so there the
    controls stay absent through a pass if the endpoint has no
    descriptor or its descriptor matches no type, and the on/off
    control is back after a pass in which the descriptor of the
    endpoint, numbered from 1, matches a type, whether or not the
    pass reclassifies it. *)
Theorem C4_non_timeout_failure_demotes d n ep t errorMsg :
  _endpointTypes d !! n = Some (Some t) ->
  fst (sync_attempt d n t (CommandClass_or_empty ep)) = Some errorMsg ->
  includes errorMsg "timeout" = false ->
  let d' := _syncOneEndpointState d n (Some ep) in
  demoted d' n /\
  last (storeWrites d') = Some (_endpointTypes d') /\
  (forall ops : list operation, demoted (foldl perform d' ops) n) /\
  (forall acts : list action,
     unclassified_throughout n d' acts -> unprojected (foldl act d' acts) n) /\
  (forall node,
     (n < 1)%N \/ MultiChannelNodes node !! n = None \/
     (exists e, MultiChannelNodes node !! n = Some e /\
                _detectEndpointType e (CommandClass_or_empty e) = None) ->
     unprojected (_discoverAllEndpoints queue_revision node d') n) /\
  (forall node e t',
     (1 <= n)%N -> MultiChannelNodes node !! n = Some e ->
     _detectEndpointType e (CommandClass_or_empty e) = Some t' ->
     hasCapability (_discoverAllEndpoints queue_revision node d') (onoffCap n) = true).
Proof.
  intros Hty Hfail Htimeout d'.
  destruct (non_timeout_failure d n ep t errorMsg Hty Hfail Htimeout) as [Hd' Hdem].
  fold d' in Hd', Hdem.
  destruct (demote_spec (prepared d n t) n) as (Hdty & _ & Hdst & _).
  split_and!; [done | | | | |].
  - rewrite Hd', Hdst, Hdty. apply last_snoc.
  - intros ops. apply (foldl_invariant (fun d => demoted d n)); [| done].
    intros. by apply perform_keeps_demoted.
  - intros acts. apply unclassified_run. by destruct Hdem.
  - intros node Hcase. destruct Hdem as [Hnull [Hon Hdim]].
    destruct (decide (MultiChannelNodes node = ∅)) as [Hempty | Hnonempty].
    { rewrite discoverAll_empty by done.
      destruct (cleanupAll_spec node d') as (_ & _ & Hcap & _).
      apply (unprojected_weaken d'); [| done].
      intros c. rewrite !hasCapability_true, Hcap. set_solver. }
    pose proof (discoverAll_local queue_revision node d' n Hnonempty) as Hloc.
    unfold local, discover_step_local in Hloc. rewrite Hnull, Hon, Hdim in Hloc.
    destruct (N.ltb_spec n 1) as [Hlt | Hge].
    { by injection Hloc as _ ? ?. }
    destruct Hcase as [Hlt | [Hnone | (e & He & Hdetect)]]; [lia | |].
    + rewrite Hnone in Hloc. by injection Hloc as _ ? ?.
    + rewrite He in Hloc. unfold discover_local in Hloc. rewrite Hdetect in Hloc.
      by injection Hloc as _ ? ?.
  - intros node e t' Hn He Hdetect. destruct Hdem as [Hnull _].
    assert (Hnonempty : MultiChannelNodes node ≠ ∅).
    { intros Hempty. by rewrite Hempty in He. }
    pose proof (discoverAll_local queue_revision node d' n Hnonempty) as Hloc.
    unfold local, discover_step_local in Hloc. rewrite Hnull, He in Hloc.
    destruct (N.ltb_spec n 1) as [Hlt | _]; [lia |].
    unfold discover_local in Hloc. rewrite Hdetect in Hloc.
    destruct (commits queue_revision node n t'); by injection Hloc as _ ? _.
Qed.
End Demotion.

Lemma C4_witness :
  let d := Device {[3%N := Some DIMMER]} {[onoffCap 3; dimCap 3]} ∅ [] [] [] in
  let ep := multilevel_endpoint (Some (Throws "Command rejected")) in
  let node := node_of {[3%N := ep]} [] in
  let d' := _syncOneEndpointState (H := no_numeric_strings) d 3 (Some ep) in
  includes "Command rejected" "timeout" = false /\
  demoted d' 3 /\ last (storeWrites d') = Some (_endpointTypes d') /\
  demoted (perform (H := no_numeric_strings) d' (SyncOne 3 (Some ep))) 3 /\
  unprojected (foldl (act (H := no_numeric_strings)) d'
                     [Perform (SyncAll node); Perform (CleanupOrphans node)]) 3.
Proof.
  intros d ep node d'. split; [reflexivity |].
  destruct (C4_non_timeout_failure_demotes (H := no_numeric_strings)
              d 3 ep DIMMER "Command rejected")
    as (Hdem & Hstore & Hops & Hacts & _ & _).
  - reflexivity.
  - reflexivity.
  - reflexivity.
  - split_and!; [assumption | assumption | exact (Hops [SyncOne 3 (Some ep)]) |].
    apply Hacts. by vm_compute.
Defined.

(** C4 as stated fails in the revision with the queue: a discovery pass
    in which the handlers of a demoted endpoint cannot be registered
    leaves the endpoint unclassified and puts its on/off control
    back. *)
Lemma C4_counterexample : ~ absent_until_reclassified.
Proof.
  intros Hmono.
  set (node := {| MultiChannelNodes := {[1%N := binary_endpoint None]};
                  registerCapability := fun _ => Some "node offline";
                  manifest_capabilities := [] |}).
  set (d := Device {[1%N := None]} ∅ ∅ [] [] []).
  assert (Hdem : demoted d 1) by (by vm_compute).
  destruct (Hmono queue_revision node d 1%N Hdem) as [[Hon _] | [t Ht]].
  - by vm_compute in Hon.
  - by vm_compute in Ht.
Qed.

